(** * shorturl-net: the short-code supply pipeline (package [shortcode])

    A shallow embedding of [Generator] and of the handlers that touch the
    [short_links] table, followed by the properties of the pipeline.

    - [Go]        : results, channels and the mutex as the Go runtime has them
    - [Entropy]   : [crypto/rand.Int] over a scripted reader
    - [Store]     : the [short_links] table behind gorm, and the handlers'
                    statements on it
    - [Shortcode] : the sequential functions of the generator
    - [Pipeline]  : the goroutines of the generator as an interleaving
                    transition system
    - [Scenario]  : sample executions *)

From Stdlib Require Import List Bool Arith ZArith Lia Ascii String.
Import ListNotations.

Set Implicit Arguments.

(* ------------------------------------------------------------------ *)
(** ** Go runtime objects *)

Module Go.

(** A call either returns or panics. *)
Inductive Result (A : Type) : Type :=
| Ret (a : A)
| Panic.
Arguments Panic {A}.

(** Go's [error] values are compared with [nil] only. *)
Definition Error := string.

(** A buffered channel: the queued values, the capacity given to [make]
    and whether [close] has been called. *)
Record Chan (A : Type) : Type := mkChan {
  buf : list A;
  cap : nat;
  closed : bool
}.

Definition make_chan (A : Type) (n : nat) : Chan A := mkChan [] n false.

(** [len(ch)] *)
Definition len {A} (ch : Chan A) : nat := List.length (buf ch).

Inductive ChanOp (A : Type) : Type :=
| Blocked            (* the goroutine stays parked on the channel *)
| Done (a : A)
| ChanPanic.
Arguments Blocked {A}.
Arguments ChanPanic {A}.

(** [ch <- v]: panics on a closed channel, parks while the buffer is
    full (no receiver hand-off is modelled: every receive in this
    program goes through the buffer). *)
Definition send {A} (ch : Chan A) (v : A) : ChanOp (Chan A) :=
  if closed ch then ChanPanic
  else if len ch <? cap ch then Done (mkChan (buf ch ++ [v]) (cap ch) (closed ch))
  else Blocked.

(** [<-ch]: the oldest buffered value; on an empty channel the zero
    value once the channel is closed, parked otherwise. *)
Definition recv {A} (zero : A) (ch : Chan A) : ChanOp (A * Chan A) :=
  match buf ch with
  | v :: rest => Done (v, mkChan rest (cap ch) (closed ch))
  | [] => if closed ch then Done (zero, ch) else Blocked
  end.

(** Whether a [case <-ch:] of a [select] can fire. *)
Definition recv_ready {A} (ch : Chan A) : bool :=
  match buf ch with
  | _ :: _ => true
  | [] => closed ch
  end.

(** [close(ch)]: panics when the channel is already closed. *)
Definition close {A} (ch : Chan A) : Result (Chan A) :=
  if closed ch then Panic else Ret (mkChan (buf ch) (cap ch) true).

(** [sync.Mutex]: [true] is locked.  [Lock] parks while locked;
    [Unlock] of an unlocked mutex is a fatal error. *)
Definition Mutex := bool.

Definition lock (m : Mutex) : option Mutex :=
  if m then None else Some true.

Definition unlock (m : Mutex) : Result Mutex :=
  if m then Ret false else Panic.

End Go.

Import Go.

(* ------------------------------------------------------------------ *)
(** ** crypto/rand *)

Module Entropy.

(** One read of a byte from the system entropy source: the byte, or a
    failure. *)
Inductive Draw : Type :=
| Drawn (raw : N)
| Failed (e : Error).

(** [rand.Reader], scripted: the outcomes of its future reads.  A
    script that has run out is an unavailable source. *)
Definition Reader := list Draw.

Definition ErrExhausted : Error := "entropy source unavailable"%string.

(** The [byte] a read delivers. *)
Definition byte_of (raw : N) : Z := (Z.of_N raw mod 256)%Z.

(** [n.BitLen()] of a [big.Int] that is not negative. *)
Definition BitLen (n : Z) : Z :=
  if (n <=? 0)%Z then 0%Z else (Z.log2 n + 1)%Z.

(** [n.SetBytes(bytes)]: the bytes as a big-endian number. *)
Definition SetBytes (bytes : list Z) : Z :=
  fold_left (fun n x => (n * 256 + x)%Z) bytes 0%Z.

(** [bytes[0] &= uint8(int(1<<b) - 1)] *)
Definition mask_first (b : Z) (bytes : list Z) : list Z :=
  match bytes with
  | [] => []
  | x :: l => Z.land x (Z.shiftl 1 b - 1) :: l
  end.

(** The [for] loop of [rand.Int]: [io.ReadFull(rand, bytes)] fills the
    [k] bytes, here one read at a time ([bytes] holds those read so
    far); the first byte is masked to [b] bits; a candidate that is not
    below [max] is dropped and the bytes are read afresh. *)
Fixpoint Int_loop (k : nat) (b max : Z) (bytes : list Z) (rd : Reader)
  : Result (Z * option Error) * Reader :=
  match rd with
  | [] => (Ret (0%Z, Some ErrExhausted), [])
  | Failed e :: rd' => (Ret (0%Z, Some e), rd')
  | Drawn raw :: rd' =>
      let bytes' := (bytes ++ [byte_of raw])%list in
      if (List.length bytes' <? k)%nat then Int_loop k b max bytes' rd'
      else
        let n := SetBytes (mask_first b bytes') in
        if (n <? max)%Z then (Ret (n, None), rd')
        else Int_loop k b max [] rd'
  end.

(** [rand.Int(rand.Reader, max)]: panics for [max <= 0]; returns 0
    without a read for [max = 1]; otherwise reads as many bytes as
    [max - 1] needs, again and again until the number they make is
    below [max], and returns that number, or the error of a read. *)
Definition rand_Int (rd : Reader) (max : Z) : Result (Z * option Error) * Reader :=
  if (max <=? 0)%Z then (Panic, rd)
  else
    let bitLen := BitLen (max - 1) in
    if (bitLen =? 0)%Z then (Ret (0%Z, None), rd)
    else
      let k := Z.to_nat ((bitLen + 7) / 8) in
      let b := if (bitLen mod 8 =? 0)%Z then 8%Z else (bitLen mod 8)%Z in
      Int_loop k b max [] rd.

End Entropy.

Import Entropy.

(* ------------------------------------------------------------------ *)
(** ** The durable store *)

Module Store.

Local Open Scope string_scope.

(** [model.ShortLink].  The struct lists its columns itself and has no
    [DeletedAt]: the table has no soft-delete column. *)
Record ShortLink : Type := mkShortLink {
  ID : Z;
  ShortCode : string;
  OriginalURL : string;
  ClickCount : Z;
  IsActive : bool;
  CreatedAt : Z;
  UpdatedAt : Z
}.

(** [*gorm.DB] seen from the handlers: the rows of [short_links], the
    auto-increment counter, and the error every statement currently
    gets from the connection, if any. *)
Record DB : Type := mkDB {
  short_links : list ShortLink;
  next_id : Z;
  fault : option Error
}.

Definition has_code (code : string) (r : ShortLink) : bool :=
  String.eqb (ShortCode r) code.

(** [db.Unscoped().Table("short_links").Where("short_code = ?", code).Count(&count)]:
    the count and the statement's [Error].  [Unscoped] lifts the
    soft-delete filter, of which this table has none; no other
    condition is added. *)
Definition Count_short_code (db : DB) (code : string) : Z * option Error :=
  match fault db with
  | Some e => (0%Z, Some e)
  | None => (Z.of_nat (List.length (filter (has_code code) (short_links db))), None)
  end.

(** [db.Create(&shortLink)] of [CreateShortLink]: rejected by the
    unique index on [short_code] when a row carries the code. *)
Definition ErrDuplicate : Error := "UNIQUE constraint failed: short_links.short_code".

Definition Create (db : DB) (code url : string) (now : Z) : DB * option Error :=
  match fault db with
  | Some e => (db, Some e)
  | None =>
      if existsb (has_code code) (short_links db) then (db, Some ErrDuplicate)
      else (mkDB (short_links db ++ [mkShortLink (next_id db) code url 0 true now now])
                 (next_id db + 1) None, None)
  end.

(** [DeleteLink]: [db.Where("short_code = ?", code).Delete(&model.ShortLink{})].
    Without a [DeletedAt] field gorm issues a plain [DELETE]. *)
Definition DeleteLink (db : DB) (code : string) : DB * option Error :=
  match fault db with
  | Some e => (db, Some e)
  | None =>
      (mkDB (filter (fun r => negb (has_code code r)) (short_links db))
            (next_id db) None, None)
  end.

Definition ErrRecordNotFound : Error := "record not found".

(** [db.Where("short_code = ?", code).First(&link)] *)
Definition First_short_code (db : DB) (code : string) : option ShortLink * option Error :=
  match fault db with
  | Some e => (None, Some e)
  | None =>
      match find (has_code code) (short_links db) with
      | Some r => (Some r, None)
      | None => (None, Some ErrRecordNotFound)
      end
  end.

Definition set_active (id : Z) (v : bool) (now : Z) (r : ShortLink) : ShortLink :=
  if (ID r =? id)%Z
  then mkShortLink (ID r) (ShortCode r) (OriginalURL r) (ClickCount r) v
                   (CreatedAt r) now
  else r.

(** [ToggleLink]: [First] by code, then
    [db.Model(&link).Update("is_active", !link.IsActive)], which
    addresses the row by its primary key. *)
Definition ToggleLink (db : DB) (code : string) (now : Z) : DB * option Error :=
  match First_short_code db code with
  | (Some link, _) =>
      (mkDB (map (set_active (ID link) (negb (IsActive link)) now) (short_links db))
            (next_id db) (fault db), None)
  | (None, err) => (db, err)
  end.

End Store.

Import Store.

(* ------------------------------------------------------------------ *)
(** ** Package shortcode: the sequential functions *)

Module Shortcode.

Local Open Scope string_scope.

Definition Charset : string :=
  "abcdefghijklmnopqrstuvwxyzABCDEFGHIJKLMNOPQRSTUVWXYZ0123456789".
Definition CodeLength : Z := 7.
Definition ChannelBufferSize : nat := 1000.
Definition MinFillThreshold : nat := 100.

(** [b[i] = c] on a byte slice; the index is in range at every use. *)
Fixpoint store_byte (b : list ascii) (i : nat) (c : ascii) : list ascii :=
  match b, i with
  | [], _ => []
  | _ :: b', O => c :: b'
  | x :: b', S i' => x :: store_byte b' i' c
  end.

(** The [for i := range b] loop of [generateRandomString], [n] slots
    from index [i] on still to fill.  [inr e] is the early
    [return "", err]. *)
Fixpoint fill_bytes (n i : nat) (b : list ascii) (rd : Reader)
  : Result (list ascii + Error) * Reader :=
  match n with
  | O => (Ret (inl b), rd)
  | S n' =>
      match rand_Int rd (Z.of_nat (String.length Charset)) with
      | (Panic, rd') => (Panic, rd')
      | (Ret (_, Some err), rd') => (Ret (inr err), rd')
      | (Ret (num, None), rd') =>
          match String.get (Z.to_nat num) Charset with
          | None => (Panic, rd')                 (* index out of range *)
          | Some c => fill_bytes n' (S i) (store_byte b i c) rd'
          end
      end
  end.

(** [generateRandomString(length)]: [make] panics on a negative
    length. *)
Definition generateRandomString (length : Z) (rd : Reader)
  : Result (string * option Error) * Reader :=
  if (length <? 0)%Z then (Panic, rd)
  else
    let b := repeat zero (Z.to_nat length) in
    match fill_bytes (List.length b) 0 b rd with
    | (Panic, rd') => (Panic, rd')
    | (Ret (inr err), rd') => (Ret ("", Some err), rd')
    | (Ret (inl b'), rd') => (Ret (string_of_list_ascii b', None), rd')
    end.

(** [isCodeExist]: a failed query counts as "exists". *)
Definition isCodeExist (db : DB) (code : string) : bool :=
  match Count_short_code db code with
  | (_, Some _) => true
  | (count, None) => (count >? 0)%Z
  end.

(** [generateUniqueCode], [n] iterations of [for i := 0; i < 10; i++]
    left.  The third component lists the candidates handed to
    [isCodeExist], oldest first. *)
Fixpoint generateUniqueCode_loop (n : nat) (db : DB) (rd : Reader) (probed : list string)
  : Result (string * option Error) * Reader * list string :=
  match n with
  | O => (Ret ("", None), rd, probed)
  | S n' =>
      match generateRandomString CodeLength rd with
      | (Panic, rd') => (Panic, rd', probed)
      | (Ret (_, Some err), rd') => (Ret ("", Some err), rd', probed)
      | (Ret (code, None), rd') =>
          if negb (isCodeExist db code)
          then (Ret (code, None), rd', (probed ++ [code])%list)
          else generateUniqueCode_loop n' db rd' (probed ++ [code])%list
      end
  end.

(** The bound [10] of the loop in [generateUniqueCode]. *)
Definition MaxAttempts : nat := 10.

Definition generateUniqueCode (db : DB) (rd : Reader)
  : Result (string * option Error) * Reader * list string :=
  generateUniqueCode_loop MaxAttempts db rd [].

End Shortcode.

Import Shortcode.

(* ------------------------------------------------------------------ *)
(** ** The alphabet, as the specification names it *)

Definition alphabet : list ascii := list_ascii_of_string Charset.

(** a-z, A-Z, 0-9 by character code. *)
Definition alnum (c : ascii) : bool :=
  let n := nat_of_ascii c in
  (((97 <=? n) && (n <=? 122)) || ((65 <=? n) && (n <=? 90))
   || ((48 <=? n) && (n <=? 57)))%nat.

Fixpoint nodupb (l : list ascii) : bool :=
  match l with
  | [] => true
  | x :: l' => negb (existsb (Ascii.eqb x) l') && nodupb l'
  end.

(** The number a byte of the entropy source stands for: its low six
    bits, unless they make 62 or 63, in which case the byte is passed
    over. *)
Definition index_of_byte (raw : N) : option Z :=
  let v := (Z.of_N raw mod 64)%Z in
  if (v <? 62)%Z then Some v else None.

(** The next number the source gives, or the failure met before it. *)
Fixpoint pick (rd : Reader) : (Z + Error) * Reader :=
  match rd with
  | [] => (inr ErrExhausted, [])
  | Failed e :: rd' => (inr e, rd')
  | Drawn raw :: rd' =>
      match index_of_byte raw with
      | Some v => (inl v, rd')
      | None => pick rd'
      end
  end.

(** The next [n] numbers, or the failure met before the [n]th. *)
Fixpoint indices (n : nat) (rd : Reader) : (list Z + Error) * Reader :=
  match n with
  | O => (inl [], rd)
  | S n' =>
      match pick rd with
      | (inr e, rd') => (inr e, rd')
      | (inl v, rd') =>
          match indices n' rd' with
          | (inr e, rd'') => (inr e, rd'')
          | (inl l, rd'') => (inl (v :: l), rd'')
          end
      end
  end.

(** The numbers the reads [used] stand for, and whether none of them
    failed. *)
Definition numbers (used : Reader) : list Z :=
  flat_map (fun d => match d with
                     | Drawn raw => match index_of_byte raw with
                                    | Some v => [v]
                                    | None => []
                                    end
                     | Failed _ => []
                     end) used.

Definition all_drawn (used : Reader) : bool :=
  forallb (fun d => match d with Drawn _ => true | Failed _ => false end) used.

(** [Charset[v]] *)
Definition char_at (v : Z) : ascii :=
  match String.get (Z.to_nat v) Charset with
  | Some c => c
  | None => zero
  end.

(* ------------------------------------------------------------------ *)
(** ** The generator and its goroutines *)

Module Pipeline.

(** [Generator], without its logger. *)
Record Generator : Type := mkGenerator {
  db : DB;
  codeChan : Chan string;
  mu : Mutex;
  isFilling : bool;
  stopChan : Chan unit
}.

Definition NewGenerator (d : DB) : Generator :=
  mkGenerator d (make_chan string ChannelBufferSize) false false (make_chan unit 0).

Definition set_db (g : Generator) (d : DB) : Generator :=
  mkGenerator d (codeChan g) (mu g) (isFilling g) (stopChan g).
Definition set_codeChan (g : Generator) (ch : Chan string) : Generator :=
  mkGenerator (db g) ch (mu g) (isFilling g) (stopChan g).
Definition set_mu (g : Generator) (m : Mutex) : Generator :=
  mkGenerator (db g) (codeChan g) m (isFilling g) (stopChan g).
Definition set_isFilling (g : Generator) (b : bool) : Generator :=
  mkGenerator (db g) (codeChan g) (mu g) b (stopChan g).
Definition set_stopChan (g : Generator) (ch : Chan unit) : Generator :=
  mkGenerator (db g) (codeChan g) (mu g) (isFilling g) ch.

(** [Stop]: [close(g.stopChan)]. *)
Definition Stop (g : Generator) : Result Generator :=
  match close (stopChan g) with
  | Ret ch => Ret (set_stopChan g ch)
  | Panic => Panic
  end.

(** [GetCode]: [return <-g.codeChan]. *)
Definition GetCode (g : Generator) : ChanOp (string * Generator) :=
  match recv ""%string (codeChan g) with
  | Done (code, ch) => Done (code, set_codeChan g ch)
  | Blocked => Blocked
  | ChanPanic => ChanPanic
  end.

(** Goroutines are numbered. *)
Definition tid := nat.

(** Who called [fillChannel]: the [go g.fillChannel()] of [Start], or
    the monitor's loop. *)
Inductive Caller : Type := FromGo | FromMonitor.

(** The statement a goroutine executes next. *)
Inductive PC : Type :=
| Idle                      (* outside the generator; free to call into it *)
| Finished                  (* the goroutine has ended *)
| Stop_close                (* Stop: close(g.stopChan) *)
| GetCode_recv              (* GetCode: <-g.codeChan *)
| Mon_select (tick : bool)  (* monitorAndRefill: select; [tick]: ticker.C holds a tick *)
| Mon_tick                  (* case <-ticker.C: if len(g.codeChan) < MinFillThreshold *)
| Fill_lock (k : Caller)    (* fillChannel: g.mu.Lock() *)
| Fill_check (k : Caller)   (* if g.isFilling *)
| Fill_busy_unlock (k : Caller)   (* g.mu.Unlock(); return *)
| Fill_set (k : Caller)     (* g.isFilling = true *)
| Fill_unlock (k : Caller)  (* g.mu.Unlock(); defer func() {...}() *)
| Fill_for (k : Caller)     (* for len(g.codeChan) < ChannelBufferSize *)
| Fill_select (k : Caller)  (* select { case <-g.stopChan: ... default: ... } *)
| Gen_for (k : Caller) (i : nat)  (* generateUniqueCode: i < 10; generateRandomString *)
| Gen_probe (k : Caller) (i : nat) (code : string)  (* if !g.isCodeExist(code) *)
| Fill_err (k : Caller)     (* err != nil: time.Sleep(100ms); continue *)
| Fill_got (k : Caller) (code : string)   (* if code != "" *)
| Fill_send (k : Caller) (code : string)  (* g.codeChan <- code *)
| Defer_lock (k : Caller) (panicking : bool)    (* deferred: g.mu.Lock() *)
| Defer_clear (k : Caller) (panicking : bool)   (* g.isFilling = false *)
| Defer_unlock (k : Caller) (panicking : bool). (* g.mu.Unlock() *)

(** Where [fillChannel] returns to. *)
Definition ret (k : Caller) : PC :=
  match k with
  | FromGo => Finished
  | FromMonitor => Mon_select false
  end.

(** The process: the generator, [rand.Reader], the goroutines (those
    past the end of the list are [Idle]) and whether an unrecovered
    panic has ended it. *)
Record World : Type := mkWorld {
  gen : Generator;
  entropy : Reader;
  goroutines : list PC;
  crashed : bool
}.

Definition boot (d : DB) (rd : Reader) : World :=
  mkWorld (NewGenerator d) rd [] false.

Definition pc_of (w : World) (t : tid) : PC := nth t (goroutines w) Idle.

Fixpoint set_nth (l : list PC) (t : nat) (p : PC) : list PC :=
  match t, l with
  | O, [] => [p]
  | O, _ :: l' => p :: l'
  | S t', [] => Idle :: set_nth [] t' p
  | S t', x :: l' => x :: set_nth l' t' p
  end.

Definition goto (w : World) (t : tid) (p : PC) : World :=
  mkWorld (gen w) (entropy w) (set_nth (goroutines w) t p) (crashed w).
Definition set_gen (w : World) (g : Generator) : World :=
  mkWorld g (entropy w) (goroutines w) (crashed w).
Definition set_entropy (w : World) (rd : Reader) : World :=
  mkWorld (gen w) rd (goroutines w) (crashed w).
Definition crash (w : World) : World :=
  mkWorld (gen w) (entropy w) (goroutines w) true.

(** What an execution leaves behind. *)
Inductive Event : Type :=
| EvEnter (t : tid)         (* a refill pass took the isFilling flag *)
| EvLeave (t : tid)         (* the deferred function cleared it *)
| EvBusy (t : tid)          (* fillChannel found the flag set and returned *)
| EvAttempt (t : tid)       (* the select fell to default: generateUniqueCode is called *)
| EvProbe (t : tid) (code : string) (found : bool)  (* isCodeExist returned *)
| EvSend (t : tid) (code : string)
| EvTake (t : tid) (code : string)   (* GetCode returned *)
| EvStop (t : tid)          (* Stop closed stopChan *)
| EvMonitorExit (t : tid)
| EvPanic (t : tid).

Definition event_tid (e : Event) : tid :=
  match e with
  | EvEnter t | EvLeave t | EvBusy t | EvAttempt t | EvProbe t _ _
  | EvSend t _ | EvTake t _ | EvStop t | EvMonitorExit t | EvPanic t => t
  end.

(** What the next statement of a goroutine does: the new world and
    the events it leaves; [None] when the goroutine is parked, or is
    not at a statement of the function in question. *)
Definition Outcome : Type := option (World * list Event).

Definition orelse (a b : Outcome) : Outcome :=
  match a with
  | Some x => Some x
  | None => b
  end.

(** [Stop], called by goroutine [t]. *)
Definition Stop_at (w : World) (t : tid) : Outcome :=
  match pc_of w t with
  | Stop_close =>
      match Stop (gen w) with
      | Ret g' => Some (goto (set_gen w g') t Idle, [EvStop t])
      | Panic => Some (crash (goto w t Finished), [EvPanic t])
      end
  | _ => None
  end.

(** [GetCode], called by goroutine [t]. *)
Definition GetCode_at (w : World) (t : tid) : Outcome :=
  match pc_of w t with
  | GetCode_recv =>
      match GetCode (gen w) with
      | Done (code, g') => Some (goto (set_gen w g') t Idle, [EvTake t code])
      | Blocked => None
      | ChanPanic => Some (crash (goto w t Finished), [EvPanic t])
      end
  | _ => None
  end.

(** [monitorAndRefill], one statement.  [prefer_tick] settles the
    [select] when both of its cases are ready.  The call of
    [fillChannel] continues in [fillChannel] below. *)
Definition monitorAndRefill (w : World) (t : tid) (prefer_tick : bool) : Outcome :=
  let g := gen w in
  match pc_of w t with
  | Mon_select tick =>
      match tick, recv_ready (stopChan g) with
      | false, false => None
      | true, false => Some (goto w t Mon_tick, [])
      | false, true => Some (goto w t Finished, [EvMonitorExit t])
      | true, true =>
          if prefer_tick then Some (goto w t Mon_tick, [])
          else Some (goto w t Finished, [EvMonitorExit t])
      end
  | Mon_tick =>
      if len (codeChan g) <? MinFillThreshold
      then Some (goto w t (Fill_lock FromMonitor), [])
      else Some (goto w t (Mon_select false), [])
  | _ => None
  end.

(** [fillChannel], one statement.  The call of [generateUniqueCode]
    continues in [generateUniqueCode_at] below and comes back at
    [Fill_err] or [Fill_got]. *)
Definition fillChannel (w : World) (t : tid) : Outcome :=
  let g := gen w in
  match pc_of w t with
  | Fill_lock k =>
      match lock (mu g) with
      | Some m => Some (goto (set_gen w (set_mu g m)) t (Fill_check k), [])
      | None => None
      end
  | Fill_check k =>
      if isFilling g then Some (goto w t (Fill_busy_unlock k), [])
      else Some (goto w t (Fill_set k), [])
  | Fill_busy_unlock k =>
      match unlock (mu g) with
      | Ret m => Some (goto (set_gen w (set_mu g m)) t (ret k), [EvBusy t])
      | Panic => Some (crash (goto w t Finished), [EvPanic t])
      end
  | Fill_set k =>
      Some (goto (set_gen w (set_isFilling g true)) t (Fill_unlock k), [EvEnter t])
  | Fill_unlock k =>
      match unlock (mu g) with
      | Ret m => Some (goto (set_gen w (set_mu g m)) t (Fill_for k), [])
      | Panic => Some (crash (goto w t Finished), [EvPanic t])
      end
  | Fill_for k =>
      if len (codeChan g) <? ChannelBufferSize
      then Some (goto w t (Fill_select k), [])
      else Some (goto w t (Defer_lock k false), [])
  | Fill_select k =>
      if recv_ready (stopChan g)
      then Some (goto w t (Defer_lock k false), [])
      else Some (goto w t (Gen_for k 0), [EvAttempt t])
  | Fill_err k => Some (goto w t (Fill_for k), [])
  | Fill_got k code =>
      if String.eqb code ""%string then Some (goto w t (Fill_for k), [])
      else Some (goto w t (Fill_send k code), [])
  | Fill_send k code =>
      match send (codeChan g) code with
      | Done ch => Some (goto (set_gen w (set_codeChan g ch)) t (Fill_for k), [EvSend t code])
      | Blocked => None
      | ChanPanic => Some (goto w t (Defer_lock k true), [EvPanic t])
      end
  | Defer_lock k p =>
      match lock (mu g) with
      | Some m => Some (goto (set_gen w (set_mu g m)) t (Defer_clear k p), [])
      | None => None
      end
  | Defer_clear k p =>
      Some (goto (set_gen w (set_isFilling g false)) t (Defer_unlock k p), [EvLeave t])
  | Defer_unlock k p =>
      match unlock (mu g) with
      | Ret m =>
          if p then Some (crash (goto (set_gen w (set_mu g m)) t Finished), [])
          else Some (goto (set_gen w (set_mu g m)) t (ret k), [])
      | Panic => Some (crash (goto w t Finished), [EvPanic t])
      end
  | _ => None
  end.

(** [generateUniqueCode] inside [fillChannel], one statement: the
    store may change between two probes. *)
Definition generateUniqueCode_at (w : World) (t : tid) : Outcome :=
  match pc_of w t with
  | Gen_for k i =>
      if i <? MaxAttempts then
        match generateRandomString CodeLength (entropy w) with
        | (Panic, rd) => Some (goto (set_entropy w rd) t (Defer_lock k true), [EvPanic t])
        | (Ret (_, Some err), rd) => Some (goto (set_entropy w rd) t (Fill_err k), [])
        | (Ret (code, None), rd) => Some (goto (set_entropy w rd) t (Gen_probe k i code), [])
        end
      else Some (goto w t (Fill_got k ""%string), [])
  | Gen_probe k i code =>
      let found := isCodeExist (db (gen w)) code in
      if negb found
      then Some (goto w t (Fill_got k code), [EvProbe t code found])
      else Some (goto w t (Gen_for k (S i)), [EvProbe t code found])
  | _ => None
  end.

(** The next statement of goroutine [t], whichever function it is
    in. *)
Definition run_goroutine (w : World) (t : tid) (prefer_tick : bool) : Outcome :=
  orelse (Stop_at w t)
    (orelse (GetCode_at w t)
       (orelse (monitorAndRefill w t prefer_tick)
          (orelse (fillChannel w t) (generateUniqueCode_at w t)))).

(** Statements of the request handlers on the store, and the
    connection going down or coming back. *)
Inductive StoreOp : Type :=
| OpCreate (code url : string) (now : Z)   (* CreateShortLink: db.Create *)
| OpDelete (code : string)                 (* DeleteLink *)
| OpToggle (code : string) (now : Z)       (* ToggleLink *)
| OpFault (e : option Error).

Definition apply_op (op : StoreOp) (d : DB) : DB :=
  match op with
  | OpCreate code url now => fst (Create d code url now)
  | OpDelete code => fst (DeleteLink d code)
  | OpToggle code now => fst (ToggleLink d code now)
  | OpFault e => mkDB (short_links d) (next_id d) e
  end.

(** The statements of [fillChannel] between the flag being taken and
    the deferred function: a panic raised there (by a collaborator
    called from there) runs the deferred function. *)
Definition body_caller (p : PC) : option Caller :=
  match p with
  | Fill_for k | Fill_select k | Gen_for k _ | Gen_probe k _ _
  | Fill_err k | Fill_got k _ | Fill_send k _ => Some k
  | _ => None
  end.

Inductive Api : Type := ApiStop | ApiGetCode.

Definition entry (f : Api) : PC :=
  match f with
  | ApiStop => Stop_close
  | ApiGetCode => GetCode_recv
  end.

(** What can happen next in the process. *)
Inductive Action : Type :=
| Start (t1 t2 : tid)        (* Start(): go g.fillChannel() as t1, go g.monitorAndRefill() as t2 *)
| Call (t : tid) (f : Api)   (* goroutine t calls Stop() or GetCode() *)
| Tick (t : tid)             (* the ticker of monitor t fires *)
| Handler (op : StoreOp)     (* a request handler reaches its statement on the store *)
| Fault (t : tid)            (* a collaborator panics under the refill pass of t *)
| Run (t : tid) (prefer_tick : bool).   (* goroutine t executes its next statement *)

Definition step (w : World) (a : Action) : Outcome :=
  if crashed w then None
  else
    match a with
    | Start t1 t2 =>
        if (t1 =? t2)%nat then None
        else
          match pc_of w t1, pc_of w t2 with
          | Idle, Idle =>
              Some (goto (goto w t1 (Fill_lock FromGo)) t2 (Mon_select false), [])
          | _, _ => None
          end
    | Call t f =>
        match pc_of w t with
        | Idle => Some (goto w t (entry f), [])
        | _ => None
        end
    | Tick t =>
        match pc_of w t with
        | Mon_select _ => Some (goto w t (Mon_select true), [])
        | _ => None
        end
    | Handler op => Some (set_gen w (set_db (gen w) (apply_op op (db (gen w)))), [])
    | Fault t =>
        match body_caller (pc_of w t) with
        | Some k => Some (goto w t (Defer_lock k true), [EvPanic t])
        | None => None
        end
    | Run t b => run_goroutine w t b
    end.

(** A history lists the events of an execution, oldest first, each
    with the store as it was when the event happened. *)
Definition History := list (DB * Event).

Definition stamp (w : World) (evs : list Event) : History :=
  map (pair (db (gen w))) evs.

Fixpoint run (w : World) (h : History) (acts : list Action) : option (World * History) :=
  match acts with
  | [] => Some (w, h)
  | a :: acts' =>
      match step w a with
      | Some (w', evs) => run w' (h ++ stamp w evs) acts'
      | None => None
      end
  end.

(** The worlds an execution of the process can be in, with the history
    that leads there. *)
Inductive Reach : World -> History -> Prop :=
| Reach_boot (d : DB) (rd : Reader) : Reach (boot d rd) []
| Reach_step (w : World) (h : History) (a : Action) (w' : World) (evs : list Event) :
    Reach w h -> step w a = Some (w', evs) -> Reach w' (h ++ stamp w evs).

(** *** Reading a history *)

Definition sends (h : History) : list string :=
  flat_map (fun x => match snd x with EvSend _ c => [c] | _ => [] end) h.

Definition takes (h : History) : list string :=
  flat_map (fun x => match snd x with EvTake _ c => [c] | _ => [] end) h.

(** The latest event of goroutine [t]. *)
Definition last_event (t : tid) (h : History) : option (DB * Event) :=
  find (fun x => (event_tid (snd x) =? t)%nat) (rev h).

Definition is_stop (e : Event) : bool :=
  match e with EvStop _ => true | _ => false end.

Definition is_attempt (e : Event) : bool :=
  match e with EvAttempt _ => true | _ => false end.

(** Whether [Stop] has closed [stopChan] in this history. *)
Definition stopped (h : History) : bool := existsb (fun x => is_stop (snd x)) h.

(** How often a refill pass took the flag, and how often the flag was
    given back. *)
Definition enters (h : History) : nat :=
  List.length (filter (fun x => match snd x with EvEnter _ => true | _ => false end) h).

Definition leaves (h : History) : nat :=
  List.length (filter (fun x => match snd x with EvLeave _ => true | _ => false end) h).

(** The latest event of goroutine [t] is a probe of [code] that came
    back negative from the store as it then was. *)
Definition verified (t : tid) (code : string) (h : History) : Prop :=
  exists d0, last_event t h = Some (d0, EvProbe t code false) /\
             isCodeExist d0 code = false.

(** *** Regions of [fillChannel] *)

(** Holding [g.mu]. *)
Definition holds_mu (p : PC) : bool :=
  match p with
  | Fill_check _ | Fill_busy_unlock _ | Fill_set _ | Fill_unlock _
  | Defer_clear _ _ | Defer_unlock _ _ => true
  | _ => false
  end.

(** Inside the refill pass: from the flag being set to its being
    cleared. *)
Definition in_pass (p : PC) : bool :=
  match p with
  | Fill_unlock _ | Fill_for _ | Fill_select _ | Gen_for _ _ | Gen_probe _ _ _
  | Fill_err _ | Fill_got _ _ | Fill_send _ _ | Defer_lock _ _ | Defer_clear _ _ => true
  | _ => false
  end.

(** Past the loop condition [len(g.codeChan) < ChannelBufferSize] of
    the current iteration. *)
Definition in_iteration (p : PC) : bool :=
  match p with
  | Fill_select _ | Gen_for _ _ | Gen_probe _ _ _ | Fill_got _ _ | Fill_send _ _ => true
  | _ => false
  end.

(** A bound on the statements a goroutine still executes in the
    generator once [stopChan] is closed. *)
Definition rank (p : PC) : nat :=
  match p with
  | Idle | Finished => 0
  | Stop_close | GetCode_recv => 1
  | Mon_select tick => if tick then 12 else 1
  | Defer_unlock _ _ => 2
  | Fill_busy_unlock _ => 2
  | Defer_clear _ _ => 3
  | Defer_lock _ _ => 4
  | Fill_select _ => 5
  | Fill_for _ => 6
  | Fill_send _ _ | Fill_err _ => 7
  | Fill_got _ _ => 8
  | Gen_probe _ i _ => 9 + 2 * (MaxAttempts - i)
  | Gen_for _ i => 10 + 2 * (MaxAttempts - i)
  | Fill_unlock _ => 7
  | Fill_set _ => 8
  | Fill_check _ => 9
  | Fill_lock _ => 10
  | Mon_tick => 11
  end.

End Pipeline.

Import Pipeline.

(* ------------------------------------------------------------------ *)
(** ** What every execution maintains *)

(** What holds of the generator in every world an execution reaches. *)
Record Inv (w : World) : Prop := mkInv {
  inv_open : closed (codeChan (gen w)) = false;
  inv_cap : cap (codeChan (gen w)) = ChannelBufferSize;
  inv_mu : forall t, holds_mu (pc_of w t) = true -> mu (gen w) = true;
  inv_mu1 : forall t1 t2,
      holds_mu (pc_of w t1) = true -> holds_mu (pc_of w t2) = true -> t1 = t2;
  inv_flag : forall t, in_pass (pc_of w t) = true -> isFilling (gen w) = true;
  inv_pass1 : forall t1 t2,
      in_pass (pc_of w t1) = true -> in_pass (pc_of w t2) = true -> t1 = t2;
  inv_set : forall t k, pc_of w t = Fill_set k -> isFilling (gen w) = false;
  inv_owner : isFilling (gen w) = true -> exists t, in_pass (pc_of w t) = true;
  inv_room : forall t,
      in_iteration (pc_of w t) = true -> len (codeChan (gen w)) < ChannelBufferSize;
  inv_probe : forall t k i c, pc_of w t = Gen_probe k i c -> i < MaxAttempts
}.


(** What holds of a world together with the history that led to it. *)
Record HInv (w : World) (h : History) : Prop := mkHInv {
  hinv_fifo : sends h = takes h ++ buf (codeChan (gen w));
  hinv_send : forall t k code, pc_of w t = Fill_send k code -> verified t code h;
  hinv_got : forall t k code,
      pc_of w t = Fill_got k code -> code <> EmptyString -> verified t code h;
  hinv_stop : stopped h = true -> closed (stopChan (gen w)) = true;
  hinv_count : enters h = leaves h + (if isFilling (gen w) then 1 else 0)
}.

(** Bookkeeping for the proof that a step keeps [Inv]: the invariant is
    instantiated at every goroutine in sight, once. *)
Inductive Seen (x : nat) : Prop := mkSeen.
Inductive SeenPair (x y : nat) : Prop := mkSeenPair.


(** Inside a call of [generateUniqueCode], or holding its result. *)
Definition mid_attempt (p : PC) : bool :=
  match p with
  | Gen_for _ _ | Gen_probe _ _ _ | Fill_got _ _ | Fill_send _ _ => true
  | _ => false
  end.

(** The events after the first stop. *)
Fixpoint after_stop (h : History) : History :=
  match h with
  | [] => []
  | x :: h' => if is_stop (snd x) then h' else after_stop h'
  end.

(** Once stopped, at most one more code is pushed, by the attempt that
    was under way. *)
Definition StopInv (w : World) (h : History) : Prop :=
  stopped h = true ->
  List.length (sends (after_stop h)) <= 1 /\
  (List.length (sends (after_stop h)) = 1 -> forall t, mid_attempt (pc_of w t) = false).

(** Where [fillChannel] goes on when [generateUniqueCode] has returned
    [r]. *)
Definition after_generate (k : Caller) (r : Result (string * option Error)) : PC :=
  match r with
  | Ret (code, None) => Fill_got k code
  | Ret (_, Some _) => Fill_err k
  | Panic => Defer_lock k true
  end.

(** The probe events goroutine [t] leaves for the candidates [probed]
    while the store is [d]. *)
Definition probe_events (t : tid) (d : DB) (probed : list string) : History :=
  map (fun c => (d, EvProbe t c (isCodeExist d c))) probed.

(* ------------------------------------------------------------------ *)
(** ** Sample executions *)

Module Scenario.

Definition empty_db : DB := mkDB [] 1 None.

(** A store holding one link under the code "aaaaaaa". *)
Definition one_link_db : DB :=
  mkDB [mkShortLink 1 "aaaaaaa" "https://example.org/a" 0 true 100 100] 2 None.

Definition db_down : DB := mkDB [] 1 (Some "dial tcp: connection refused"%string).

(** An entropy source whose reads all return 0: every candidate is
    "aaaaaaa". *)
Definition zeros (n : nat) : Reader := repeat (Drawn 0) n.

(** [Start()], with [fillChannel] as goroutine 0 and the monitor as
    goroutine 1; goroutine 0 then runs alone for [n] statements. *)
Definition start_and_fill (n : nat) : list Action :=
  Start 0 1 :: repeat (Run 0 false) n.

(** Two callers of [GetCode], goroutines 2 and 3. *)
Definition take_twice : list Action :=
  [Call 2 ApiGetCode; Run 2 false; Call 3 ApiGetCode; Run 3 false].

(** [Stop()] called by goroutine 2. *)
Definition stop_once : list Action := [Call 2 ApiStop; Run 2 false].

Definition after (d : DB) (rd : Reader) (acts : list Action) : World * History :=
  match run (boot d rd) [] acts with
  | Some x => x
  | None => (boot d rd, [])
  end.

(** Goroutine 0 has pushed two codes (16 statements). *)
Definition pushed_twice : World * History :=
  Eval vm_compute in after empty_db (zeros 14) (start_and_fill 16).

(** ... and two callers have taken them. *)
Definition taken_twice : World * History :=
  Eval vm_compute in after empty_db (zeros 14) (start_and_fill 16 ++ take_twice).

(** ... or [Start()] has been called once more, with goroutines 4
    and 5, while goroutine 0 is still in its pass. *)
Definition second_trigger : World * History :=
  Eval vm_compute in after empty_db (zeros 14) (start_and_fill 16 ++ [Start 4 5]).

(** [Stop()] arrives while goroutine 0 is inside its first attempt
    (6 statements in). *)
Definition stopped_in_attempt : World * History :=
  Eval vm_compute in after empty_db (zeros 14) (start_and_fill 6 ++ stop_once).

(** ... then a caller of [GetCode] arrives as goroutine 3. *)
Definition taker_after_stop : World * History :=
  Eval vm_compute in
    after empty_db (zeros 14) (start_and_fill 6 ++ stop_once ++ [Call 3 ApiGetCode]).

(** ... or goroutine 2 calls [Stop()] a second time. *)
Definition second_stop : World * History :=
  Eval vm_compute in
    after empty_db (zeros 14) (start_and_fill 6 ++ stop_once ++ [Call 2 ApiStop]).

(** The store is down and goroutine 0 has just begun its first attempt
    (6 statements in). *)
Definition attempt_begun : World * History :=
  Eval vm_compute in after db_down (zeros 70) (start_and_fill 6).


End Scenario.

(* ------------------------------------------------------------------ *)
(** * The code around the pipeline

    The rest of the development follows the generator into the code
    that uses it:

    - more that every execution of the generator maintains, and the
      refill loop and the monitor running alone;
    - [Handler]    : the short-link handlers over the table, redis and
                     the generator's buffer;
    - [Middleware] : [AuthMiddleware], [AdminMiddleware] and
                     [shouldSkipAuth];
    - [RateLimit]  : the requests passing the rate limiter's mutex;
    - [Scenario2]  : further sample executions. *)

(* ------------------------------------------------------------------ *)
(** ** More that every execution maintains *)

(** A code as [generateRandomString] makes it: seven characters of the
    alphabet. *)
Definition wf_code (c : string) : Prop :=
  String.length c = 7 /\ Forall (fun a => In a alphabet) (list_ascii_of_string c).

(** The buffer within its capacity, [stopChan] without values, and
    well-formed codes wherever the pass holds one. *)
Record GenInv (w : World) : Prop := mkGenInv {
  ginv_len : len (codeChan (gen w)) <= ChannelBufferSize;
  ginv_stop_empty : buf (stopChan (gen w)) = [];
  ginv_buf : Forall wf_code (buf (codeChan (gen w)));
  ginv_probe : forall t k i c, pc_of w t = Gen_probe k i c -> wf_code c;
  ginv_got : forall t k c, pc_of w t = Fill_got k c -> c = EmptyString \/ wf_code c;
  ginv_send : forall t k c, pc_of w t = Fill_send k c -> wf_code c
}.

(** Of the history: only well-formed codes were pushed, and [stopChan]
    is closed only after a stop. *)
Record HInv2 (w : World) (h : History) : Prop := mkHInv2 {
  hinv2_sends : Forall wf_code (sends h);
  hinv2_stop : closed (stopChan (gen w)) = true -> stopped h = true
}.


(* ------------------------------------------------------------------ *)
(** ** A generator that was never started *)

Definition is_start (a : Action) : bool :=
  match a with Start _ _ => true | _ => false end.

(** Statements outside [fillChannel] and [monitorAndRefill]. *)
Definition outside (p : PC) : bool :=
  match p with Idle | Finished | Stop_close | GetCode_recv => true | _ => false end.

Definition quiet (e : Event) : bool :=
  match e with EvStop _ | EvPanic _ => true | _ => false end.

Record Unstarted (w : World) : Prop := mkUnstarted {
  un_pc : forall t, outside (pc_of w t) = true;
  un_buf : buf (codeChan (gen w)) = [];
  un_open : closed (codeChan (gen w)) = false
}.

(* ------------------------------------------------------------------ *)
(** ** The refill loop running alone *)

(** What one iteration of the loop in [fillChannel] sends, given the
    result of its call of [generateUniqueCode]. *)
Definition pushed (r : Result (string * option Error)) : list string :=
  match r with
  | Ret (code, None) => if String.eqb code EmptyString then [] else [code]
  | _ => []
  end.

(** The next [n] strings [generateRandomString] makes from [rd], up to
    the first error. *)
Fixpoint candidates (n : nat) (rd : Reader) : list string :=
  match n with
  | O => []
  | S n' =>
      match generateRandomString CodeLength rd with
      | (Ret (code, None), rd') => code :: candidates n' rd'
      | _ => []
      end
  end.

(** The source after these calls. *)
Fixpoint spent (n : nat) (rd : Reader) : Reader :=
  match n with
  | O => rd
  | S n' =>
      match generateRandomString CodeLength rd with
      | (Ret (_, None), rd') => spent n' rd'
      | (_, rd') => rd'
      end
  end.

(* ------------------------------------------------------------------ *)
(** ** Package handler: the short-link handlers *)

Module Handler.

Local Open Scope string_scope.

(** *** redis, as the handlers use it *)

(** A [*redis.Client]: the keys with their values and expiry times (in
    seconds), and whether a command reaches the server before its
    context's deadline. *)
Record Redis : Type := mkRedis {
  entries : list (string * (string * Z));
  reachable : bool
}.

Definition is_key (key : string) (e : string * (string * Z)) : bool :=
  String.eqb (fst e) key.

Definition without (key : string) (l : list (string * (string * Z)))
  : list (string * (string * Z)) :=
  filter (fun e => negb (is_key key e)) l.

(** [Get(ctx, key).Result()]: the value, or [None] for an error
    ([redis.Nil] on a missing or expired key, or the command failing).
    The handlers only test [err == nil]. *)
Definition Redis_Get (r : Redis) (key : string) (now : Z) : option string :=
  if reachable r then
    match find (is_key key) (entries r) with
    | Some (_, (v, expires)) => if (now <? expires)%Z then Some v else None
    | None => None
    end
  else None.

(** [Set(ctx, key, value, ttl)]; the handlers drop its result. *)
Definition Redis_Set (r : Redis) (key value : string) (ttl now : Z) : Redis :=
  if reachable r
  then mkRedis ((key, (value, (now + ttl)%Z)) :: without key (entries r)) true
  else r.

(** [Del(ctx, key)]; the handlers drop its result. *)
Definition Redis_Del (r : Redis) (key : string) : Redis :=
  if reachable r then mkRedis (without key (entries r)) true else r.

(** [24*time.Hour], in seconds. *)
Definition day : Z := 86400.

Definition cache_key (code : string) : string := "shortlink:" ++ code.
Arguments cache_key : simpl never.

(** *** The handler and its replies *)

(** [ShortLinkHandler].  Its [db] is the [*gorm.DB] the generator was
    made with, at both places a handler is made ([main] and the test's
    [setupTest]): one store, held here by the generator. *)
Record ShortLinkHandler : Type := mkShortLinkHandler {
  redis : option Redis;
  codeGenerator : Generator
}.

Definition NewShortLinkHandler (redisClient : option Redis) (g : Generator)
  : ShortLinkHandler :=
  mkShortLinkHandler redisClient g.

Definition hdb (h : ShortLinkHandler) : DB := db (codeGenerator h).

Definition set_hdb (h : ShortLinkHandler) (d : DB) : ShortLinkHandler :=
  mkShortLinkHandler (redis h) (set_db (codeGenerator h) d).

(** What runs under [if h.redis != nil]. *)
Definition with_redis (h : ShortLinkHandler) (f : Redis -> Redis) : ShortLinkHandler :=
  match redis h with
  | Some r => mkShortLinkHandler (Some (f r)) (codeGenerator h)
  | None => h
  end.

(** The JSON bodies, without the texts of their messages. *)
Inductive Body : Type :=
| ErrorBody                                            (* gin.H{"error": ...} *)
| MessageBody                                          (* gin.H{"message": ...} *)
| ShortURL (short_url : string)                        (* CreateShortLinkResponse *)
| Stats (total_links total_clicks active_links : Z)
| Toggled (is_active : bool).                          (* gin.H{"message": ..., "is_active": ...} *)

Inductive Response : Type :=
| JSON (status : nat) (body : Body)
| Redirect (status : nat) (location : string).

Definition StatusOK : nat := 200.
Definition StatusCreated : nat := 201.
Definition StatusFound : nat := 302.
Definition StatusBadRequest : nat := 400.
Definition StatusNotFound : nat := 404.
Definition StatusInternalServerError : nat := 500.

(** A handler's reply: the response written, the handler's state
    afterwards, and the codes for which it started
    [go h.incrementClickCount(code)]. *)
Record Reply : Type := mkReply {
  response : Response;
  state : ShortLinkHandler;
  spawned : list string
}.

(** *** Statements on the store *)

(** [db.Where("short_code = ? AND is_active = ?", code, true).First(&link)] *)
Definition First_active (d : DB) (code : string) : option ShortLink * option Error :=
  match fault d with
  | Some e => (None, Some e)
  | None =>
      match find (fun r => has_code code r && Bool.eqb (IsActive r) true) (short_links d) with
      | Some r => (Some r, None)
      | None => (None, Some ErrRecordNotFound)
      end
  end.

Definition MaxInt64 : Z := 9223372036854775807.

Definition click (now : Z) (r : ShortLink) : ShortLink :=
  mkShortLink (ID r) (ShortCode r) (OriginalURL r) (ClickCount r + 1) (IsActive r)
              (CreatedAt r) now.

(** [db.Model(&model.ShortLink{}).Where("short_code = ?", code)
       .Update("click_count", gorm.Expr("click_count + 1"))]:
    every row with the code gets its count raised and its [updated_at]
    set.  The sum is made by the database on the signed 64-bit column
    of [ClickCount int64]; out of range MySQL, the store of [main],
    fails the statement and changes nothing. *)
Definition Update_click_count (d : DB) (code : string) (now : Z) : DB * option Error :=
  match fault d with
  | Some e => (d, Some e)
  | None =>
      if existsb (fun r => has_code code r && (MaxInt64 <=? ClickCount r)%Z) (short_links d)
      then (d, Some "BIGINT value is out of range")
      else (mkDB (map (fun r => if has_code code r then click now r else r) (short_links d))
                 (next_id d) None, None)
  end.

(** [Count(&n)] over the whole table or its active rows, and
    [Select("COALESCE(SUM(click_count), 0)").Scan(&n)]; the caller's
    variable keeps its zero when the statement fails.  The database
    adds the counts up exactly; [Scan] into [TotalClicks int64] fails
    when the sum is not an int64, and [GetStats] drops that error
    too. *)
Definition Count_links (d : DB) (only_active : bool) : Z :=
  match fault d with
  | Some _ => 0%Z
  | None =>
      Z.of_nat (List.length
        (filter (fun r => if only_active then IsActive r else true) (short_links d)))
  end.

Definition sum_clicks (l : list ShortLink) : Z :=
  fold_right (fun r s => (ClickCount r + s)%Z) 0%Z l.

Definition MinInt64 : Z := -9223372036854775808.

Definition Scan_int64 (v : Z) : Z :=
  if ((MinInt64 <=? v) && (v <=? MaxInt64))%Z then v else 0%Z.

Definition Sum_click_count (d : DB) : Z :=
  match fault d with
  | Some _ => 0%Z
  | None => Scan_int64 (sum_clicks (short_links d))
  end.

(** *** The handlers *)

(** [CreateShortLink].  [bind] is what [c.ShouldBindJSON(&req)] gives:
    the URL of the request or an error; [host] is [c.Request.Host].
    The handler is parked while [GetCode] is. *)
Definition CreateShortLink (h : ShortLinkHandler) (bind : string + Error)
           (host : string) (now : Z) : ChanOp Reply :=
  match bind with
  | inr _ => Done (mkReply (JSON StatusBadRequest ErrorBody) h [])
  | inl url =>
      match GetCode (codeGenerator h) with
      | Blocked => Blocked
      | ChanPanic => ChanPanic
      | Done (shortCode, g) =>
          let h1 := mkShortLinkHandler (redis h) g in
          match Create (hdb h1) shortCode url now with
          | (_, Some _) =>
              Done (mkReply (JSON StatusInternalServerError ErrorBody) h1 [])
          | (d, None) =>
              let h2 := with_redis (set_hdb h1 d)
                          (fun r => Redis_Set r (cache_key shortCode) url day now) in
              Done (mkReply (JSON StatusCreated (ShortURL ("http://" ++ host ++ "/" ++ shortCode)))
                            h2 [])
          end
      end
  end.

(** The part of [RedirectToOriginal] after the cache. *)
Definition redirect_from_store (h : ShortLinkHandler) (code : string) (now : Z) : Reply :=
  match First_active (hdb h) code with
  | (Some link, None) =>
      mkReply (Redirect StatusFound (OriginalURL link))
              (with_redis h (fun r => Redis_Set r (cache_key code) (OriginalURL link) day now))
              [code]
  | _ => mkReply (JSON StatusNotFound ErrorBody) h []
  end.

(** [RedirectToOriginal] *)
Definition RedirectToOriginal (h : ShortLinkHandler) (code : string) (now : Z) : Reply :=
  match redis h with
  | Some r =>
      match Redis_Get r (cache_key code) now with
      | Some cachedURL => mkReply (Redirect StatusFound cachedURL) h [code]
      | None => redirect_from_store h code now
      end
  | None => redirect_from_store h code now
  end.

(** [incrementClickCount], run by the goroutine a redirect started;
    the statement's error is dropped. *)
Definition incrementClickCount (h : ShortLinkHandler) (code : string) (now : Z)
  : ShortLinkHandler :=
  set_hdb h (fst (Update_click_count (hdb h) code now)).

(** [GetStats]: three statements whose errors are dropped. *)
Definition GetStats (h : ShortLinkHandler) : Reply :=
  let TotalLinks := Count_links (hdb h) false in
  let TotalClicks := Sum_click_count (hdb h) in
  let ActiveLinks := Count_links (hdb h) true in
  mkReply (JSON StatusOK (Stats TotalLinks TotalClicks ActiveLinks)) h [].

(** [ToggleLink]: the statements of [Store.ToggleLink], then the
    cache. *)
Definition ToggleLink (h : ShortLinkHandler) (code : string) (now : Z) : Reply :=
  match First_short_code (hdb h) code with
  | (Some link, None) =>
      let newStatus := negb (IsActive link) in
      let h1 := set_hdb h (fst (Store.ToggleLink (hdb h) code now)) in
      mkReply (JSON StatusOK (Toggled newStatus))
              (with_redis h1 (fun r => Redis_Del r (cache_key code))) []
  | _ => mkReply (JSON StatusNotFound ErrorBody) h []
  end.

(** [DeleteLink]: the cache first, then the statement of
    [Store.DeleteLink]. *)
Definition DeleteLink (h : ShortLinkHandler) (code : string) : Reply :=
  let h1 := with_redis h (fun r => Redis_Del r (cache_key code)) in
  match Store.DeleteLink (hdb h1) code with
  | (_, Some _) => mkReply (JSON StatusInternalServerError ErrorBody) h1 []
  | (d, None) => mkReply (JSON StatusOK MessageBody) (set_hdb h1 d) []
  end.

(** *** The server, one request at a time *)

Inductive Request : Type :=
| POST_shorten (bind : string + Error) (host : string)
| GET_code (code : string)
| GET_stats
| PUT_link (code : string)
| DELETE_link (code : string).

Definition serve (h : ShortLinkHandler) (rq : Request) (now : Z) : ChanOp Reply :=
  match rq with
  | POST_shorten bind host => CreateShortLink h bind host now
  | GET_code code => Done (RedirectToOriginal h code now)
  | GET_stats => Done (GetStats h)
  | PUT_link code => Done (ToggleLink h code now)
  | DELETE_link code => Done (DeleteLink h code)
  end.

(** What happens to a handler's state: a request is served from
    beginning to end, a goroutine started by a redirect runs its
    [incrementClickCount], the generator pushes a code into the buffer,
    or the connection to the store goes down or comes back. *)
Inductive Op : Type :=
| Serve (rq : Request) (now : Z)
| Click (code : string) (now : Z)
| Push (code : string)
| StoreFault (e : option Error).

Definition perform (h : ShortLinkHandler) (o : Op) : option ShortLinkHandler :=
  match o with
  | Serve rq now =>
      match serve h rq now with
      | Done rep => Some (state rep)
      | _ => None
      end
  | Click code now => Some (incrementClickCount h code now)
  | Push code =>
      match send (codeChan (codeGenerator h)) code with
      | Done ch => Some (mkShortLinkHandler (redis h) (set_codeChan (codeGenerator h) ch))
      | _ => None
      end
  | StoreFault e =>
      Some (set_hdb h (mkDB (short_links (hdb h)) (next_id (hdb h)) e))
  end.

Fixpoint perform_all (h : ShortLinkHandler) (ops : list Op) : option ShortLinkHandler :=
  match ops with
  | [] => Some h
  | o :: ops' =>
      match perform h o with
      | Some h' => perform_all h' ops'
      | None => None
      end
  end.

(** *** What the table and the cache satisfy *)

(** The primary key and the unique index on [short_code]; ids come
    from the counter; counts start at 0 and only grow. *)
Record TableOK (d : DB) : Prop := mkTableOK {
  codes_unique : NoDup (map ShortCode (short_links d));
  ids_unique : NoDup (map ID (short_links d));
  ids_issued : Forall (fun r => (0 < ID r < next_id d)%Z) (short_links d);
  counter_positive : (0 < next_id d)%Z;
  clicks_counted : Forall (fun r => (0 <= ClickCount r)%Z) (short_links d)
}.

(** The row behind a redirect of [code] to [url]. *)
Definition active_link (d : DB) (code url : string) : Prop :=
  exists r, In r (short_links d) /\ ShortCode r = code /\ IsActive r = true /\
            OriginalURL r = url.

(** Every cached entry is the URL of an active row. *)
Definition Coherent (h : ShortLinkHandler) : Prop :=
  match redis h with
  | None => True
  | Some r =>
      forall code k v expires,
        find (is_key (cache_key code)) (entries r) = Some (k, (v, expires)) ->
        active_link (hdb h) code v
  end.

(** The rows after the flag of the row with [code] was flipped at time
    [now]. *)
Definition flip_active (code : string) (now : Z) (r : ShortLink) : ShortLink :=
  if has_code code r
  then mkShortLink (ID r) (ShortCode r) (OriginalURL r) (ClickCount r) (negb (IsActive r))
                   (CreatedAt r) now
  else r.

(** The connection to redis goes down or comes back. *)
Definition redis_reach (h : ShortLinkHandler) (up : bool) : ShortLinkHandler :=
  with_redis h (fun r => mkRedis (entries r) up).

(** No redis, or one that answers. *)
Definition cache_up (h : ShortLinkHandler) : bool :=
  match redis h with
  | None => true
  | Some r => reachable r
  end.

(** Redis holds nothing under the key of [code], expired or not. *)
Definition uncached (h : ShortLinkHandler) (code : string) : bool :=
  match redis h with
  | None => true
  | Some r =>
      match find (is_key (cache_key code)) (entries r) with
      | Some _ => false
      | None => true
      end
  end.

End Handler.

(* ------------------------------------------------------------------ *)
(** ** Package middleware: authentication *)

Module Middleware.

Local Open Scope string_scope.

(** [strings.HasPrefix(s, p)] *)
Definition HasPrefix (s p : string) : bool := prefix p s.

(** [strings.Split(s, sep)] for a separator of one character, as at its
    only call: the pieces of [s] between the separators, a single piece
    when there is none. *)
Fixpoint Split (s : string) (sep : ascii) : list string :=
  match s with
  | EmptyString => [EmptyString]
  | String c s' =>
      if Ascii.eqb c sep then EmptyString :: Split s' sep
      else match Split s' sep with
           | p :: ps => String c p :: ps
           | [] => [String c EmptyString]
           end
  end.

(** What [ValidateToken] returns on success.  [Role] is the string
    [GenerateToken] was given, the [Role] of [model.User]. *)
Record Claims : Type := mkClaims {
  UserID : N;
  Username : string;
  Role : string
}.

(** The values the middlewares put into the context. *)
Inductive Value : Type :=
| VUint (n : N)
| VString (s : string).

(** [*gin.Context], as far as the middlewares read and write it:
    [c.Request.URL.Path], the [Authorization] header (empty when the
    request has none) and the keys of [c.Set] and [c.Get]. *)
Record Context : Type := mkContext {
  Path : string;
  Authorization : string;
  Keys : list (string * Value)
}.

Definition Set_key (c : Context) (key : string) (v : Value) : Context :=
  mkContext (Path c) (Authorization c)
            ((key, v) :: filter (fun e => negb (String.eqb (fst e) key)) (Keys c)).

Definition Get_key (c : Context) (key : string) : option Value :=
  match find (fun e => String.eqb (fst e) key) (Keys c) with
  | Some e => Some (snd e)
  | None => None
  end.

(** A middleware ends in [c.Next()], which runs the rest of the chain,
    or in [c.JSON(status, ...)] and [c.Abort()]. *)
Inductive Outcome : Type :=
| Next (c : Context)
| Abort (status : nat).

Definition StatusUnauthorized : nat := 401.
Definition StatusForbidden : nat := 403.

Definition skipPaths : list string :=
  ["/"; "/admin"; "/health"; "/api/v1/auth/login"; "/api/v1/auth/register"; "/api/v1/:code"].

(** The loop of [shouldSkipAuth]. *)
Fixpoint skip_loop (path : string) (l : list string) : bool :=
  match l with
  | [] => false
  | skipPath :: l' =>
      if String.eqb path skipPath || HasPrefix path "/static/" then true
      else skip_loop path l'
  end.

Definition shouldSkipAuth (path : string) : bool := skip_loop path skipPaths.

(** [AuthMiddleware(jwtManager)]; [ValidateToken] is the method of the
    token manager given to it. *)
Definition AuthMiddleware (ValidateToken : string -> Claims + Error) (c : Context) : Outcome :=
  if shouldSkipAuth (Path c) then Next c
  else
    let authHeader := Authorization c in
    if String.eqb authHeader "" then Abort StatusUnauthorized
    else
      match Split authHeader " "%char with
      | [p0; tokenString] =>
          if negb (String.eqb p0 "Bearer") then Abort StatusUnauthorized
          else
            match ValidateToken tokenString with
            | inr _ => Abort StatusUnauthorized
            | inl claims =>
                Next (Set_key (Set_key (Set_key c "user_id" (VUint (UserID claims)))
                                       "username" (VString (Username claims)))
                              "role" (VString (Role claims)))
            end
      | _ => Abort StatusUnauthorized
      end.

(** [AdminMiddleware()]: [role != "admin"] compares an interface value
    with a string. *)
Definition AdminMiddleware (c : Context) : Outcome :=
  match Get_key c "role" with
  | Some (VString role) => if String.eqb role "admin" then Next c else Abort StatusForbidden
  | _ => Abort StatusForbidden
  end.

(** The chains of [registerRoutes]: the group [/api] uses the first
    middleware, its admin group both. *)
Definition api_chain (ValidateToken : string -> Claims + Error) (c : Context) : Outcome :=
  AuthMiddleware ValidateToken c.

Definition admin_chain (ValidateToken : string -> Claims + Error) (c : Context) : Outcome :=
  match AuthMiddleware ValidateToken c with
  | Next c' => AdminMiddleware c'
  | Abort status => Abort status
  end.

(** No character of [s] is a space. *)
Definition spaceless (s : string) : Prop :=
  Forall (fun a => a <> " "%char) (list_ascii_of_string s).

End Middleware.

(* ------------------------------------------------------------------ *)
(** ** Package middleware: the rate limiter *)

Module RateLimit.

Local Open Scope string_scope.

(** [config.Limit], as far as the middleware reads it after the
    limiter is made. *)
Record Limit : Type := mkLimit {
  Enabled : bool;
  SkipPaths : list string
}.

(** [*rate.Limiter]: the answers [Allow()] will give, in order; none
    left, it refuses. *)
Definition Limiter := list bool.

Definition Allow (l : Limiter) : bool * Limiter :=
  match l with
  | [] => (false, [])
  | b :: l' => (b, l')
  end.

(** The statement the goroutine of a request executes next. *)
Inductive PC : Type :=
| Idle                       (* no request yet *)
| Arrive (path : string)     (* the loop over limitConfig.SkipPaths *)
| Lock                       (* mu.Lock(); defer mu.Unlock() *)
| Ask                        (* if !limiter.Allow() *)
| Handlers (locked : bool)   (* c.Next(): the rest of the chain runs *)
| Unlock (status : nat)      (* the deferred mu.Unlock() *)
| Returned (status : nat)
| Fatal.                     (* fatal error: sync: unlock of unlocked mutex *)

Definition StatusTooManyRequests : nat := 429.

(** The status the rest of the chain leaves; which one is of no
    concern here. *)
Definition served : nat := 200.

(** The middleware's closure and the requests in flight. *)
Record World : Type := mkWorld {
  limitConfig : Limit;
  limiter : Limiter;
  mu : Mutex;
  requests : list PC
}.

Definition RateLimit (limitConfig : Limit) (answers : Limiter) : World :=
  mkWorld limitConfig answers false [].

Definition pc_of (w : World) (t : nat) : PC := nth t (requests w) Idle.

Fixpoint set_nth (l : list PC) (t : nat) (p : PC) : list PC :=
  match t, l with
  | O, [] => [p]
  | O, _ :: l' => p :: l'
  | S t', [] => Idle :: set_nth [] t' p
  | S t', x :: l' => x :: set_nth l' t' p
  end.

Definition goto (w : World) (t : nat) (p : PC) : World :=
  mkWorld (limitConfig w) (limiter w) (mu w) (set_nth (requests w) t p).

Definition set_mu (w : World) (m : Mutex) : World :=
  mkWorld (limitConfig w) (limiter w) m (requests w).

Definition set_limiter (w : World) (l : Limiter) : World :=
  mkWorld (limitConfig w) l (mu w) (requests w).

Inductive Action : Type :=
| Request (t : nat) (path : string)   (* gin starts goroutine t on a request *)
| Run (t : nat).                      (* goroutine t executes its statement *)

(** One statement of the handler [RateLimit] returned.  A panic of the
    rest of the chain unwinds through the deferred unlock like a
    return. *)
Definition step (w : World) (a : Action) : option World :=
  match a with
  | Request t path =>
      match pc_of w t with
      | Idle => Some (goto w t (Arrive path))
      | _ => None
      end
  | Run t =>
      match pc_of w t with
      | Arrive path =>
          if negb (Enabled (limitConfig w)) then Some (goto w t (Handlers false))
          else if existsb (fun p => prefix p path) (SkipPaths (limitConfig w))
               then Some (goto w t (Handlers false))
               else Some (goto w t Lock)
      | Lock =>
          match lock (mu w) with
          | Some m => Some (goto (set_mu w m) t Ask)
          | None => None
          end
      | Ask =>
          let (ok, l) := Allow (limiter w) in
          if negb ok then Some (goto (set_limiter w l) t (Unlock StatusTooManyRequests))
          else Some (goto (set_limiter w l) t (Handlers true))
      | Handlers locked =>
          if locked then Some (goto w t (Unlock served))
          else Some (goto w t (Returned served))
      | Unlock status =>
          match unlock (mu w) with
          | Ret m => Some (goto (set_mu w m) t (Returned status))
          | Panic => Some (goto w t Fatal)
          end
      | _ => None
      end
  end.

Inductive Reach (cfg : Limit) : World -> Prop :=
| Reach_start (answers : Limiter) : Reach cfg (RateLimit cfg answers)
| Reach_step (w : World) (a : Action) (w' : World) :
    Reach cfg w -> step w a = Some w' -> Reach cfg w'.

(** Between [mu.Lock()] and the deferred [mu.Unlock()]. *)
Definition holds (p : PC) : bool :=
  match p with
  | Ask | Handlers true | Unlock _ => true
  | _ => false
  end.

(** Waiting for the mutex, or past [mu.Lock()]. *)
Definition limited (p : PC) : bool :=
  match p with
  | Lock | Ask | Handlers true | Unlock _ | Fatal => true
  | _ => false
  end.

Fixpoint run (w : World) (acts : list Action) : option World :=
  match acts with
  | [] => Some w
  | a :: acts' =>
      match step w a with
      | Some w' => run w' acts'
      | None => None
      end
  end.

(** The mutex is held by exactly the one request between its lock and
    its unlock, if any; nobody unlocks an unlocked mutex; with limiting
    switched off nobody comes near the mutex. *)
Record Inv (cfg : Limit) (w : World) : Prop := mkInv {
  inv_locked : forall t, holds (pc_of w t) = true -> mu w = true;
  inv_holder : mu w = true -> exists t, holds (pc_of w t) = true;
  inv_one : forall t1 t2, holds (pc_of w t1) = true -> holds (pc_of w t2) = true -> t1 = t2;
  inv_cfg : limitConfig w = cfg;
  inv_fatal : forall t, pc_of w t <> Fatal;
  inv_off : Enabled cfg = false -> forall t, limited (pc_of w t) = false
}.

End RateLimit.

(* ------------------------------------------------------------------ *)
(** ** More sample executions *)

Module Scenario2.

Import Scenario.

Local Open Scope string_scope.

(** [Stop()] inside the first attempt of goroutine 0; the monitor,
    goroutine 1, then takes the stop case of its select. *)
Definition monitor_ended : World * History :=
  Eval vm_compute in
    after empty_db (zeros 14) (start_and_fill 6 ++ stop_once ++ [Run 1 false]).

(** [Start()]; goroutine 0 has taken the flag and stands at the head of
    the loop (4 statements). *)
Definition pass_begun : World * History :=
  Eval vm_compute in after empty_db (zeros 14) (start_and_fill 4).

(** An entropy source for [n] codes "bbbbbbb", each from eight reads:
    the byte 62 is passed over. *)
Definition eights (n : nat) : Reader :=
  List.concat (repeat (Drawn 62 :: repeat (Drawn 1) 7) n).

(** The same with entropy for a thousand codes. *)
Definition fill_begun : World * History :=
  after empty_db (eights ChannelBufferSize) (start_and_fill 4).

(** [Start()], then the monitor's ticker fires before goroutine 0 has
    run. *)
Definition ticked : World * History :=
  after empty_db (eights ChannelBufferSize) [Start 0 1; Tick 1].

(** Nobody called [Start()]: goroutine 0 calls [GetCode()], goroutine 1
    calls [Stop()]. *)
Definition never_started : list Action :=
  [Call 0 ApiGetCode; Call 1 ApiStop; Run 1 false].

(** A handler over an empty table, an empty cache and an unstarted
    generator. *)
Definition fresh_server : Handler.ShortLinkHandler :=
  Handler.NewShortLinkHandler (Some (Handler.mkRedis [] true)) (NewGenerator empty_db).

(** The same without redis, as the integration test sets it up. *)
Definition test_server : Handler.ShortLinkHandler :=
  Handler.NewShortLinkHandler None (NewGenerator empty_db).

(** The generator pushes a code; a link is created with it. *)
Definition create_one : list Handler.Op :=
  [Handler.Push "aaaaaaa";
   Handler.Serve (Handler.POST_shorten (inl "https://example.org/a") "localhost:8080") 100].

Definition one_created : Handler.ShortLinkHandler :=
  Eval vm_compute in
    match Handler.perform_all fresh_server create_one with
    | Some h => h
    | None => fresh_server
    end.

(** The test's handler once a code is in the buffer, and its reply to
    the test's POST. *)
Definition test_ready : Handler.ShortLinkHandler :=
  Eval vm_compute in
    match Handler.perform test_server (Handler.Push "aaaaaaa") with
    | Some h => h
    | None => test_server
    end.

Definition test_reply : Handler.Reply :=
  Eval vm_compute in
    match Handler.CreateShortLink test_ready (inl "https://example.org/a")
                                  "localhost:8080" 100 with
    | Done rep => rep
    | _ => Handler.mkReply (Handler.JSON 0 Handler.ErrorBody) test_ready []
    end.

(** The same with a redis that answers. *)
Definition fresh_ready : Handler.ShortLinkHandler :=
  Eval vm_compute in
    match Handler.perform fresh_server (Handler.Push "aaaaaaa") with
    | Some h => h
    | None => fresh_server
    end.

Definition fresh_reply : Handler.Reply :=
  Eval vm_compute in
    match Handler.CreateShortLink fresh_ready (inl "https://example.org/a")
                                  "localhost:8080" 100 with
    | Done rep => rep
    | _ => Handler.mkReply (Handler.JSON 0 Handler.ErrorBody) fresh_ready []
    end.

(** After [one_created] redis goes down, the link is deleted and the
    generator, whose probe no longer finds the code, pushes it again:
    the entry of the deleted link is still under the key.  A second
    link is then created with the code. *)
Definition stale_ready : Handler.ShortLinkHandler :=
  Eval vm_compute in
    match Handler.perform_all (Handler.redis_reach one_created false)
            [Handler.Serve (Handler.DELETE_link "aaaaaaa") 200; Handler.Push "aaaaaaa"] with
    | Some h => h
    | None => fresh_server
    end.

Definition stale_reply : Handler.Reply :=
  Eval vm_compute in
    match Handler.CreateShortLink stale_ready (inl "https://example.org/b")
                                  "localhost:8080" 300 with
    | Done rep => rep
    | _ => Handler.mkReply (Handler.JSON 0 Handler.ErrorBody) stale_ready []
    end.



(** A token manager that accepts one token, of an administrator, and a
    request to an admin route that carries it. *)
Definition admin_token (tokenString : string) : Middleware.Claims + Error :=
  if String.eqb tokenString "t0k3n"
  then inl (Middleware.mkClaims 1 "root" "admin")
  else inr "token is invalid".

Definition admin_request : Middleware.Context :=
  Middleware.mkContext "/api/links/aaaaaaa" "Bearer t0k3n" [].

(** The limiter switched on, no path exempt: request 0 is in its
    handlers when request 1 arrives and comes to the mutex. *)
Definition limit_all : RateLimit.Limit := RateLimit.mkLimit true [].

Definition two_requests : list RateLimit.Action :=
  [RateLimit.Request 0 "/api/shorten"; RateLimit.Run 0; RateLimit.Run 0;
   RateLimit.Run 0; RateLimit.Request 1 "/aaaaaaa"; RateLimit.Run 1].

Definition second_request : RateLimit.World :=
  Eval vm_compute in
    match RateLimit.run (RateLimit.RateLimit limit_all [true; true]) two_requests with
    | Some w => w
    | None => RateLimit.RateLimit limit_all []
    end.

End Scenario2.

(* ------------------------------------------------------------------ *)
(** ** The alphabet and the random code generator *)

Section Alphabet.

Local Open Scope string_scope.

Lemma nodupb_sound (l : list ascii) : nodupb l = true -> NoDup l.
Proof.
  induction l as [|x l IH]; simpl; intro H; constructor.
  - apply andb_prop in H. destruct H as [H _].
    intro Hin. apply negb_true_iff in H.
    assert (existsb (Ascii.eqb x) l = true) as E.
    { apply existsb_exists. exists x. split; [exact Hin | apply Ascii.eqb_refl]. }
    congruence.
  - apply IH. apply andb_prop in H. tauto.
Qed.

Lemma Charset_length : String.length Charset = 62.
Proof. reflexivity. Qed.

Lemma alphabet_NoDup : NoDup alphabet.
Proof. apply nodupb_sound. vm_compute. reflexivity. Qed.

Lemma alnum_existsb (c : ascii) : alnum c = existsb (Ascii.eqb c) alphabet.
Proof.
  destruct c as [[] [] [] [] [] [] [] []]; vm_compute; reflexivity.
Qed.

Lemma alphabet_alnum (c : ascii) : In c alphabet <-> alnum c = true.
Proof.
  rewrite alnum_existsb, existsb_exists. split.
  - intro H. exists c. split; [exact H | apply Ascii.eqb_refl].
  - intros [x [Hx E]]. apply Ascii.eqb_eq in E. subst. exact Hx.
Qed.

Lemma get_In (s : string) (i : nat) (c : ascii) :
  String.get i s = Some c -> In c (list_ascii_of_string s).
Proof.
  revert i. induction s as [|a s IH]; intros i H; simpl in *.
  - discriminate.
  - destruct i as [|i].
    + left. congruence.
    + right. eapply IH; eauto.
Qed.

Lemma get_in_range (s : string) (i : nat) :
  i < String.length s -> exists c, String.get i s = Some c.
Proof.
  revert i. induction s as [|a s IH]; intros i H; simpl in *.
  - lia.
  - destruct i as [|i]; [eauto | apply IH; lia].
Qed.

End Alphabet.

Section RandomString.

Local Open Scope string_scope.

Lemma store_byte_length (b : list ascii) (i : nat) (c : ascii) :
  List.length (store_byte b i c) = List.length b.
Proof.
  revert i. induction b as [|x b IH]; intros [|i]; simpl; auto.
Qed.

Lemma store_byte_firstn (b : list ascii) (i : nat) (c : ascii) :
  i < List.length b ->
  firstn (S i) (store_byte b i c) = (firstn i b ++ [c])%list.
Proof.
  revert i. induction b as [|x b IH]; intros [|i] H; simpl in *; try lia.
  - reflexivity.
  - f_equal. apply IH. lia.
Qed.


Lemma index_of_byte_range (raw : N) (v : Z) :
  index_of_byte raw = Some v -> (0 <= v < 62)%Z.
Proof.
  unfold index_of_byte. destruct (Z.ltb_spec (Z.of_N raw mod 64) 62); [|discriminate].
  intro E. inversion E; subst.
  pose proof (Z.mod_pos_bound (Z.of_N raw) 64 ltac:(lia)). lia.
Qed.

(** The low six bits of a byte. *)
Lemma masked_byte (raw : N) :
  Z.land (byte_of raw) (Z.shiftl 1 6 - 1) = (Z.of_N raw mod 64)%Z.
Proof.
  unfold byte_of. change (Z.shiftl 1 6 - 1)%Z with (Z.ones 6).
  rewrite Z.land_ones by lia. change (2 ^ 6)%Z with 64%Z.
  change 256%Z with (64 * 4)%Z. rewrite Z.rem_mul_r by lia.
  rewrite (Z.mul_comm 64), Z.mod_add by lia. apply Z.mod_mod. lia.
Qed.

Lemma rand_Int_Charset (rd : Reader) :
  rand_Int rd (Z.of_nat (String.length Charset)) =
  match pick rd with
  | (inl v, rd') => (Ret (v, None), rd')
  | (inr e, rd') => (Ret (0%Z, Some e), rd')
  end.
Proof.
  change (rand_Int rd (Z.of_nat (String.length Charset))) with (Int_loop 1 6 62 [] rd).
  induction rd as [|[raw|e] rd IH]; cbn [Int_loop pick]; try reflexivity.
  cbn [app List.length Nat.ltb Nat.leb mask_first SetBytes fold_left].
  rewrite masked_byte. cbn [Z.mul Z.add]. unfold index_of_byte.
  destruct (Z.of_N raw mod 64 <? 62)%Z; [reflexivity | exact IH].
Qed.

Lemma pick_range (rd rd' : Reader) (v : Z) :
  pick rd = (inl v, rd') -> (0 <= v < 62)%Z.
Proof.
  induction rd as [|[raw|e] rd IH]; cbn [pick]; try discriminate.
  destruct (index_of_byte raw) as [v0|] eqn:E; [|exact IH].
  intro H. inversion H; subst. exact (index_of_byte_range _ E).
Qed.

(** Every number picked selects a character of the alphabet. *)
Lemma Charset_index (v : Z) :
  (0 <= v < 62)%Z ->
  String.get (Z.to_nat v) Charset = Some (char_at v) /\ In (char_at v) alphabet.
Proof.
  intro R. unfold char_at.
  destruct (get_in_range Charset (i := Z.to_nat v)) as [c Hc].
  - rewrite Charset_length. lia.
  - rewrite Hc. split; [reflexivity | eapply get_In; eauto].
Qed.

(** The loop fills the remaining slots with the characters of the next
    numbers, or stops at the failure met before. *)
Lemma fill_bytes_spec (n : nat) :
  forall (i : nat) (b : list ascii) (rd : Reader),
    i + n = List.length b ->
    match indices n rd with
    | (inl nums, rd') =>
        fill_bytes n i b rd = (Ret (inl (firstn i b ++ map char_at nums)%list), rd') /\
        List.length nums = n /\ Forall (fun v => (0 <= v < 62)%Z) nums
    | (inr e, rd') => fill_bytes n i b rd = (Ret (inr e), rd')
    end.
Proof.
  induction n as [|n IH]; intros i b rd Hlen.
  - cbn [indices fill_bytes map]. rewrite app_nil_r.
    replace i with (List.length b) by lia. now rewrite firstn_all.
  - cbn [indices fill_bytes]. rewrite rand_Int_Charset.
    destruct (pick rd) as [[v|e] rd1] eqn:P; [|reflexivity].
    pose proof (pick_range _ P) as R.
    destruct (Charset_index R) as [G _]. rewrite G.
    specialize (IH (S i) (store_byte b i (char_at v)) rd1).
    rewrite store_byte_length in IH. specialize (IH ltac:(lia)).
    destruct (indices n rd1) as [[l|e] rd2]; [|exact IH].
    destruct IH as [E [L F]]. rewrite E, store_byte_firstn by lia.
    rewrite <- app_assoc. cbn [map app List.length].
    split; [reflexivity|]. split; [now rewrite L | now constructor].
Qed.

Lemma length_string_of_list_ascii (l : list ascii) :
  String.length (string_of_list_ascii l) = List.length l.
Proof. induction l; simpl; congruence. Qed.

End RandomString.

(** [generateRandomString(CodeLength)] by the numbers of the source. *)
Lemma generateRandomString_spec (rd : Reader) :
  match indices 7 rd with
  | (inl nums, rd') =>
      generateRandomString CodeLength rd
      = (Ret (string_of_list_ascii (map char_at nums), None), rd') /\
      List.length nums = 7 /\ Forall (fun v => (0 <= v < 62)%Z) nums
  | (inr e, rd') =>
      generateRandomString CodeLength rd = (Ret (EmptyString, Some e), rd')
  end.
Proof.
  unfold generateRandomString. change (CodeLength <? 0)%Z with false. cbv iota.
  change (Z.to_nat CodeLength) with 7.
  pose proof (@fill_bytes_spec 7 0 (repeat zero 7) rd eq_refl) as H.
  change (List.length (repeat zero 7)) with 7 in *.
  destruct (indices 7 rd) as [[nums|e] rd'].
  - destruct H as [E [L F]]. rewrite E. cbn [firstn app]. auto.
  - now rewrite H.
Qed.

(** The characters of a code come from the alphabet. *)
Lemma chars_in_alphabet (nums : list Z) :
  Forall (fun v => (0 <= v < 62)%Z) nums ->
  Forall (fun c => In c alphabet) (map char_at nums).
Proof.
  intro F. apply Forall_map. eapply Forall_impl; [|exact F].
  intros v R. exact (proj2 (Charset_index R)).
Qed.

(** The two outcomes of a call, without the reader. *)
Lemma generateRandomString_cases (rd : Reader) :
  (exists s rd', generateRandomString CodeLength rd = (Ret (s, None), rd') /\
                 String.length s = 7) \/
  (exists e rd', generateRandomString CodeLength rd = (Ret (EmptyString, Some e), rd')).
Proof.
  pose proof (generateRandomString_spec rd) as H.
  destruct (indices 7 rd) as [[nums|e] rd'].
  - left. destruct H as [E [L _]]. exists (string_of_list_ascii (map char_at nums)), rd'.
    split; [exact E|]. now rewrite length_string_of_list_ascii, length_map.
  - right. eauto.
Qed.

Section Reads.

(** What [pick] has read. *)
Lemma pick_reads (rd : Reader) :
  match pick rd with
  | (inl v, rd') =>
      exists used, rd = (used ++ rd')%list /\ all_drawn used = true /\ numbers used = [v]
  | (inr e, rd') =>
      exists used, all_drawn used = true /\ numbers used = [] /\
                   (rd = (used ++ Failed e :: rd')%list \/
                    (rd = used /\ rd' = [] /\ e = ErrExhausted))
  end.
Proof.
  induction rd as [|[raw|e] rd IH]; cbn [pick].
  - exists []. repeat split; auto.
  - destruct (index_of_byte raw) as [v|] eqn:E.
    + exists [Drawn raw]. repeat split. unfold numbers. cbn. now rewrite E.
    + destruct (pick rd) as [[v|e] rd'].
      * destruct IH as [used [Hrd [Hd Hn]]]. exists (Drawn raw :: used).
        split; [cbn; now rewrite Hrd|]. split; [exact Hd|].
        unfold numbers in *. cbn. now rewrite E.
      * destruct IH as [used [Hd [Hn Hrd]]]. exists (Drawn raw :: used).
        split; [exact Hd|]. split; [unfold numbers in *; cbn; now rewrite E|].
        destruct Hrd as [Hrd|[Hrd [Hn' He]]]; [left | right]; cbn; subst; auto.
  - exists []. repeat split; auto.
Qed.

Lemma numbers_app (a b : Reader) : numbers (a ++ b) = (numbers a ++ numbers b)%list.
Proof. apply flat_map_app. Qed.

Lemma all_drawn_app (a b : Reader) : all_drawn (a ++ b) = all_drawn a && all_drawn b.
Proof. apply forallb_app. Qed.

(** What [indices] has read. *)
Lemma indices_reads (n : nat) : forall (rd : Reader),
  match indices n rd with
  | (inl nums, rd') =>
      exists used, rd = (used ++ rd')%list /\ all_drawn used = true /\
                   numbers used = nums /\ List.length nums = n
  | (inr e, rd') =>
      exists used, all_drawn used = true /\ List.length (numbers used) < n /\
                   (rd = (used ++ Failed e :: rd')%list \/
                    (rd = used /\ rd' = [] /\ e = ErrExhausted))
  end.
Proof.
  induction n as [|n IH]; intro rd; cbn [indices].
  - exists []. repeat split.
  - pose proof (pick_reads rd) as P. destruct (pick rd) as [[v|e] rd1].
    + destruct P as [u1 [Hrd [Hd Hn]]]. specialize (IH rd1).
      destruct (indices n rd1) as [[l|e] rd2].
      * destruct IH as [u2 [Hrd2 [Hd2 [Hn2 L]]]]. exists (u1 ++ u2)%list.
        rewrite all_drawn_app, numbers_app, Hd, Hd2, Hn, Hn2, <- app_assoc, <- Hrd2.
        repeat split; auto. cbn. now rewrite L.
      * destruct IH as [u2 [Hd2 [L Hrd2]]]. exists (u1 ++ u2)%list.
        rewrite all_drawn_app, numbers_app, Hd, Hd2, Hn. split; [reflexivity|].
        split; [cbn; lia|].
        destruct Hrd2 as [Hrd2|[Hrd2 [Hn' He]]]; [left | right]; subst.
        -- now rewrite <- app_assoc.
        -- auto.
    + destruct P as [used [Hd [Hn Hrd]]]. exists used.
      split; [exact Hd|]. split; [rewrite Hn; cbn; lia | exact Hrd].
Qed.

End Reads.



(* ------------------------------------------------------------------ *)
(** ** Goroutine bookkeeping *)

Section Goroutines.

Lemma nth_set_nth (l : list PC) (t t' : nat) (p : PC) :
  nth t' (set_nth l t p) Idle = if Nat.eqb t' t then p else nth t' l Idle.
Proof.
  revert l t'. induction t as [|t IH]; intros l t'.
  - destruct l, t' as [|[|t']]; reflexivity.
  - destruct l as [|x l], t' as [|t']; cbn [set_nth nth Nat.eqb]; try reflexivity.
    + rewrite IH. destruct (Nat.eqb t' t); [reflexivity | now destruct t'].
    + apply IH.
Qed.

Lemma pc_of_goto (w : World) (t t' : tid) (p : PC) :
  pc_of (goto w t p) t' = if Nat.eqb t' t then p else pc_of w t'.
Proof. apply nth_set_nth. Qed.

Lemma pc_of_set_gen (w : World) (g : Generator) (t : tid) :
  pc_of (set_gen w g) t = pc_of w t.
Proof. reflexivity. Qed.

Lemma pc_of_set_entropy (w : World) (rd : Reader) (t : tid) :
  pc_of (set_entropy w rd) t = pc_of w t.
Proof. reflexivity. Qed.

Lemma pc_of_crash (w : World) (t : tid) : pc_of (crash w) t = pc_of w t.
Proof. reflexivity. Qed.

Lemma pc_of_boot (d : DB) (rd : Reader) (t : tid) : pc_of (boot d rd) t = Idle.
Proof. unfold pc_of, boot. simpl. now destruct t. Qed.

End Goroutines.

(** Case analysis of one step: every way [step w a] can succeed. *)
Ltac break_match H :=
  match type of H with
  | context [match ?x with _ => _ end] =>
      lazymatch x with
      | context [match _ with _ => _ end] => fail
      | _ => destruct x eqn:?
      end
  | context [if ?x then _ else _] =>
      lazymatch x with
      | context [match _ with _ => _ end] => fail
      | _ => destruct x eqn:?
      end
  end.

(** Unfolds [step] down to the statement of the goroutine. *)
Tactic Notation "unfold_step" :=
  unfold step, run_goroutine, orelse, Stop_at, GetCode_at, monitorAndRefill,
    fillChannel, generateUniqueCode_at.
Tactic Notation "unfold_step" "in" hyp(H) :=
  unfold step, run_goroutine, orelse, Stop_at, GetCode_at, monitorAndRefill,
    fillChannel, generateUniqueCode_at in H.

(** Splits [H : step w a = Some (w', evs)] into one goal per statement and
    branch that can have produced it. *)
Ltac step_cases H :=
  unfold step, run_goroutine, orelse, Stop_at, GetCode_at, monitorAndRefill, fillChannel,
    generateUniqueCode_at, Stop, GetCode, send, recv, close, lock, unlock in H;
  repeat break_match H;
  try discriminate H;
  inversion H; subst; clear H.

(** Program counters after a step, by goroutine. *)
Ltac pcs :=
  repeat rewrite ?pc_of_goto, ?pc_of_set_gen, ?pc_of_set_entropy, ?pc_of_crash in *.

(** Is the goroutine looked at the one that moved? *)
Ltac split_tid :=
  repeat match goal with
    | H : context [Nat.eqb ?a ?b] |- _ => destruct (Nat.eqb_spec a b); try subst a
    | |- context [Nat.eqb ?a ?b] => destruct (Nat.eqb_spec a b); try subst a
    end.

(* ------------------------------------------------------------------ *)
(** ** Invariants of the generator *)

Section Invariants.

Lemma Inv_boot (d : DB) (rd : Reader) : Inv (boot d rd).
Proof.
  constructor; intros; rewrite ?pc_of_boot in *; simpl in *;
    try reflexivity; try discriminate.
Qed.

End Invariants.

Section Regions.

Lemma in_iteration_in_pass (p : PC) : in_iteration p = true -> in_pass p = true.
Proof. destruct p; simpl; congruence. Qed.

Lemma body_caller_in_pass (p : PC) (k : Caller) :
  body_caller p = Some k -> in_pass p = true.
Proof. destruct p; simpl; congruence. Qed.

End Regions.

(** [Inv], instantiated at goroutine [x] ... *)
Ltac inst I x :=
  pose proof (inv_mu I x); pose proof (inv_flag I x); pose proof (inv_set I x);
  pose proof (inv_room I x); pose proof (inv_probe I x);
  match type of I with
  | Inv ?w =>
      pose proof (@in_iteration_in_pass (pc_of w x));
      pose proof (@body_caller_in_pass (pc_of w x))
  end.

(** ... at the pair [x], [y] ... *)
Ltac inst2 I x y := pose proof (inv_mu1 I x y); pose proof (inv_pass1 I x y).

(** ... and at every goroutine and pair of goroutines in the context. *)
Ltac inst_all I :=
  pose proof (inv_open I); pose proof (inv_cap I);
  repeat match goal with
    | x : tid |- _ =>
        lazymatch goal with
        | _ : Seen x |- _ => fail
        | _ => pose proof (@mkSeen x); inst I x
        end
    end;
  repeat match goal with
    | x : tid, y : tid |- _ =>
        lazymatch goal with
        | _ : SeenPair x y |- _ => fail
        | _ => pose proof (@mkSeenPair x y); inst2 I x y
        end
    end.

(** Uses the equations [pc_of w t = ...] of the case at hand. *)
Ltac known_pcs :=
  repeat match goal with
    | E : pc_of ?w ?t = _, H : context [pc_of ?w ?t] |- _ =>
        lazymatch type of H with
        | pc_of w t = _ => fail
        | _ => rewrite E in H
        end
    end.

(** Boolean comparisons and buffer lengths, readied for [lia]. *)
Ltac arith :=
  unfold len in *;
  repeat match goal with
    | H : (_ <? _) = true |- _ => apply Nat.ltb_lt in H
    | H : (_ <? _) = false |- _ => apply Nat.ltb_ge in H
    | E : buf ?c = _, H : context [buf ?c] |- _ =>
        lazymatch type of H with buf c = _ => fail | _ => rewrite E in H end
    end;
  simpl in *; rewrite ?length_app in *; simpl in *.

(** [ret k] and [entry f] by cases. *)
Ltac callers :=
  repeat match goal with
    | H : context [entry ?f] |- _ => is_var f; destruct f
    | H : context [ret ?k] |- _ => is_var k; destruct k
    | |- context [entry ?f] => is_var f; destruct f
    | |- context [ret ?k] => is_var k; destruct k
    end.

(** The invariants about one statement, at the goroutine that is there. *)
Ltac inst_here I :=
  repeat match goal with
    | E : pc_of ?w ?t = Fill_set _ |- _ =>
        lazymatch goal with
        | _ : isFilling (gen w) = false |- _ => fail
        | _ => pose proof (inv_set I t E)
        end
    | E : pc_of ?w ?t = Gen_probe _ ?i _ |- _ =>
        lazymatch goal with
        | _ : i < MaxAttempts |- _ => fail
        | _ => pose proof (inv_probe I t E)
        end
    end.

(** Closes a field of [Inv] after a step from the fields before it. *)
Ltac close_inv I :=
  solve [inst_here I; inst_all I; known_pcs; arith;
         intuition (try congruence; try lia; eauto)].

(** The goroutine inside the pass after a step: the one before, or the
    one that moved. *)
Ltac owner I :=
  try match goal with
    | H : isFilling (gen _) = true |- _ => destruct (inv_owner I H) as [?x ?Hx]
    end;
  match goal with
  | x : tid |- _ =>
      solve [exists x; pcs; split_tid; simpl in *; try reflexivity; try discriminate;
             close_inv I]
  end.

Section InvReach.

Lemma Inv_step (w : World) (a : Action) (w' : World) (evs : list Event) :
  Inv w -> step w a = Some (w', evs) -> Inv w'.
Proof.
  intros I H. step_cases H.
  all: constructor; simpl; intros; pcs; callers; split_tid; simpl in *; try discriminate.
  all: try solve [apply I].
  all: try match goal with |- exists _, _ => owner I end.
  all: close_inv I.
Qed.

Lemma Reach_Inv (w : World) (h : History) : Reach w h -> Inv w.
Proof.
  induction 1 as [d rd | w h a w' evs _ IH Hstep].
  - apply Inv_boot.
  - eapply Inv_step; eauto.
Qed.

End InvReach.

(* ------------------------------------------------------------------ *)
(** ** The uniqueness probe and the store *)

Section Probe.

Local Open Scope string_scope.

Lemma filter_length_pos {A} (f : A -> bool) (l : list A) :
  (0 < List.length (filter f l))%nat <-> exists x, In x l /\ f x = true.
Proof.
  split.
  - destruct (filter f l) as [|x l'] eqn:E; simpl; [lia|]. intros _.
    assert (In x (filter f l)) as Hin by (rewrite E; now left).
    apply filter_In in Hin. eauto.
  - intros [x Hx]. apply filter_In in Hx.
    destruct (filter f l); [contradiction | simpl; lia].
Qed.

(** With the connection up, the probe reports a code exactly when some
    row of the table carries it, whatever the row's other columns. *)
Lemma isCodeExist_iff (d : DB) (code : string) :
  fault d = None ->
  isCodeExist d code = true <-> exists r, In r (short_links d) /\ ShortCode r = code.
Proof.
  intro Hf. unfold isCodeExist, Count_short_code. rewrite Hf.
  rewrite Z.gtb_lt. change 0%Z with (Z.of_nat 0). rewrite <- Nat2Z.inj_lt.
  rewrite filter_length_pos. unfold has_code.
  split; intros [r [Hin E]]; exists r; split; auto.
  - now apply String.eqb_eq.
  - now apply String.eqb_eq.
Qed.

Lemma isCodeExist_fault (d : DB) (code : string) (e : Error) :
  fault d = Some e -> isCodeExist d code = true.
Proof. intro Hf. unfold isCodeExist, Count_short_code. now rewrite Hf. Qed.

Lemma Count_error_fault (d : DB) (code : string) (e : Error) :
  snd (Count_short_code d code) = Some e -> fault d = Some e.
Proof.
  unfold Count_short_code. destruct (fault d); simpl; congruence.
Qed.

(** A negative answer of the probe: the query succeeded and no row
    carries the code. *)
Lemma isCodeExist_false (d : DB) (code : string) :
  isCodeExist d code = false ->
  fault d = None /\ forall r, In r (short_links d) -> ShortCode r <> code.
Proof.
  intro H. destruct (fault d) as [e|] eqn:Hf.
  - rewrite (isCodeExist_fault d code Hf) in H. discriminate.
  - split; [reflexivity|]. intros r Hin E.
    assert (isCodeExist d code = true) as T by (apply isCodeExist_iff; eauto).
    congruence.
Qed.


Lemma filter_map_length {A} (f : A -> bool) (g : A -> A) (l : list A) :
  (forall x, f (g x) = f x) ->
  List.length (filter f (map g l)) = List.length (filter f l).
Proof.
  intro H. induction l as [|x l IH]; simpl; [reflexivity|].
  rewrite H. destruct (f x); simpl; congruence.
Qed.


(** [DeleteLink] removes the rows: the probe no longer finds the
    code. *)
Lemma isCodeExist_DeleteLink (d : DB) (code : string) :
  fault d = None -> isCodeExist (fst (DeleteLink d code)) code = false.
Proof.
  intro Hf. unfold DeleteLink. rewrite Hf. simpl.
  destruct (isCodeExist _ code) eqn:E; [|reflexivity].
  apply isCodeExist_iff in E; [|reflexivity].
  destruct E as [r [Hin Hr]]. simpl in Hin. apply filter_In in Hin.
  destruct Hin as [_ Hn]. unfold has_code in Hn. subst code.
  rewrite String.eqb_refl in Hn. discriminate.
Qed.

End Probe.

(* ------------------------------------------------------------------ *)
(** ** The functions on concrete inputs *)

Section Checks.

Import Scenario.

Local Open Scope string_scope.

Example generateRandomString_zeros :
  generateRandomString CodeLength (zeros 7) = (Ret ("aaaaaaa", None), []).
Proof. reflexivity. Qed.

(** Indices 1, 26, 52, 61, 0, 25 and 51 of Charset; the bytes 62 and
    255 are passed over, of the byte 64 the low six bits count. *)
Example generateRandomString_mixed :
  generateRandomString CodeLength
    [Drawn 1; Drawn 26; Drawn 62; Drawn 52; Drawn 61; Drawn 255; Drawn 64; Drawn 25; Drawn 51]
  = (Ret ("bA09azZ", None), []).
Proof. reflexivity. Qed.

(** A byte passed over costs one more read. *)
Example generateRandomString_eight_reads :
  generateRandomString CodeLength (Drawn 62 :: repeat (Drawn 1) 8)
  = (Ret ("bbbbbbb", None), [Drawn 1]).
Proof. reflexivity. Qed.

Example generateRandomString_failed :
  generateRandomString CodeLength [Drawn 1; Failed "EOF"; Drawn 3]
  = (Ret ("", Some "EOF"), [Drawn 3]).
Proof. reflexivity. Qed.

(** [rand.Int] for other bounds: no read for 1; two bytes for 1000,
    the first masked to two bits, 1023 dropped and 0x01F4 = 500
    returned. *)
Example rand_Int_bounds :
  rand_Int [Drawn 7] 1 = (Ret (0%Z, None), [Drawn 7]) /\
  rand_Int [Drawn 255; Drawn 255; Drawn 253; Drawn 244; Drawn 9] 1000
  = (Ret (500%Z, None), [Drawn 9]) /\
  rand_Int [Drawn 7] 0 = (Panic, [Drawn 7]).
Proof. repeat split. Qed.

(** Nine candidates collide with the stored link, the tenth is
    accepted. *)
Example generateUniqueCode_tenth :
  generateUniqueCode one_link_db (zeros 63 ++ repeat (Drawn 1) 7)%list
  = (Ret ("bbbbbbb", None), [], (repeat "aaaaaaa" 9 ++ ["bbbbbbb"])%list).
Proof. reflexivity. Qed.

(** Ten collisions: nothing is returned, and no error. *)
Example generateUniqueCode_exhausted :
  generateUniqueCode one_link_db (zeros 77)
  = (Ret ("", None), zeros 7, repeat "aaaaaaa" 10).
Proof. reflexivity. Qed.

Example generateUniqueCode_store_down :
  generateUniqueCode db_down (zeros 70) = (Ret ("", None), [], repeat "aaaaaaa" 10).
Proof. reflexivity. Qed.

Example ToggleLink_keeps_row :
  short_links (fst (ToggleLink one_link_db "aaaaaaa" 200))
  = [mkShortLink 1 "aaaaaaa" "https://example.org/a" 0 false 100 200].
Proof. reflexivity. Qed.

Example DeleteLink_removes_row :
  short_links (fst (DeleteLink one_link_db "aaaaaaa")) = [].
Proof. reflexivity. Qed.

Example Create_rejects_duplicate :
  Create one_link_db "aaaaaaa" "https://example.org/c" 300
  = (one_link_db, Some ErrDuplicate).
Proof. reflexivity. Qed.

End Checks.

(* ------------------------------------------------------------------ *)
(** ** generateUniqueCode *)

Section UniqueCode.

Local Open Scope string_scope.

Variable d : DB.

(** What [n] iterations of the loop do to the list of probed
    candidates, and what they return. *)
Lemma generateUniqueCode_loop_spec (n : nat) :
  forall (rd : Reader) (probed : list string),
  exists r rd' new,
    generateUniqueCode_loop n d rd probed = (r, rd', (probed ++ new)%list) /\
    List.length new <= n /\
    Forall (fun c => String.length c = 7) new /\
    match r with
    | Panic => False
    | Ret (code, None) =>
        (exists pre, new = (pre ++ [code])%list /\ Forall (fun c => isCodeExist d c = true) pre /\
                     isCodeExist d code = false) \/
        (code = "" /\ List.length new = n /\ Forall (fun c => isCodeExist d c = true) new)
    | Ret (code, Some _) => code = "" /\ List.length new < n /\ Forall (fun c => isCodeExist d c = true) new
    end.
Proof.
  induction n as [|n IH]; intros rd probed.
  - exists (Ret ("", None)), rd, []. simpl. rewrite app_nil_r.
    split; [reflexivity|]. split; [lia|]. split; [constructor|].
    right. auto.
  - cbn [generateUniqueCode_loop].
    destruct (generateRandomString_cases rd) as [[s [rd' [E L]]] | [e [rd' E]]];
      rewrite E.
    + destruct (isCodeExist d s) eqn:Ex; cbn [negb].
      * destruct (IH rd' (probed ++ [s])%list) as [r [rd'' [new [E' [Hn [H7 Hr]]]]]].
        exists r, rd'', (s :: new). rewrite E', <- app_assoc. simpl.
        repeat split; auto; [lia|].
        destruct r as [[code [err|]]|]; auto.
        -- destruct Hr as [Hc [Hl Hf]]. repeat split; auto. lia.
        -- destruct Hr as [[pre [Hp [Hf Hx]]] | [Hc [Hl Hf]]].
           ++ left. exists (s :: pre). subst new. repeat split; auto.
           ++ right. repeat split; auto.
      * exists (Ret (s, None)), rd', [s]. simpl. repeat split; auto; [lia|].
        left. exists []. repeat split; auto.
    + exists (Ret ("", Some e)), rd', []. rewrite app_nil_r. simpl.
      repeat split; auto; lia.
Qed.

End UniqueCode.

(* ------------------------------------------------------------------ *)
(** ** Histories *)

Section Histories.

Lemma sends_app (h h' : History) : sends (h ++ h') = sends h ++ sends h'.
Proof. apply flat_map_app. Qed.

Lemma takes_app (h h' : History) : takes (h ++ h') = takes h ++ takes h'.
Proof. apply flat_map_app. Qed.

Lemma stopped_app (h h' : History) : stopped (h ++ h') = stopped h || stopped h'.
Proof. apply existsb_app. Qed.

Lemma enters_app (h h' : History) : enters (h ++ h') = enters h + enters h'.
Proof. unfold enters. now rewrite filter_app, length_app. Qed.

Lemma leaves_app (h h' : History) : leaves (h ++ h') = leaves h + leaves h'.
Proof. unfold leaves. now rewrite filter_app, length_app. Qed.

Lemma last_event_snoc (t : tid) (h : History) (d : DB) (e : Event) :
  last_event t (h ++ [(d, e)]) =
  if Nat.eqb (event_tid e) t then Some (d, e) else last_event t h.
Proof. unfold last_event. rewrite rev_app_distr. reflexivity. Qed.

Lemma verified_snoc_other (t : tid) (code : string) (h : History) (d : DB) (e : Event) :
  event_tid e <> t -> verified t code h -> verified t code (h ++ [(d, e)]).
Proof.
  intros Hne [d0 [Hl Hx]]. exists d0. split; [|exact Hx].
  rewrite last_event_snoc. apply Nat.eqb_neq in Hne. now rewrite Hne.
Qed.

Lemma verified_probe (t : tid) (code : string) (h : History) (d : DB) :
  isCodeExist d code = false -> verified t code (h ++ [(d, EvProbe t code false)]).
Proof.
  intro Hx. exists d. split; [|exact Hx].
  rewrite last_event_snoc. simpl. now rewrite Nat.eqb_refl.
Qed.

(** Splitting a history that ends in a known event. *)
Lemma snoc_split {A} (l l1 l2 : list A) (x y : A) :
  l ++ [x] = l1 ++ y :: l2 ->
  (l2 = [] /\ l = l1 /\ x = y) \/ (exists l2', l2 = l2' ++ [x] /\ l = l1 ++ y :: l2').
Proof.
  intro E. induction l2 as [|z l2' _] using rev_ind.
  - left. apply app_inj_tail in E. tauto.
  - right. exists l2'.
    change (l1 ++ y :: l2' ++ [z]) with (l1 ++ (y :: l2') ++ [z]) in E.
    rewrite app_assoc in E. apply app_inj_tail in E. destruct E as [-> ->]. auto.
Qed.

(** A step leaves at most one event. *)
Lemma step_events (w : World) (a : Action) (w' : World) (evs : list Event) :
  step w a = Some (w', evs) -> evs = [] \/ exists e, evs = [e].
Proof. intro H. step_cases H; eauto. Qed.

(** Every event of a history was left by a step of the execution, from
    a world reached with the events before it. *)
Lemma Reach_event (w : World) (h : History) :
  Reach w h ->
  forall h1 d e h2, h = h1 ++ (d, e) :: h2 ->
    exists w1 a w2,
      Reach w1 h1 /\ step w1 a = Some (w2, [e]) /\ d = db (gen w1).
Proof.
  induction 1 as [d0 rd | w h a w' evs HR IH Hstep]; intros h1 d e h2 E.
  - destruct h1; discriminate.
  - destruct (step_events _ _ Hstep) as [-> | [e0 ->]].
    + simpl in E. rewrite app_nil_r in E. eauto.
    + simpl in E. apply snoc_split in E.
      destruct E as [[_ [-> E]] | [h2' [_ ->]]].
      * inversion E; subst. exists w, a, w'. auto.
      * eapply IH. reflexivity.
Qed.

(** An execution given as a list of actions is an execution. *)
Lemma run_Reach (acts : list Action) :
  forall w h w' h', Reach w h -> run w h acts = Some (w', h') -> Reach w' h'.
Proof.
  induction acts as [|a acts IH]; intros w h w' h' HR E; simpl in E.
  - inversion E; subst. exact HR.
  - destruct (step w a) as [[w1 evs]|] eqn:Hs; [|discriminate].
    eapply IH; [|exact E]. econstructor; eauto.
Qed.

End Histories.

(* ------------------------------------------------------------------ *)
(** ** Invariants of the history *)

(** Two names for the statement a goroutine is at. *)
Ltac same_pc :=
  repeat match goal with
    | H : Fill_send _ _ = Fill_send _ _ |- _ => inversion H; subst; clear H
    | H : Fill_got _ _ = Fill_got _ _ |- _ => inversion H; subst; clear H
    end.

(** [verified] after a step: by the probe just made, or as before. *)
Ltac hist_verified Hsend Hgot :=
  intros; pcs; callers; split_tid; simpl in *; try discriminate; same_pc;
  repeat match goal with
    | H : negb ?x = true |- _ => apply negb_true_iff in H; rewrite H in *
    end;
  first [ solve [eauto]
        | congruence
        | solve [apply verified_probe; assumption]
        | solve [eapply Hgot; [eassumption | apply String.eqb_neq; assumption]]
        | solve [apply verified_snoc_other; [simpl; congruence | eauto]] ].

(** The value of [isFilling] where the statement at hand fixes it. *)
Ltac flag_now I :=
  let F := fresh "F" in
  match goal with
  | E : pc_of ?w ?t = Fill_set _ |- _ =>
      pose proof (inv_set I t E) as F; rewrite ?F in *
  | E : pc_of ?w ?t = Defer_clear _ _ |- _ =>
      assert (isFilling (gen w) = true) as F
        by (apply (inv_flag I t); rewrite E; reflexivity);
      rewrite ?F in *
  | E : isFilling _ = _ |- _ => rewrite ?E in *
  | _ => idtac
  end.

Section HistoryInvariants.

Lemma enters_single (d : DB) (e : Event) :
  enters [(d, e)] = match e with EvEnter _ => 1 | _ => 0 end.
Proof. now destruct e. Qed.

Lemma leaves_single (d : DB) (e : Event) :
  leaves [(d, e)] = match e with EvLeave _ => 1 | _ => 0 end.
Proof. now destruct e. Qed.

Lemma HInv_boot (d : DB) (rd : Reader) : HInv (boot d rd) [].
Proof.
  constructor; simpl; intros; rewrite ?pc_of_boot in *; try discriminate; reflexivity.
Qed.

Lemma HInv_step (w : World) (h : History) (a : Action) (w' : World) (evs : list Event) :
  Inv w -> HInv w h -> step w a = Some (w', evs) -> HInv w' (h ++ stamp w evs).
Proof.
  intros I [Hfifo Hsend Hgot Hstop Hcount] H.
  step_cases H; unfold stamp; simpl map; rewrite ?app_nil_r.
  all: constructor;
    rewrite ?sends_app, ?takes_app, ?stopped_app, ?enters_app, ?leaves_app,
      ?enters_single, ?leaves_single;
    simpl; rewrite ?app_nil_r, ?orb_false_r, ?Nat.add_0_r; try assumption.
  all: try solve [hist_verified Hsend Hgot].
  all: try solve [pose proof (inv_open I); congruence].
  all: try solve [rewrite Hfifo; rewrite <- ?app_assoc; simpl; congruence].
  all: solve [flag_now I; lia].
Qed.

Lemma Reach_HInv (w : World) (h : History) : Reach w h -> HInv w h.
Proof.
  induction 1 as [d rd | w h a w' evs HR IH Hstep].
  - apply HInv_boot.
  - eapply HInv_step; eauto. eapply Reach_Inv; eauto.
Qed.

End HistoryInvariants.

(* ------------------------------------------------------------------ *)
(** ** Single steps *)

Section Steps.

Lemma closed_recv_ready {A} (ch : Chan A) : closed ch = true -> recv_ready ch = true.
Proof. unfold recv_ready. now destruct (buf ch). Qed.

(** Only the send statement of [fillChannel] leaves a send event. *)
Lemma step_send (w : World) (a : Action) (w' : World) (t : tid) (code : string) :
  step w a = Some (w', [EvSend t code]) -> exists k, pc_of w t = Fill_send k code.
Proof. intro H. step_cases H; eauto. Qed.

(** Only the receive of [GetCode] leaves a take event, with the oldest
    buffered code, or with the zero value on a closed channel. *)
Lemma step_take (w : World) (a : Action) (w' : World) (t : tid) (code : string) :
  step w a = Some (w', [EvTake t code]) ->
  (exists rest, buf (codeChan (gen w)) = code :: rest) \/
  closed (codeChan (gen w)) = true.
Proof. intro H. step_cases H; eauto. Qed.

(** A new candidate attempt starts only while [stopChan] is open. *)
Lemma step_attempt (w : World) (a : Action) (w' : World) (evs : list Event) (t : tid) :
  step w a = Some (w', evs) -> In (EvAttempt t) evs ->
  closed (stopChan (gen w)) = false.
Proof.
  intros H Hin. step_cases H; simpl in Hin; try tauto;
    destruct Hin as [E|[]]; try discriminate E.
  destruct (closed (stopChan (gen w))) eqn:Hc; [|reflexivity].
  rewrite (closed_recv_ready _ Hc) in *. discriminate.
Qed.

(** Nothing reopens [stopChan]. *)
Lemma step_stop_stays (w : World) (a : Action) (w' : World) (evs : list Event) :
  step w a = Some (w', evs) ->
  closed (stopChan (gen w)) = true -> closed (stopChan (gen w')) = true.
Proof. intros H Hc. step_cases H; simpl; auto. Qed.

(** Once [stopChan] is closed every statement brings its goroutine
    closer to leaving the generator. *)
Lemma step_rank (w : World) (t : tid) (b : bool) (w' : World) (evs : list Event) :
  Inv w -> closed (stopChan (gen w)) = true ->
  step w (Run t b) = Some (w', evs) ->
  rank (pc_of w' t) < rank (pc_of w t).
Proof.
  intros I Hc H. pose proof (closed_recv_ready _ Hc) as Hr.
  step_cases H; pcs; rewrite ?Nat.eqb_refl;
    repeat match goal with
      | E : pc_of _ _ = _ |- _ => rewrite E
      end;
    try congruence; callers; cbn [rank ret];
    try match goal with
      | E : pc_of _ _ = Gen_probe _ _ _ |- _ => pose proof (inv_probe I _ E)
      end;
    repeat match goal with
      | E : (_ <? _) = true |- _ => apply Nat.ltb_lt in E
      | E : (_ <? _) = false |- _ => apply Nat.ltb_ge in E
      end;
    unfold MaxAttempts in *; lia.
Qed.

(** The goroutine inside the pass is never parked at its send. *)
Lemma step_send_ready (w : World) (t : tid) (b : bool) (k : Caller) (code : string) :
  Inv w -> crashed w = false -> pc_of w t = Fill_send k code ->
  exists w', step w (Run t b) = Some (w', [EvSend t code]).
Proof.
  intros I Hc Hpc. unfold_step; unfold send. rewrite Hc, Hpc.
  rewrite (inv_open I), (inv_cap I).
  assert (len (codeChan (gen w)) < ChannelBufferSize) as Hl
      by (apply (inv_room I t); now rewrite Hpc).
  apply Nat.ltb_lt in Hl. rewrite Hl. eauto.
Qed.

End Steps.

(* ------------------------------------------------------------------ *)
(** ** The sample executions are executions *)

Section Samples.

Import Scenario.

Lemma after_Reach (d : DB) (rd : Reader) (acts : list Action) (x : World * History) :
  run (boot d rd) [] acts = Some x -> Reach (fst x) (snd x).
Proof.
  destruct x as [w h]. intro E.
  eapply run_Reach; [apply Reach_boot | exact E].
Qed.

Lemma pushed_twice_Reach : Reach (fst pushed_twice) (snd pushed_twice).
Proof.
  apply after_Reach with (d := empty_db) (rd := zeros 14) (acts := start_and_fill 16).
  vm_compute. reflexivity.
Qed.

Lemma taken_twice_Reach : Reach (fst taken_twice) (snd taken_twice).
Proof.
  apply after_Reach with (d := empty_db) (rd := zeros 14)
                         (acts := start_and_fill 16 ++ take_twice).
  vm_compute. reflexivity.
Qed.

Lemma second_trigger_Reach : Reach (fst second_trigger) (snd second_trigger).
Proof.
  apply after_Reach with (d := empty_db) (rd := zeros 14)
                         (acts := start_and_fill 16 ++ [Start 4 5]).
  vm_compute. reflexivity.
Qed.

Lemma stopped_in_attempt_Reach :
  Reach (fst stopped_in_attempt) (snd stopped_in_attempt).
Proof.
  apply after_Reach with (d := empty_db) (rd := zeros 14)
                         (acts := start_and_fill 6 ++ stop_once).
  vm_compute. reflexivity.
Qed.

Lemma taker_after_stop_Reach : Reach (fst taker_after_stop) (snd taker_after_stop).
Proof.
  apply after_Reach with (d := empty_db) (rd := zeros 14)
                         (acts := start_and_fill 6 ++ stop_once ++ [Call 3 ApiGetCode]).
  vm_compute. reflexivity.
Qed.

Lemma second_stop_Reach : Reach (fst second_stop) (snd second_stop).
Proof.
  apply after_Reach with (d := empty_db) (rd := zeros 14)
                         (acts := start_and_fill 6 ++ stop_once ++ [Call 2 ApiStop]).
  vm_compute. reflexivity.
Qed.

Lemma attempt_begun_Reach : Reach (fst attempt_begun) (snd attempt_begun).
Proof.
  apply after_Reach with (d := db_down) (rd := zeros 70) (acts := start_and_fill 6).
  vm_compute. reflexivity.
Qed.


Lemma in_sends (h : History) (code : string) :
  In code (sends h) -> exists h1 d t h2, h = h1 ++ (d, EvSend t code) :: h2.
Proof.
  unfold sends. rewrite in_flat_map. intros [[d e] [Hin Hc]].
  destruct e; simpl in Hc; try contradiction.
  destruct Hc as [-> | []].
  apply in_split in Hin. destruct Hin as [h1 [h2 ->]]. eauto.
Qed.

End Samples.

Section Finished.

(** A goroutine that has ended stays ended. *)
Lemma step_finished (w : World) (a : Action) (w' : World) (evs : list Event) (t : tid) :
  step w a = Some (w', evs) -> pc_of w t = Finished -> pc_of w' t = Finished.
Proof.
  intros H Hpc. step_cases H; pcs; split_tid; try congruence;
    repeat match goal with
      | E : pc_of _ _ = _, H : context [pc_of _ _] |- _ => rewrite E in H
      end;
    simpl in *; congruence.
Qed.

(** Only [GetCode] changes what [Stop] leaves in [codeChan], and [Stop]
    itself leaves the channel alone. *)
Lemma step_stop_codeChan (w : World) (t : tid) (b : bool) (w' : World) (evs : list Event) :
  pc_of w t = Stop_close -> step w (Run t b) = Some (w', evs) ->
  codeChan (gen w') = codeChan (gen w).
Proof.
  intros Hpc H. unfold_step in H. rewrite Hpc in H.
  destruct (crashed w); [discriminate|].
  unfold Stop in H. destruct (close (stopChan (gen w))); inversion H; reflexivity.
Qed.

End Finished.

(* ------------------------------------------------------------------ *)
(** ** generateUniqueCode, statement by statement *)

Section Solo.

Lemma generateUniqueCode_loop_acc (n : nat) :
  forall d rd acc,
    generateUniqueCode_loop n d rd acc =
    let '(r, rd', p) := generateUniqueCode_loop n d rd [] in (r, rd', acc ++ p).
Proof.
  induction n as [|n IH]; intros d rd acc; cbn [generateUniqueCode_loop].
  - now rewrite app_nil_r.
  - destruct (generateRandomString CodeLength rd) as [[[code [e|]]|] rd'].
    + now rewrite app_nil_r.
    + destruct (negb (isCodeExist d code)); [reflexivity|].
      rewrite (IH d rd' (acc ++ [code])), (IH d rd' ([] ++ [code])).
      destruct (generateUniqueCode_loop n d rd' []) as [[r rd''] p].
      now rewrite <- app_assoc.
    + now rewrite app_nil_r.
Qed.

Lemma step_Gen_for (w : World) (t : tid) (b : bool) (k : Caller) (i : nat) :
  crashed w = false -> pc_of w t = Gen_for k i -> i < MaxAttempts ->
  step w (Run t b) =
  match generateRandomString CodeLength (entropy w) with
  | (Panic, rd) => Some (goto (set_entropy w rd) t (Defer_lock k true), [EvPanic t])
  | (Ret (_, Some err), rd) => Some (goto (set_entropy w rd) t (Fill_err k), [])
  | (Ret (code, None), rd) => Some (goto (set_entropy w rd) t (Gen_probe k i code), [])
  end.
Proof.
  intros Hcr Hpc Hi. unfold_step. rewrite Hcr, Hpc.
  apply Nat.ltb_lt in Hi. now rewrite Hi.
Qed.

Lemma step_Gen_for_done (w : World) (t : tid) (b : bool) (k : Caller) (i : nat) :
  crashed w = false -> pc_of w t = Gen_for k i -> MaxAttempts <= i ->
  step w (Run t b) = Some (goto w t (Fill_got k EmptyString), []).
Proof.
  intros Hcr Hpc Hi. unfold_step. rewrite Hcr, Hpc.
  apply Nat.ltb_ge in Hi. now rewrite Hi.
Qed.

Lemma step_Gen_probe (w : World) (t : tid) (b : bool) (k : Caller) (i : nat) (code : string) :
  crashed w = false -> pc_of w t = Gen_probe k i code ->
  step w (Run t b) =
  Some (goto w t (if isCodeExist (db (gen w)) code then Gen_for k (S i) else Fill_got k code),
        [EvProbe t code (isCodeExist (db (gen w)) code)]).
Proof.
  intros Hcr Hpc. unfold_step. rewrite Hcr, Hpc.
  now destruct (isCodeExist (db (gen w)) code).
Qed.

Lemma solo_generateUniqueCode (n : nat) :
  forall (w : World) (h : History) (t : tid) (k : Caller) (i : nat),
    crashed w = false -> pc_of w t = Gen_for k i -> i + n = MaxAttempts ->
    exists m w' h',
      m <= 2 * n + 1 /\
      run w h (repeat (Run t false) m) = Some (w', h') /\
      gen w' = gen w /\ crashed w' = false /\
      (let '(r, rd', probed) := generateUniqueCode_loop n (db (gen w)) (entropy w) [] in
       pc_of w' t = after_generate k r /\ entropy w' = rd' /\
       h' = h ++ probe_events t (db (gen w)) probed).
Proof.
  induction n as [|n IH]; intros w h t k i Hcr Hpc Hi.
  - exists 1, (goto w t (Fill_got k EmptyString)), h.
    split; [lia|]. cbn [repeat run].
    rewrite (@step_Gen_for_done w t false k i Hcr Hpc) by lia.
    unfold stamp, probe_events. cbn [map generateUniqueCode_loop]. rewrite ?app_nil_r.
    rewrite pc_of_goto, Nat.eqb_refl. repeat split; auto.
  - cbn [generateUniqueCode_loop].
    pose proof (@step_Gen_for w t false k i Hcr Hpc ltac:(lia)) as Hs1.
    destruct (generateRandomString_cases (entropy w)) as [[s [rd' [E L]]] | [e [rd' E]]];
      rewrite E in *.
    + set (w1 := goto (set_entropy w rd') t (Gen_probe k i s)) in *.
      assert (pc_of w1 t = Gen_probe k i s) as Hpc1
          by (unfold w1; now rewrite pc_of_goto, Nat.eqb_refl).
      pose proof (@step_Gen_probe w1 t false k i s Hcr Hpc1) as Hs2.
      change (db (gen w1)) with (db (gen w)) in Hs2.
      destruct (isCodeExist (db (gen w)) s) eqn:Ex; cbn [negb].
      * destruct (IH (goto w1 t (Gen_for k (S i)))
                     (h ++ [(db (gen w), EvProbe t s true)]) t k (S i))
          as [m [w' [h' [Hm [Hrun [Hg [Hc' Hres]]]]]]];
          [exact Hcr | now rewrite pc_of_goto, Nat.eqb_refl | lia |].
        exists (S (S m)), w', h'. split; [lia|].
        cbn [repeat run]. rewrite Hs1. unfold stamp at 1. cbn [map]. rewrite app_nil_r.
        rewrite Hs2. unfold stamp at 1. cbn [map].
        change (db (gen w1)) with (db (gen w)).
        split; [exact Hrun|]. split; [exact Hg|]. split; [exact Hc'|].
        change (db (gen (goto w1 t (Gen_for k (S i))))) with (db (gen w)) in Hres.
        change (entropy (goto w1 t (Gen_for k (S i)))) with rd' in Hres.
        rewrite (generateUniqueCode_loop_acc n (db (gen w)) rd' ([] ++ [s])).
        destruct (generateUniqueCode_loop n (db (gen w)) rd' []) as [[r rd''] p].
        destruct Hres as [Hp [He Hh]]. split; [exact Hp|]. split; [exact He|].
        rewrite Hh. unfold probe_events. rewrite map_app. simpl. rewrite Ex.
        now rewrite <- app_assoc.
      * exists 2, (goto w1 t (Fill_got k s)), (h ++ [(db (gen w), EvProbe t s false)]).
        split; [lia|]. cbn [repeat run]. rewrite Hs1. unfold stamp at 1. cbn [map].
        rewrite app_nil_r. rewrite Hs2. unfold stamp. cbn [map].
        change (db (gen w1)) with (db (gen w)).
        split; [reflexivity|]. split; [reflexivity|]. split; [exact Hcr|].
        rewrite pc_of_goto, Nat.eqb_refl. unfold probe_events. simpl. rewrite Ex. auto.
    + exists 1, (goto (set_entropy w rd') t (Fill_err k)), h.
      split; [lia|]. cbn [repeat run]. rewrite Hs1. unfold stamp, probe_events. cbn [map].
      rewrite ?app_nil_r. split; [reflexivity|]. split; [reflexivity|]. split; [exact Hcr|].
      rewrite pc_of_goto, Nat.eqb_refl. auto.
Qed.

End Solo.

(* ------------------------------------------------------------------ *)
(** ** The ways out of the refill pass *)

(** The step of a goroutine whose statement is known. *)
Ltac at_pc Hcr :=
  unfold_step; cbn [crashed goto set_gen set_entropy gen entropy];
  rewrite ?pc_of_goto, ?pc_of_set_gen, ?Nat.eqb_refl, ?Hcr.

Section Exits.

(** A goroutine holding the mutex is never parked. *)
Lemma holder_runs (w : World) (t : tid) (b : bool) :
  crashed w = false -> holds_mu (pc_of w t) = true ->
  exists w' evs, step w (Run t b) = Some (w', evs).
Proof.
  intros Hcr Hh. unfold_step. rewrite Hcr.
  destruct (pc_of w t); try discriminate Hh;
    repeat match goal with
      | |- context [match ?x with _ => _ end] =>
          lazymatch x with
          | context [match _ with _ => _ end] => fail
          | _ => destruct x
          end
      end; eauto.
Qed.

(** With the mutex free the deferred function runs through: it clears
    the flag, releases the mutex, and the call returns (or, after a
    panic, the process ends). *)
Lemma deferred_clears (w : World) (t : tid) (b : bool) (k : Caller) (p : bool) :
  crashed w = false -> pc_of w t = Defer_lock k p -> mu (gen w) = false ->
  exists w1 w2 w3,
    step w (Run t b) = Some (w1, []) /\
    step w1 (Run t b) = Some (w2, [EvLeave t]) /\
    step w2 (Run t b) = Some (w3, []) /\
    isFilling (gen w3) = false /\ mu (gen w3) = false /\
    pc_of w3 t = (if p then Finished else ret k) /\ crashed w3 = p.
Proof.
  intros Hcr Hpc Hmu.
  destruct p; (eexists; eexists; eexists;
    (split; [unfold_step; rewrite Hcr, Hpc; unfold lock; rewrite Hmu; reflexivity|]);
    (split; [at_pc Hcr; reflexivity|]);
    (split; [at_pc Hcr; reflexivity|]));
    cbn; rewrite ?nth_set_nth, ?Nat.eqb_refl; auto.
Qed.

(** The three ways out of the loop of the pass all lead to the deferred
    function. *)
Lemma pass_exits (w : World) (t : tid) (b : bool) (k : Caller) :
  crashed w = false ->
  (pc_of w t = Fill_for k -> ChannelBufferSize <= len (codeChan (gen w)) ->
   step w (Run t b) = Some (goto w t (Defer_lock k false), [])) /\
  (pc_of w t = Fill_select k -> closed (stopChan (gen w)) = true ->
   step w (Run t b) = Some (goto w t (Defer_lock k false), [])) /\
  (body_caller (pc_of w t) = Some k ->
   step w (Fault t) = Some (goto w t (Defer_lock k true), [EvPanic t])).
Proof.
  intro Hcr. split; [|split].
  - intros Hpc Hl. unfold_step. rewrite Hcr, Hpc. apply Nat.ltb_ge in Hl. now rewrite Hl.
  - intros Hpc Hc. unfold_step. now rewrite Hcr, Hpc, (closed_recv_ready _ Hc).
  - intros Hb. unfold step. now rewrite Hcr, Hb.
Qed.

Lemma set_mu_back (g : Generator) :
  mu g = false -> set_mu (set_mu g true) false = g.
Proof. destruct g; simpl; intros ->; reflexivity. Qed.

(** A call of [fillChannel] that finds the flag set takes the mutex,
    sees the flag, releases the mutex and returns: the generator is as
    it was. *)
Lemma busy_returns (w : World) (t : tid) (b : bool) (k : Caller) :
  crashed w = false -> pc_of w t = Fill_lock k ->
  mu (gen w) = false -> isFilling (gen w) = true ->
  exists w1 w2 w3,
    step w (Run t b) = Some (w1, []) /\
    step w1 (Run t b) = Some (w2, []) /\
    step w2 (Run t b) = Some (w3, [EvBusy t]) /\
    pc_of w3 t = ret k /\ gen w3 = gen w /\ entropy w3 = entropy w /\
    crashed w3 = false.
Proof.
  intros Hcr Hpc Hmu Hf.
  eexists; eexists; eexists.
  split; [unfold_step; rewrite Hcr, Hpc; unfold lock; rewrite Hmu; reflexivity|].
  split; [at_pc Hcr; cbn [isFilling set_mu]; rewrite Hf; reflexivity|].
  split; [at_pc Hcr; reflexivity|].
  cbn. rewrite ?nth_set_nth, ?Nat.eqb_refl.
  repeat split; auto. now apply set_mu_back.
Qed.

End Exits.

(* ------------------------------------------------------------------ *)
(** ** After the stop *)

Section AfterStop.

Lemma after_stop_snoc (h : History) (x : DB * Event) :
  after_stop (h ++ [x]) = if stopped h then after_stop h ++ [x] else [].
Proof.
  induction h as [|y h IH]; simpl.
  - now destruct (is_stop (snd x)).
  - destruct (is_stop (snd y)); simpl; auto.
Qed.

Lemma mid_attempt_in_pass (p : PC) : mid_attempt p = true -> in_pass p = true.
Proof. destruct p; simpl; congruence. Qed.

Lemma stopped_single (d : DB) (e : Event) : stopped [(d, e)] = is_stop e.
Proof. unfold stopped. simpl. apply orb_false_r. Qed.

Lemma StopInv_step (w : World) (h : History) (a : Action) (w' : World) (evs : list Event) :
  Inv w -> HInv w h -> StopInv w h -> step w a = Some (w', evs) ->
  StopInv w' (h ++ stamp w evs).
Proof.
  intros I HI SI H. unfold StopInv in *.
  pose proof (hinv_stop HI) as Hst.
  pose proof (fun t => @mid_attempt_in_pass (pc_of w t)) as Hmp.
  pose proof (inv_pass1 I) as Hp1.
  destruct (stopped h) eqn:S0.
  - specialize (SI eq_refl). specialize (Hst eq_refl). destruct SI as [Hle Hone].
    pose proof (closed_recv_ready _ Hst) as Hrr.
    step_cases H; unfold stamp; simpl map; rewrite ?app_nil_r;
      rewrite ?after_stop_snoc, ?stopped_app, ?S0, ?sends_app; simpl; intros _;
      rewrite ?app_nil_r, ?length_app; simpl; try congruence.
    all: split; [try lia | intro Hl; try rewrite Nat.add_0_r in Hl].
    all: try solve [intro t0; pcs; callers; split_tid; simpl; try reflexivity;
                    try (apply Hone; assumption);
                    specialize (Hone Hl); 
                    repeat match goal with
                      | E : pc_of ?w ?t = _ |- _ =>
                          let X := fresh in pose proof (Hone t) as X; rewrite E in X;
                          simpl in X; try discriminate X; clear E
                      end].
    + destruct (Datatypes.length (sends (after_stop h))) as [|n]; [lia|].
      assert (n = 0) by lia. subst n.
      pose proof (Hone eq_refl t) as X. rewrite Heqp in X. discriminate X.
    + intro t0. pcs. split_tid; [reflexivity|].
      destruct (mid_attempt (pc_of w t0)) eqn:M; [exfalso | reflexivity].
      apply n. apply Hp1; [now apply Hmp | now rewrite Heqp].
  - step_cases H; unfold stamp; simpl map; rewrite ?app_nil_r;
      rewrite ?after_stop_snoc, ?stopped_app, ?stopped_single, ?S0; simpl;
      try (intro; discriminate); try (intros _; split; [lia | intro; lia]).
Qed.

Lemma Reach_StopInv (w : World) (h : History) : Reach w h -> StopInv w h.
Proof.
  induction 1 as [d rd | w h a w' evs HR IH Hstep].
  - intro H. discriminate H.
  - eapply StopInv_step; eauto; [eapply Reach_Inv | eapply Reach_HInv]; eauto.
Qed.

End AfterStop.

(* ------------------------------------------------------------------ *)
(** ** Capacity, well-formed codes, and the stop channel *)

Section MoreInvariants.

Lemma generateRandomString_wf (rd rd' : Reader) (code : string) :
  generateRandomString CodeLength rd = (Ret (code, None), rd') -> wf_code code.
Proof.
  intro E. pose proof (generateRandomString_spec rd) as H.
  destruct (indices 7 rd) as [[nums|e] rd1].
  - destruct H as [Es [L F]]. rewrite E in Es. inversion Es; subst. split.
    + now rewrite length_string_of_list_ascii, length_map.
    + rewrite list_ascii_of_string_of_list_ascii. now apply chars_in_alphabet.
  - rewrite E in H. discriminate H.
Qed.

Lemma GenInv_boot (d : DB) (rd : Reader) : GenInv (boot d rd).
Proof.
  constructor; simpl; intros; rewrite ?pc_of_boot in *; try discriminate; auto.
  unfold len, ChannelBufferSize. simpl. lia.
Qed.

Lemma GenInv_step (w : World) (a : Action) (w' : World) (evs : list Event) :
  Inv w -> GenInv w -> step w a = Some (w', evs) -> GenInv w'.
Proof.
  intros I [Hlen Hse Hbuf Hprobe Hgot Hsend] H.
  pose proof (inv_cap I) as Hcap.
  step_cases H.
  all: constructor; simpl; intros; pcs; callers; split_tid; simpl in *;
    try discriminate; try assumption; eauto.
  all: same_pc;
    repeat match goal with
      | H : Gen_probe _ _ _ = Gen_probe _ _ _ |- _ => inversion H; subst; clear H
      end.
  all: try solve [left; reflexivity].
  all: try solve [right; eauto].
  all: try solve [eapply generateRandomString_wf; eauto].
  all: try solve [match goal with
                  | E : String.eqb ?c _ = false, G : forall t k c, pc_of _ t = Fill_got k c -> _,
                    P : pc_of _ _ = Fill_got _ ?c |- _ =>
                      destruct (G _ _ _ P) as [X|X]; [subst; discriminate E | exact X]
                  end].
  all: unfold len in *; simpl;
    repeat match goal with
      | E : buf ?c = _ |- _ => rewrite E in *
      | H : (_ <? _) = true |- _ => apply Nat.ltb_lt in H
      end;
    simpl in *; rewrite ?length_app; simpl; try lia.
  all: try solve [inversion Hbuf; subst; assumption].
  all: solve [apply Forall_app; split; [assumption | constructor; eauto]].
Qed.

Lemma Reach_GenInv (w : World) (h : History) : Reach w h -> GenInv w.
Proof.
  induction 1 as [d rd | w h a w' evs HR IH Hstep].
  - apply GenInv_boot.
  - eapply GenInv_step; eauto. eapply Reach_Inv; eauto.
Qed.

Lemma HInv2_boot (d : DB) (rd : Reader) : HInv2 (boot d rd) [].
Proof. constructor; simpl; [constructor | discriminate]. Qed.

Lemma HInv2_step (w : World) (h : History) (a : Action) (w' : World) (evs : list Event) :
  GenInv w -> HInv2 w h -> step w a = Some (w', evs) -> HInv2 w' (h ++ stamp w evs).
Proof.
  intros G [Hs Hc] H.
  pose proof (ginv_send G) as Hsend.
  step_cases H; unfold stamp; simpl map; rewrite ?app_nil_r.
  all: constructor; rewrite ?sends_app, ?stopped_app, ?stopped_single; simpl;
    rewrite ?app_nil_r, ?orb_false_r, ?orb_true_r; try assumption; try reflexivity.
  all: try solve [apply Forall_app; split; [assumption | constructor; eauto]].
  all: solve [intros _; apply Hc; reflexivity].
Qed.

Lemma Reach_HInv2 (w : World) (h : History) : Reach w h -> HInv2 w h.
Proof.
  induction 1 as [d rd | w h a w' evs HR IH Hstep].
  - apply HInv2_boot.
  - eapply HInv2_step; eauto. eapply Reach_GenInv; eauto.
Qed.


End MoreInvariants.

Section MoreSteps.

Import Scenario Scenario2.

(** Only the stop case of the monitor's select leaves a monitor-exit
    event. *)
Lemma step_monitor_exit (w : World) (a : Action) (w' : World) (t : tid) :
  step w a = Some (w', [EvMonitorExit t]) -> recv_ready (stopChan (gen w)) = true.
Proof. intro H. step_cases H; auto. Qed.

Lemma not_stopped_not_ready (w : World) (h : History) :
  Reach w h -> stopped h = false -> recv_ready (stopChan (gen w)) = false.
Proof.
  intros HR Hs. unfold recv_ready. rewrite (ginv_stop_empty (Reach_GenInv HR)).
  destruct (closed (stopChan (gen w))) eqn:Hc; [|reflexivity].
  rewrite (hinv2_stop (Reach_HInv2 HR) Hc) in Hs. discriminate.
Qed.

Lemma monitor_ended_Reach : Reach (fst monitor_ended) (snd monitor_ended).
Proof.
  apply after_Reach with (d := empty_db) (rd := zeros 14)
                         (acts := start_and_fill 6 ++ stop_once ++ [Run 1 false]).
  vm_compute. reflexivity.
Qed.

End MoreSteps.

(* ------------------------------------------------------------------ *)
(** ** Without [Start] *)

Section NeverStarted.

Lemma Unstarted_boot (d : DB) (rd : Reader) : Unstarted (boot d rd).
Proof. constructor; intros; rewrite ?pc_of_boot; reflexivity. Qed.

Lemma Unstarted_step (w : World) (a : Action) (w' : World) (evs : list Event) :
  Unstarted w ->
  is_start a = false ->
  step w a = Some (w', evs) ->
  Unstarted w' /\ entropy w' = entropy w /\ forallb quiet evs = true.
Proof.
  intros [Ho Hb Hc] Ha H.
  step_cases H; try discriminate Ha;
    repeat match goal with
      | E : pc_of ?w ?t = _ |- _ =>
          pose proof (Ho t) as X; rewrite E in X; try discriminate X; clear X; revert E
      end; intros.
  all: try congruence.
  all: try (pose proof (Ho t) as X; destruct (pc_of w t); simpl in *; discriminate).
  all: split; [constructor|split]; simpl; auto.
  all: try (intros t0; pcs; callers; split_tid; simpl; auto).
Qed.

Lemma quiet_stamp (w : World) (evs : list Event) :
  forallb quiet evs = true ->
  sends (stamp w evs) = [] /\ takes (stamp w evs) = [].
Proof.
  induction evs as [|e evs IH]; simpl; [auto|].
  intro H. apply andb_true_iff in H. destruct H as [He H]. destruct (IH H) as [A B].
  unfold sends, takes in *. simpl. destruct e; try discriminate He; simpl; auto.
Qed.

Lemma Unstarted_run (acts : list Action) :
  forall (w : World) (h : History) (w' : World) (h' : History),
    Unstarted w ->
    existsb is_start acts = false ->
    run w h acts = Some (w', h') ->
    Unstarted w' /\ entropy w' = entropy w /\ sends h' = sends h /\ takes h' = takes h.
Proof.
  induction acts as [|a acts IH]; intros w h w' h' U Hs Hrun; simpl in *.
  - inversion Hrun; subst. auto.
  - apply orb_false_iff in Hs. destruct Hs as [Ha Hs].
    destruct (step w a) as [[w1 evs]|] eqn:E; [|discriminate Hrun].
    destruct (@Unstarted_step w a w1 evs U Ha E) as [U1 [E1 Q]].
    destruct (IH w1 _ w' h' U1 Hs Hrun) as [U' [E' [S' T']]].
    destruct (@quiet_stamp w evs Q) as [Qs Qt].
    split; [exact U'|]. split; [congruence|].
    rewrite S', T', sends_app, takes_app, Qs, Qt, !app_nil_r. auto.
Qed.

End NeverStarted.

(* ------------------------------------------------------------------ *)
(** ** One goroutine running alone *)

Section Alone.

Lemma run_app (a1 : list Action) : forall (a2 : list Action) (w : World) (h : History),
  run w h (a1 ++ a2) =
  match run w h a1 with
  | Some (w', h') => run w' h' a2
  | None => None
  end.
Proof.
  induction a1 as [|a a1 IH]; intros a2 w h; simpl; [reflexivity|].
  destruct (step w a) as [[w' evs]|]; [apply IH | reflexivity].
Qed.

Lemma run_snoc (acts : list Action) (a : Action) (w : World) (h : History)
      (w1 : World) (h1 : History) (w2 : World) (evs : list Event) :
  run w h acts = Some (w1, h1) -> step w1 a = Some (w2, evs) ->
  run w h (acts ++ [a]) = Some (w2, h1 ++ stamp w1 evs).
Proof. intros E S. rewrite run_app, E. simpl. now rewrite S. Qed.

Lemma repeat_snoc (A : Type) (x : A) (n : nat) : (repeat x n ++ [x] = repeat x (S n))%list.
Proof. simpl. symmetry. apply repeat_cons. Qed.

Lemma run_repeat_add (a : Action) (m1 m2 : nat) (w : World) (h : History)
      (w1 : World) (h1 : History) (w2 : World) (h2 : History) :
  run w h (repeat a m1) = Some (w1, h1) -> run w1 h1 (repeat a m2) = Some (w2, h2) ->
  run w h (repeat a (m1 + m2)) = Some (w2, h2).
Proof. intros E1 E2. now rewrite repeat_app, run_app, E1. Qed.

Lemma sends_probe_events (t : tid) (d : DB) (l : list string) :
  sends (probe_events t d l) = [].
Proof. induction l; auto. Qed.

Lemma sends_pushes (t : tid) (d : DB) (l : list string) :
  sends (map (fun c => (d, EvSend t c)) l) = l.
Proof. induction l as [|c l IH]; [reflexivity|]. unfold sends in *. cbn. now rewrite IH. Qed.

(** One iteration of the loop of [fillChannel], nobody else moving. *)
Lemma solo_iteration (w : World) (h : History) (t : tid) (k : Caller) :
  crashed w = false -> pc_of w t = Fill_for k ->
  len (codeChan (gen w)) < ChannelBufferSize ->
  cap (codeChan (gen w)) = ChannelBufferSize ->
  closed (codeChan (gen w)) = false ->
  recv_ready (stopChan (gen w)) = false ->
  exists m w' h',
    m <= 25 /\
    run w h (repeat (Run t false) m) = Some (w', h') /\
    crashed w' = false /\ pc_of w' t = Fill_for k /\
    (let '(r, rd', probed) := generateUniqueCode (db (gen w)) (entropy w) in
     entropy w' = rd' /\
     gen w' = set_codeChan (gen w)
                (mkChan (buf (codeChan (gen w)) ++ pushed r)
                        (cap (codeChan (gen w))) (closed (codeChan (gen w)))) /\
     h' = (h ++ [(db (gen w), EvAttempt t)] ++ probe_events t (db (gen w)) probed
             ++ map (fun c => (db (gen w), EvSend t c)) (pushed r))%list).
Proof.
  intros Hcr Hpc Hlen Hcap Hopen Hstop.
  assert (step w (Run t false) = Some (goto w t (Fill_select k), [])) as S1.
  { unfold_step. rewrite Hcr, Hpc. apply Nat.ltb_lt in Hlen. now rewrite Hlen. }
  set (w1 := goto w t (Fill_select k)) in *.
  assert (step w1 (Run t false) = Some (goto w1 t (Gen_for k 0), [EvAttempt t])) as S2.
  { unfold w1. at_pc Hcr. cbn. now rewrite Hstop. }
  set (w2 := goto w1 t (Gen_for k 0)) in *.
  destruct (@solo_generateUniqueCode MaxAttempts w2 (h ++ [(db (gen w), EvAttempt t)]) t k 0)
    as [m [w3 [h3 [Hm [Hrun [Hg [Hc3 Hres]]]]]]];
    [exact Hcr | unfold w2; now rewrite pc_of_goto, Nat.eqb_refl | reflexivity |].
  change (db (gen w2)) with (db (gen w)) in Hres.
  change (entropy w2) with (entropy w) in Hres.
  change (gen w2) with (gen w) in Hg.
  unfold generateUniqueCode.
  pose proof (@generateUniqueCode_loop_spec (db (gen w)) MaxAttempts (entropy w) []) as Hspec.
  destruct (generateUniqueCode_loop MaxAttempts (db (gen w)) (entropy w) [])
    as [[r rd'] probed].
  destruct Hres as [Hpc3 [He3 Hh3]].
  assert (run w h (Run t false :: Run t false :: repeat (Run t false) m) = Some (w3, h3)) as R3.
  { cbn [run]. rewrite S1. cbn [stamp map]. rewrite app_nil_r. rewrite S2.
    exact Hrun. }
  change (Run t false :: Run t false :: repeat (Run t false) m)
    with (repeat (Run t false) (S (S m))) in R3.
  destruct Hspec as [r0 [rd0 [new [E [_ [Hl Hr]]]]]]. inversion E; subst r0 rd0 probed.
  clear E. simpl in Hl.
  destruct r as [[code [e|]]|]; [| |contradiction]; cbn [after_generate pushed] in *.
  - (* an error: back to the loop head *)
    exists (S (S (S m))), (goto w3 t (Fill_for k)), h3.
    split; [unfold MaxAttempts in Hm; lia|]. split.
    + rewrite <- repeat_snoc. erewrite run_snoc; [|exact R3|].
      2:{ unfold_step. rewrite Hc3, Hpc3. reflexivity. }
      cbn [stamp map]. now rewrite app_nil_r.
    + cbn [crashed goto gen entropy]. rewrite pc_of_goto, Nat.eqb_refl.
      repeat split; auto.
      * rewrite Hg, app_nil_r. now destruct (gen w) as [? [] ? ? ?].
      * subst h3. cbn [map]. now rewrite app_nil_r, <- app_assoc.
  - destruct (String.eqb code "") eqn:Ec.
    + exists (S (S (S m))), (goto w3 t (Fill_for k)), h3.
      split; [unfold MaxAttempts in Hm; lia|]. split.
      * rewrite <- repeat_snoc. erewrite run_snoc; [|exact R3|].
        2:{ unfold_step. rewrite Hc3, Hpc3, Ec. reflexivity. }
        cbn [stamp map]. now rewrite app_nil_r.
      * cbn [crashed goto gen entropy]. rewrite pc_of_goto, Nat.eqb_refl.
        repeat split; auto.
        -- rewrite Hg, app_nil_r. now destruct (gen w) as [? [] ? ? ?].
        -- subst h3. cbn [map]. now rewrite app_nil_r, <- app_assoc.
    + set (w4 := goto w3 t (Fill_send k code)).
      assert (step w3 (Run t false) = Some (w4, [])) as S4.
      { unfold_step. rewrite Hc3, Hpc3, Ec. reflexivity. }
      set (ch := mkChan (buf (codeChan (gen w)) ++ [code])
                        (cap (codeChan (gen w))) (closed (codeChan (gen w)))).
      assert (step w4 (Run t false) =
              Some (goto (set_gen w4 (set_codeChan (gen w4) ch)) t (Fill_for k),
                    [EvSend t code])) as S5.
      { unfold w4. at_pc Hc3. cbn [gen goto]. rewrite Hg. unfold send.
        rewrite <- Hcap in Hlen. apply Nat.ltb_lt in Hlen. rewrite Hlen.
        destruct (closed (codeChan (gen w))); [discriminate Hopen | reflexivity]. }
      exists (S (S (S (S m)))), (goto (set_gen w4 (set_codeChan (gen w4) ch)) t (Fill_for k)),
        (h3 ++ [(db (gen w), EvSend t code)])%list.
      split; [unfold MaxAttempts in Hm; lia|]. split.
      * rewrite <- repeat_snoc. erewrite run_snoc; [| |exact S5].
        2:{ rewrite <- repeat_snoc. erewrite run_snoc; [|exact R3|exact S4].
            cbn [stamp map]. now rewrite app_nil_r. }
        cbn [stamp map]. unfold w4. cbn [gen goto]. now rewrite Hg.
      * cbn [crashed goto gen entropy set_gen]. rewrite pc_of_goto, Nat.eqb_refl.
        repeat split; auto.
        -- unfold w4. cbn [gen goto]. now rewrite Hg.
        -- subst h3. cbn [map]. now rewrite <- !app_assoc.
Qed.

Lemma generateUniqueCode_fresh (d : DB) (rd rd' : Reader) (c : string) :
  generateRandomString CodeLength rd = (Ret (c, None), rd') ->
  wf_code c /\
  (isCodeExist d c = false ->
   generateUniqueCode d rd = (Ret (c, None), rd', [c]) /\
   pushed (Ret (c, None)) = [c]).
Proof.
  intro E. pose proof (@generateRandomString_wf rd rd' c E) as W. split; [exact W|].
  intro X. unfold generateUniqueCode, MaxAttempts. cbn [generateUniqueCode_loop].
  rewrite E, X. simpl. split; [reflexivity|].
  destruct W as [L _]. destruct c; [discriminate L | reflexivity].
Qed.

Lemma candidates_wf (n : nat) : forall rd, Forall wf_code (candidates n rd).
Proof.
  induction n as [|n IH]; intro rd; cbn [candidates]; [constructor|].
  destruct (generateRandomString CodeLength rd) as [[[c [e|]]|] rd'] eqn:E;
    try constructor; [exact (@generateRandomString_wf rd rd' c E) | apply IH].
Qed.

(** [S n] candidates to be had: the first call succeeds and [n] are left
    to be had. *)
Lemma candidates_next (n : nat) (rd : Reader) :
  List.length (candidates (S n) rd) = S n ->
  exists c rd',
    generateRandomString CodeLength rd = (Ret (c, None), rd') /\
    candidates (S n) rd = c :: candidates n rd' /\
    List.length (candidates n rd') = n /\
    spent (S n) rd = spent n rd'.
Proof.
  cbn [candidates spent].
  destruct (generateRandomString CodeLength rd) as [[[c [e|]]|] rd'];
    cbn [List.length]; try discriminate.
  intro L. exists c, rd'. repeat split. congruence.
Qed.

(** The loop of [fillChannel] running alone while every candidate is new
    to the store. *)
Lemma solo_fill (n : nat) :
  forall (w : World) (h : History) (t : tid) (k : Caller),
    crashed w = false -> pc_of w t = Fill_for k ->
    len (codeChan (gen w)) + n = ChannelBufferSize ->
    cap (codeChan (gen w)) = ChannelBufferSize ->
    closed (codeChan (gen w)) = false ->
    recv_ready (stopChan (gen w)) = false ->
    List.length (candidates n (entropy w)) = n ->
    forallb (fun c => negb (isCodeExist (db (gen w)) c)) (candidates n (entropy w)) = true ->
    exists m w' h',
      run w h (repeat (Run t false) m) = Some (w', h') /\
      crashed w' = false /\ pc_of w' t = Fill_for k /\
      entropy w' = spent n (entropy w) /\
      gen w' = set_codeChan (gen w)
                 (mkChan (buf (codeChan (gen w)) ++ candidates n (entropy w))
                         (cap (codeChan (gen w))) (closed (codeChan (gen w)))) /\
      sends h' = (sends h ++ candidates n (entropy w))%list /\
      enters h' = enters h /\ leaves h' = leaves h.
Proof.
  induction n as [|n IH]; intros w h t k Hcr Hpc Hlen Hcap Hopen Hstop F C.
  - exists 0, w, h. cbn [repeat run candidates spent]. rewrite !app_nil_r.
    repeat split; auto. now destruct (gen w) as [? [] ? ? ?].
  - destruct (@candidates_next n (entropy w) F) as [c [rd' [E [Cs [Ln Sp]]]]].
    destruct (@generateUniqueCode_fresh (db (gen w)) (entropy w) rd' c E) as [W G].
    rewrite Cs, Sp in *. cbn [forallb] in C.
    apply andb_true_iff in C. destruct C as [Cc C]. apply negb_true_iff in Cc.
    destruct (G Cc) as [GU P]. clear G.
    destruct (@solo_iteration w h t k Hcr Hpc ltac:(lia) Hcap Hopen Hstop)
      as [m1 [w1 [h1 [_ [R1 [Hc1 [Hp1 X]]]]]]].
    rewrite GU in X. destruct X as [He1 [Hg1 Hh1]]. rewrite P in *.
    destruct (IH w1 h1 t k Hc1 Hp1) as [m2 [w2 [h2 [R2 [Hc2 [Hp2 [He2 [Hg2 [Hs2 [En2 Le2]]]]]]]]]].
    + rewrite Hg1. unfold len in *. cbn. rewrite length_app. simpl. lia.
    + now rewrite Hg1.
    + now rewrite Hg1.
    + now rewrite Hg1.
    + now rewrite He1.
    + now rewrite Hg1, He1.
    + exists (m1 + m2), w2, h2.
      split; [exact (@run_repeat_add (Run t false) m1 m2 w h w1 h1 w2 h2 R1 R2)|].
      split; [exact Hc2|]. split; [exact Hp2|].
      split; [now rewrite He2, He1|].
      split; [rewrite Hg2, Hg1, He1; cbn; now rewrite <- app_assoc|].
      rewrite Hs2, En2, Le2, Hh1, He1.
      rewrite !sends_app, !enters_app, !leaves_app. cbn.
      unfold sends, enters, leaves. cbn.
      destruct (isCodeExist (db (gen w)) c); cbn; rewrite <- ?app_assoc; cbn;
        repeat split; auto; lia.
Qed.

End Alone.

Section MoreScenarios.

Import Scenario Scenario2.

Lemma pass_begun_Reach : Reach (fst pass_begun) (snd pass_begun).
Proof.
  apply after_Reach with (d := empty_db) (rd := zeros 14) (acts := start_and_fill 4).
  vm_compute. reflexivity.
Qed.

Lemma fill_begun_Reach : Reach (fst fill_begun) (snd fill_begun).
Proof.
  apply after_Reach with (d := empty_db) (rd := eights ChannelBufferSize)
                         (acts := start_and_fill 4).
  vm_compute. reflexivity.
Qed.

End MoreScenarios.

(* ------------------------------------------------------------------ *)
(** ** The handlers: the table *)

Section Tables.

Import Handler.

(** Deleting rows keeps a key of the table a key. *)
Lemma key_after_delete (K : Type) (key : ShortLink -> K) (keep : ShortLink -> bool)
      (rows : list ShortLink) :
  NoDup (map key rows) -> NoDup (map key (filter keep rows)).
Proof.
  intro N. induction rows as [|r rows IH]; [exact N|].
  cbn [map] in N. apply NoDup_cons_iff in N. destruct N as [Fresh N].
  cbn [filter]. destruct (keep r); [|exact (IH N)].
  cbn [map]. apply NoDup_cons; [|exact (IH N)].
  intro Hin. apply Fresh. apply in_map_iff in Hin. destruct Hin as [r' [E Hr']].
  apply filter_In in Hr'. apply in_map_iff. exists r'. tauto.
Qed.

Lemma map_map_same (A B : Type) (f : A -> B) (g : A -> A) (l : list A) :
  (forall x, f (g x) = f x) -> map f (map g l) = map f l.
Proof. intro H. rewrite map_map. apply map_ext. exact H. Qed.

Lemma existsb_has_code (code : string) (l : list ShortLink) :
  existsb (has_code code) l = false -> ~ In code (map ShortCode l).
Proof.
  intros H Hin. apply in_map_iff in Hin. destruct Hin as [r [E Hr]].
  assert (existsb (has_code code) l = true) as X
      by (apply existsb_exists; exists r; split; [exact Hr | unfold has_code; rewrite E; apply String.eqb_refl]).
  congruence.
Qed.

Lemma TableOK_Create (d : DB) (code url : string) (now : Z) :
  TableOK d -> TableOK (fst (Create d code url now)).
Proof.
  intros [Hc Hi Hr Hp Hk]. unfold Create.
  destruct (fault d); [now constructor|].
  destruct (existsb (has_code code) (short_links d)) eqn:E; [now constructor|].
  constructor; cbn [fst short_links next_id]; rewrite ?map_app; cbn [map].
  - apply NoDup_app; auto.
    + repeat constructor. intros [].
    + intros a Ha [Hb|[]]. subst a. revert Ha. now apply existsb_has_code.
  - apply NoDup_app; auto.
    + repeat constructor. intros [].
    + intros a Ha [Hb|[]]. cbn in Hb. subst a.
      apply in_map_iff in Ha. destruct Ha as [r [E1 Hin]].
      rewrite Forall_forall in Hr. specialize (Hr r Hin). lia.
  - apply Forall_app. split.
    + eapply Forall_impl; [|exact Hr]. cbn. intros; lia.
    + repeat constructor; cbn; lia.
  - lia.
  - apply Forall_app. split; [exact Hk|]. repeat constructor. cbn. lia.
Qed.

Lemma TableOK_DeleteLink (d : DB) (code : string) :
  TableOK d -> TableOK (fst (Store.DeleteLink d code)).
Proof.
  intros [Hc Hi Hr Hp Hk]. unfold Store.DeleteLink.
  destruct (fault d); [now constructor|].
  constructor; cbn [fst short_links next_id]; auto using key_after_delete.
  - apply Forall_forall. intros r Hin. apply filter_In in Hin.
    rewrite Forall_forall in Hr. now apply Hr.
  - apply Forall_forall. intros r Hin. apply filter_In in Hin.
    rewrite Forall_forall in Hk. now apply Hk.
Qed.

Lemma TableOK_rows (d : DB) (g : ShortLink -> ShortLink) (e : option Error) :
  (forall r, ShortCode (g r) = ShortCode r) ->
  (forall r, ID (g r) = ID r) ->
  (forall r, (0 <= ClickCount r -> 0 <= ClickCount (g r))%Z) ->
  TableOK d -> TableOK (mkDB (map g (short_links d)) (next_id d) e).
Proof.
  intros Gc Gi Gk [Hc Hi Hr Hp Hk].
  constructor; cbn [short_links next_id]; rewrite ?map_map_same; auto.
  - apply Forall_map. eapply Forall_impl; [|exact Hr]. cbn. intros r. now rewrite Gi.
  - apply Forall_map. eapply Forall_impl; [|exact Hk]. cbn. intros r. apply Gk.
Qed.

Lemma TableOK_ToggleLink (d : DB) (code : string) (now : Z) :
  TableOK d -> TableOK (fst (Store.ToggleLink d code now)).
Proof.
  intro T. unfold Store.ToggleLink.
  destruct (First_short_code d code) as [[link|] err]; [|exact T].
  cbn [fst]. apply TableOK_rows; auto; intro r; unfold set_active;
    destruct (ID r =? ID link)%Z; auto.
Qed.

Lemma TableOK_Update_click_count (d : DB) (code : string) (now : Z) :
  TableOK d -> TableOK (fst (Update_click_count d code now)).
Proof.
  intro T. unfold Update_click_count.
  destruct (fault d); [exact T|].
  destruct (existsb _ _); [exact T|].
  cbn [fst]. apply TableOK_rows; auto; intro r;
    destruct (has_code code r); cbn; auto; lia.
Qed.

Lemma TableOK_fault (d : DB) (e : option Error) :
  TableOK d -> TableOK (mkDB (short_links d) (next_id d) e).
Proof. intros [Hc Hi Hr Hp Hk]. now constructor. Qed.

Lemma hdb_with_redis (h : ShortLinkHandler) (f : Redis -> Redis) :
  hdb (with_redis h f) = hdb h.
Proof. unfold with_redis, hdb. now destruct (redis h). Qed.

Lemma hdb_set_hdb (h : ShortLinkHandler) (d : DB) : hdb (set_hdb h d) = d.
Proof. reflexivity. Qed.

Lemma TableOK_perform (h : ShortLinkHandler) (o : Op) (h' : ShortLinkHandler) :
  TableOK (hdb h) -> perform h o = Some h' -> TableOK (hdb h').
Proof.
  intros T H. destruct o as [[bind host|code| |code|code] now|code now|code|e];
    cbn [perform serve] in H.
  - unfold CreateShortLink in H. destruct bind as [url|err].
    + unfold GetCode in H. destruct (recv _ _) as [|[c ch]|]; try discriminate H.
      change (hdb (mkShortLinkHandler (redis h) (set_codeChan (codeGenerator h) ch)))
        with (hdb h) in H.
      pose proof (@TableOK_Create (hdb h) c url now T) as TC.
      destruct (Create (hdb h) c url now) as [d [e|]]; inversion H; subst; cbn [state].
      * exact T.
      * now rewrite hdb_with_redis.
    + inversion H; subst. exact T.
  - inversion H; subst. unfold RedirectToOriginal, redirect_from_store.
    destruct (redis h) as [r|].
    + destruct (Redis_Get _ _ _); [exact T|].
      destruct (First_active (hdb h) code) as [[l|] [e|]]; cbn [state]; rewrite ?hdb_with_redis; exact T.
    + destruct (First_active (hdb h) code) as [[l|] [e|]]; cbn [state]; rewrite ?hdb_with_redis; exact T.
  - inversion H; subst. exact T.
  - inversion H; subst. unfold Handler.ToggleLink.
    destruct (First_short_code (hdb h) code) as [[l|] [e|]]; cbn [state]; try exact T.
    rewrite hdb_with_redis. now apply TableOK_ToggleLink.
  - inversion H; subst. unfold Handler.DeleteLink.
    pose proof (@TableOK_DeleteLink (hdb h) code T) as TD.
    rewrite hdb_with_redis.
    destruct (Store.DeleteLink (hdb h) code) as [d [e|]]; cbn [state]; rewrite ?hdb_with_redis; auto.
  - inversion H; subst. now apply TableOK_Update_click_count.
  - destruct (send _ _); inversion H; subst. exact T.
  - inversion H; subst. now apply TableOK_fault.
Qed.

End Tables.

(* ------------------------------------------------------------------ *)
(** ** The handlers: the cache *)

Section Caches.

Import Handler.

Lemma cache_key_inj (a b : string) : cache_key a = cache_key b -> a = b.
Proof. unfold cache_key. cbn. intro H. now inversion H. Qed.

Lemma find_without_same (k : string) (l : list (string * (string * Z))) :
  find (is_key k) (without k l) = None.
Proof.
  induction l as [|e l IH]; [reflexivity|]. unfold without in *. cbn.
  destruct (is_key k e) eqn:E; cbn; [exact IH|]. now rewrite E.
Qed.

Lemma find_without_other (k k' : string) (l : list (string * (string * Z))) :
  k' <> k -> find (is_key k') (without k l) = find (is_key k') l.
Proof.
  intro N. induction l as [|e l IH]; [reflexivity|]. unfold without in *. cbn.
  destruct (is_key k e) eqn:E; cbn.
  - unfold is_key in *. apply String.eqb_eq in E.
    destruct (String.eqb_spec (fst e) k'); [congruence | exact IH].
  - destruct (is_key k' e); [reflexivity | exact IH].
Qed.

(** Lookups after [Set]. *)
Lemma find_Set (r : Redis) (k v : string) (ttl now : Z) (k' : string) :
  reachable r = true ->
  find (is_key k') (entries (Redis_Set r k v ttl now)) =
  if String.eqb k k' then Some (k, (v, (now + ttl)%Z)) else find (is_key k') (entries r).
Proof.
  intro U. unfold Redis_Set. rewrite U. cbn [entries find]. unfold is_key at 1. cbn [fst].
  destruct (String.eqb_spec k k'); [reflexivity|].
  apply find_without_other. congruence.
Qed.

Lemma find_Del (r : Redis) (k k' : string) :
  reachable r = true ->
  find (is_key k') (entries (Redis_Del r k)) =
  if String.eqb k k' then None else find (is_key k') (entries r).
Proof.
  intro U. unfold Redis_Del. rewrite U. cbn [entries].
  destruct (String.eqb_spec k k'); [subst; apply find_without_same|].
  apply find_without_other. congruence.
Qed.

Lemma reachable_Set (r : Redis) (k v : string) (ttl now : Z) :
  reachable (Redis_Set r k v ttl now) = reachable r.
Proof. unfold Redis_Set. now destruct (reachable r) eqn:E. Qed.

Lemma reachable_Del (r : Redis) (k : string) :
  reachable (Redis_Del r k) = reachable r.
Proof. unfold Redis_Del. now destruct (reachable r) eqn:E. Qed.

(** Rows that keep code, flag and URL keep the links. *)
Lemma active_link_map (d : DB) (g : ShortLink -> ShortLink) (e : option Error)
      (code url : string) :
  (forall r, In r (short_links d) -> ShortCode r = code -> IsActive r = true ->
             ShortCode (g r) = ShortCode r /\ IsActive (g r) = true /\
             OriginalURL (g r) = OriginalURL r) ->
  active_link d code url ->
  active_link (mkDB (map g (short_links d)) (next_id d) e) code url.
Proof.
  intros G [r [Hin [Hc [Ha Hu]]]]. destruct (G r Hin Hc Ha) as [Gc [Ga Gu]].
  exists (g r). cbn [short_links]. split; [now apply in_map|]. split; [congruence|].
  split; [exact Ga | congruence].
Qed.

Lemma active_link_rows (d d' : DB) (code url : string) :
  (forall r, In r (short_links d) -> ShortCode r = code -> In r (short_links d')) ->
  active_link d code url -> active_link d' code url.
Proof. intros G [r [Hin [Hc [Ha Hu]]]]. exists r. auto. Qed.

(** The row [First] finds carries the code; with unique ids it is the
    only row with its id. *)
Lemma First_short_code_found (d : DB) (code : string) (link : ShortLink) (e : option Error) :
  First_short_code d code = (Some link, e) ->
  In link (short_links d) /\ ShortCode link = code /\ fault d = None.
Proof.
  unfold First_short_code. destruct (fault d); [discriminate|].
  destruct (find (has_code code) (short_links d)) as [r|] eqn:F; [|discriminate].
  intro H. inversion H; subst. apply find_some in F. destruct F as [Hin Hc].
  unfold has_code in Hc. apply String.eqb_eq in Hc. auto.
Qed.

Lemma unique_id (d : DB) (r1 r2 : ShortLink) :
  TableOK d -> In r1 (short_links d) -> In r2 (short_links d) -> ID r1 = ID r2 -> r1 = r2.
Proof.
  intros [_ Hi _ _ _]. revert Hi. induction (short_links d) as [|x l IH]; [intros _ []|].
  cbn [map]. intro N. inversion N as [|y l' Hn Hd]; subst.
  intros [E1|H1] [E2|H2] E; subst; auto.
  - exfalso. apply Hn. rewrite E. now apply in_map.
  - exfalso. apply Hn. rewrite <- E. now apply in_map.
Qed.

Lemma unique_code (d : DB) (r1 r2 : ShortLink) :
  TableOK d -> In r1 (short_links d) -> In r2 (short_links d) ->
  ShortCode r1 = ShortCode r2 -> r1 = r2.
Proof.
  intros [Hc _ _ _ _]. revert Hc. induction (short_links d) as [|x l IH]; [intros _ []|].
  cbn [map]. intro N. inversion N as [|y l' Hn Hd]; subst.
  intros [E1|H1] [E2|H2] E; subst; auto.
  - exfalso. apply Hn. rewrite E. now apply in_map.
  - exfalso. apply Hn. rewrite <- E. now apply in_map.
Qed.

Lemma First_active_found (d : DB) (code : string) (link : ShortLink) (e : option Error) :
  First_active d code = (Some link, e) ->
  In link (short_links d) /\ ShortCode link = code /\ IsActive link = true.
Proof.
  unfold First_active. destruct (fault d); [discriminate|].
  destruct (find _ (short_links d)) as [r|] eqn:F; [|discriminate].
  intro H. inversion H; subst. apply find_some in F. destruct F as [Hin Hc].
  apply andb_true_iff in Hc. destruct Hc as [Hc Ha].
  unfold has_code in Hc. apply String.eqb_eq in Hc. apply Bool.eqb_prop in Ha. auto.
Qed.

Lemma Coherent_perform (h : ShortLinkHandler) (o : Op) (h' : ShortLinkHandler) :
  TableOK (hdb h) -> Coherent h -> cache_up h = true ->
  perform h o = Some h' -> Coherent h' /\ cache_up h' = true.
Proof.
  intros T C U H. destruct o as [[bind host|code| |code|code] now|code now|code|e];
    cbn [perform serve] in H.
  - (* CreateShortLink *)
    unfold CreateShortLink in H. destruct bind as [url|err]; [|inversion H; subst; auto].
    unfold GetCode in H. destruct (recv _ _) as [|[c ch]|]; try discriminate H.
    change (hdb (mkShortLinkHandler (redis h) (set_codeChan (codeGenerator h) ch)))
      with (hdb h) in H.
    unfold Create in H. unfold Coherent, cache_up, with_redis, set_hdb, hdb in *.
    destruct (fault (db (codeGenerator h))); [inversion H; subst; auto|].
    destruct (existsb _ _) eqn:Ex; inversion H; subst; clear H;
      cbn [state redis codeGenerator db set_db set_codeChan]; [auto|].
    destruct (redis h) as [r|]; cbn [redis codeGenerator db set_db]; [|auto].
    rewrite reachable_Set. split; [|exact U].
    intros code k v ex. rewrite find_Set by exact U.
    destruct (String.eqb_spec (cache_key c) (cache_key code)) as [E|N].
    + intro X. inversion X; subst. apply cache_key_inj in E. subst code.
      eexists. split; [apply in_or_app; right; left; reflexivity|]. cbn. auto.
    + intro X. eapply active_link_rows; [|exact (C _ _ _ _ X)].
      cbn. intros. apply in_or_app. now left.
  - (* RedirectToOriginal *)
    inversion H; subst; clear H. unfold RedirectToOriginal, redirect_from_store.
    unfold Coherent, cache_up, with_redis in *.
    destruct (redis h) as [r|] eqn:R.
    + destruct (Redis_Get r (cache_key code) now); cbn [state]; [now rewrite R|].
      destruct (First_active (hdb h) code) as [[link|] [e|]] eqn:F; cbn [state];
        rewrite ?R; auto.
      cbn [redis]. rewrite reachable_Set. split; [|exact U].
      intros code' k v ex. rewrite find_Set by exact U.
      destruct (String.eqb_spec (cache_key code) (cache_key code')) as [E|N].
      * intro X. inversion X; subst. apply cache_key_inj in E. subst code'.
        destruct (First_active_found _ _ F) as [Hin [Hc Ha]]. exists link. auto.
      * intro X. exact (C _ _ _ _ X).
    + destruct (First_active (hdb h) code) as [[link|] [e|]]; cbn [state]; now rewrite ?R.
  - inversion H; subst. auto.
  - (* ToggleLink *)
    inversion H; subst; clear H. unfold Handler.ToggleLink.
    destruct (First_short_code (hdb h) code) as [[link|] [e|]] eqn:F; cbn [state]; auto.
    destruct (First_short_code_found _ _ F) as [Hin [Hc Hf]].
    unfold Store.ToggleLink. rewrite F. cbn [fst].
    unfold Coherent, cache_up, with_redis, set_hdb, hdb in *. cbn [redis codeGenerator].
    destruct (redis h) as [r|]; cbn [redis codeGenerator db set_db]; [|auto].
    rewrite reachable_Del. split; [|exact U].
    intros code' k v ex. rewrite find_Del by exact U.
    destruct (String.eqb_spec (cache_key code) (cache_key code')) as [E|N]; [discriminate|].
    intro X. apply active_link_map; [|exact (C _ _ _ _ X)].
    intros r0 Hin0 Hc0 Ha0. unfold set_active.
    destruct (ID r0 =? ID link)%Z eqn:Ei; [|auto].
    apply Z.eqb_eq in Ei. pose proof (@unique_id _ r0 link T Hin0 Hin Ei). subst r0.
    exfalso. apply N. congruence.
  - (* DeleteLink *)
    inversion H; subst; clear H. unfold Handler.DeleteLink.
    rewrite hdb_with_redis. unfold Store.DeleteLink.
    unfold Coherent, cache_up, with_redis, set_hdb, hdb in *.
    destruct (redis h) as [r|] eqn:R; cbn [redis codeGenerator].
    + assert (forall code' k v ex,
                 find (is_key (cache_key code')) (entries (Redis_Del r (cache_key code)))
                 = Some (k, (v, ex)) ->
                 code' <> code /\ active_link (db (codeGenerator h)) code' v) as D.
      { intros code' k v ex. rewrite find_Del by exact U.
        destruct (String.eqb_spec (cache_key code) (cache_key code')) as [E|N]; [discriminate|].
        intro X. split; [congruence | exact (C _ _ _ _ X)]. }
      destruct (fault (db (codeGenerator h))); cbn [state redis codeGenerator db set_db];
        rewrite reachable_Del; (split; [|exact U]); intros code' k v ex X;
        destruct (D _ _ _ _ X) as [N A]; [exact A|].
      eapply active_link_rows; [|exact A]. cbn [short_links].
      intros r0 Hin0 Hc0. apply filter_In. split; [exact Hin0|].
      unfold has_code. rewrite Hc0. apply negb_true_iff. now apply String.eqb_neq.
    + destruct (fault (db (codeGenerator h))); cbn [state redis codeGenerator db set_db];
        rewrite R; auto.
  - (* incrementClickCount *)
    inversion H; subst; clear H. unfold incrementClickCount, Update_click_count.
    unfold Coherent, cache_up, set_hdb, hdb in *. cbn [redis codeGenerator].
    destruct (fault (db (codeGenerator h))); cbn [fst]; [destruct (redis h); auto; now destruct (codeGenerator h)|].
    destruct (existsb _ _); cbn [fst]; [destruct (redis h); auto; now destruct (codeGenerator h)|].
    destruct (redis h) as [r|]; cbn [db set_db]; [|auto]. split; [|exact U].
    intros code' k v ex X. apply active_link_map; [|exact (C _ _ _ _ X)].
    intros r0 _ _ Ha. destruct (has_code code r0); cbn; auto.
  - (* the generator pushes *)
    destruct (send _ _); inversion H; subst. auto.
  - (* the connection *)
    inversion H; subst; clear H.
    unfold Coherent, cache_up, set_hdb, hdb in *. cbn [redis codeGenerator db set_db].
    destruct (redis h) as [r|]; [|auto]. split; [|exact U].
    intros code' k v ex X. eapply active_link_rows; [|exact (C _ _ _ _ X)]. auto.
Qed.

End Caches.

(* ------------------------------------------------------------------ *)
(** ** The handlers: requests one after another *)

Section Servers.

Import Handler.

Lemma perform_all_ok (ops : list Op) : forall (h h' : ShortLinkHandler),
  TableOK (hdb h) -> Coherent h -> cache_up h = true ->
  perform_all h ops = Some h' ->
  TableOK (hdb h') /\ Coherent h' /\ cache_up h' = true.
Proof.
  induction ops as [|o ops IH]; intros h h' T C U H; cbn [perform_all] in H.
  - inversion H; subst. auto.
  - destruct (perform h o) as [h1|] eqn:E; [|discriminate H].
    destruct (@Coherent_perform h o h1 T C U E) as [C1 U1].
    exact (IH h1 h' (@TableOK_perform h o h1 T E) C1 U1 H).
Qed.

Lemma perform_all_TableOK (ops : list Op) : forall (h h' : ShortLinkHandler),
  TableOK (hdb h) -> perform_all h ops = Some h' -> TableOK (hdb h').
Proof.
  induction ops as [|o ops IH]; intros h h' T H; cbn [perform_all] in H.
  - inversion H; subst. auto.
  - destruct (perform h o) as [h1|] eqn:E; [|discriminate H].
    exact (IH h1 h' (@TableOK_perform h o h1 T E) H).
Qed.

Lemma TableOK_empty : TableOK Scenario.empty_db.
Proof. constructor; cbn; constructor. Qed.

Lemma First_active_finds (d : DB) (link : ShortLink) :
  TableOK d -> fault d = None -> In link (short_links d) -> IsActive link = true ->
  First_active d (ShortCode link) = (Some link, None).
Proof.
  intros T F Hin Ha. unfold First_active. rewrite F.
  destruct (find _ (short_links d)) as [r|] eqn:E.
  - apply find_some in E. destruct E as [Hr Hp]. apply andb_true_iff in Hp.
    destruct Hp as [Hc _]. unfold has_code in Hc. apply String.eqb_eq in Hc.
    now rewrite (@unique_code d r link T Hr Hin Hc).
  - pose proof (find_none _ _ E link Hin) as X. cbn in X. unfold has_code in X.
    rewrite String.eqb_refl, Ha in X. discriminate X.
Qed.

Lemma Redis_Get_found (r : Redis) (key : string) (now : Z) (v : string) :
  Redis_Get r key now = Some v ->
  exists k expires, find (is_key key) (entries r) = Some (k, (v, expires)).
Proof.
  unfold Redis_Get. destruct (reachable r); [|discriminate].
  destruct (find (is_key key) (entries r)) as [[k [v' ex]]|]; [|discriminate].
  destruct (now <? ex)%Z; [|discriminate]. intro H. inversion H; subst. eauto.
Qed.

Lemma redirect_sound (h : ShortLinkHandler) (code : string) (now : Z) (url : string) :
  Coherent h ->
  response (RedirectToOriginal h code now) = Redirect StatusFound url ->
  active_link (hdb h) code url.
Proof.
  intros C. unfold RedirectToOriginal, redirect_from_store, Coherent in *.
  assert (response
            match First_active (hdb h) code with
            | (Some link, None) =>
                mkReply (Redirect StatusFound (OriginalURL link))
                  (with_redis h (fun r => Redis_Set r (cache_key code) (OriginalURL link) day now))
                  [code]
            | _ => mkReply (JSON StatusNotFound ErrorBody) h []
            end = Redirect StatusFound url -> active_link (hdb h) code url) as M.
  { destruct (First_active (hdb h) code) as [[link|] [e|]] eqn:F; cbn; try discriminate.
    intro H. inversion H; subst. destruct (First_active_found _ _ F) as [Hin [Hc Ha]].
    exists link. auto. }
  destruct (redis h) as [r|]; [|exact M].
  destruct (Redis_Get r (cache_key code) now) as [v|] eqn:G; [|exact M].
  cbn. intro H. inversion H; subst. destruct (Redis_Get_found _ _ _ G) as [k [ex X]].
  exact (C _ _ _ _ X).
Qed.

Lemma redirect_complete (h : ShortLinkHandler) (code : string) (now : Z) (url : string) :
  TableOK (hdb h) -> Coherent h -> fault (hdb h) = None ->
  active_link (hdb h) code url ->
  RedirectToOriginal h code now =
  mkReply (Redirect StatusFound url)
          (match redis h with
           | Some r => match Redis_Get r (cache_key code) now with
                       | Some _ => h
                       | None => with_redis h (fun r => Redis_Set r (cache_key code) url day now)
                       end
           | None => h
           end) [code].
Proof.
  intros T C F [link [Hin [Hc [Ha Hu]]]]. subst code url.
  unfold RedirectToOriginal, redirect_from_store.
  rewrite (@First_active_finds (hdb h) link T F Hin Ha).
  unfold Coherent in C. destruct (redis h) as [r|] eqn:R.
  - destruct (Redis_Get r (cache_key (ShortCode link)) now) as [v|] eqn:G; [|reflexivity].
    destruct (Redis_Get_found _ _ _ G) as [k [ex X]].
    destruct (C _ _ _ _ X) as [l2 [Hin2 [Hc2 [_ Hu2]]]].
    rewrite (@unique_code _ l2 link T Hin2 Hin Hc2) in Hu2. now subst v.
  - unfold with_redis. now rewrite R.
Qed.

End Servers.

Section MoreServers.

Import Scenario Scenario2 Handler.

Lemma next_id_perform (h : ShortLinkHandler) (o : Op) (h' : ShortLinkHandler) :
  perform h o = Some h' -> (next_id (hdb h) <= next_id (hdb h'))%Z.
Proof.
  intro H. destruct o as [[bind host|code| |code|code] now|code now|code|e];
    cbn [perform serve] in H.
  - unfold CreateShortLink in H. destruct bind as [url|err]; [|inversion H; subst; lia].
    unfold GetCode in H. destruct (recv _ _) as [|[c ch]|]; try discriminate H.
    change (hdb (mkShortLinkHandler (redis h) (set_codeChan (codeGenerator h) ch)))
      with (hdb h) in H.
    unfold Create in H. destruct (fault (hdb h)); [inversion H; subst; cbn; unfold hdb; cbn; lia|].
    destruct (existsb _ _); inversion H; subst; cbn [state]; rewrite ?hdb_with_redis;
      unfold hdb; cbn; lia.
  - inversion H; subst. unfold RedirectToOriginal, redirect_from_store.
    destruct (redis h) as [r|]; [destruct (Redis_Get _ _ _); [cbn; lia|]|];
      destruct (First_active (hdb h) code) as [[l|] [e|]]; cbn [state];
      rewrite ?hdb_with_redis; lia.
  - inversion H; subst. cbn. lia.
  - inversion H; subst. unfold Handler.ToggleLink, Store.ToggleLink.
    destruct (First_short_code (hdb h) code) as [[l|] [e|]]; cbn [state fst];
      rewrite ?hdb_with_redis; cbn; lia.
  - inversion H; subst. unfold Handler.DeleteLink, Store.DeleteLink.
    rewrite hdb_with_redis.
    destruct (fault (hdb h)); cbn [state]; rewrite ?hdb_with_redis; cbn; lia.
  - inversion H; subst. unfold incrementClickCount, Update_click_count.
    destruct (fault (hdb h)); [cbn; lia|]. destruct (existsb _ _); cbn; lia.
  - destruct (send _ _); inversion H; subst. unfold hdb. cbn. lia.
  - inversion H; subst. cbn. lia.
Qed.

Lemma next_id_perform_all (ops : list Op) : forall (h h' : ShortLinkHandler),
  perform_all h ops = Some h' -> (next_id (hdb h) <= next_id (hdb h'))%Z.
Proof.
  induction ops as [|o ops IH]; intros h h' H; cbn [perform_all] in H.
  - inversion H; subst. lia.
  - destruct (perform h o) as [h1|] eqn:E; [|discriminate H].
    pose proof (next_id_perform _ _ E). pose proof (IH _ _ H). lia.
Qed.

Lemma redirect_cases (h : ShortLinkHandler) (code : string) (now : Z) :
  (exists url, response (RedirectToOriginal h code now) = Redirect StatusFound url /\
               spawned (RedirectToOriginal h code now) = [code]) \/
  RedirectToOriginal h code now = mkReply (JSON StatusNotFound ErrorBody) h [].
Proof.
  unfold RedirectToOriginal, redirect_from_store.
  destruct (redis h) as [r|]; [destruct (Redis_Get _ _ _); [left; eexists; split; reflexivity|]|];
    destruct (First_active (hdb h) code) as [[l|] [e|]]; cbn; eauto.
Qed.

Lemma Coherent_fresh : Coherent fresh_server.
Proof. intros code k v ex H. discriminate H. Qed.

End MoreServers.

(* ------------------------------------------------------------------ *)
(** ** Creating a link *)

Section Strings.

Local Open Scope string_scope.

Lemma length_append (a b : string) : String.length (a ++ b) = String.length a + String.length b.
Proof. induction a as [|x a IH]; cbn; [reflexivity | now rewrite IH]. Qed.

Lemma substring_all (s : string) : substring 0 (String.length s) s = s.
Proof. induction s as [|x s IH]; cbn; [reflexivity | now rewrite IH]. Qed.

Lemma substring_suffix (a c : string) :
  substring (String.length a) (String.length c) (a ++ c) = c.
Proof. induction a as [|x a IH]; cbn; [apply substring_all | exact IH]. Qed.

Lemma append_assoc (a b c : string) : (a ++ b) ++ c = a ++ b ++ c.
Proof. induction a as [|x a IH]; cbn; [reflexivity | now rewrite IH]. Qed.

(** [s[len(s)-n:]] of a string that ends in the [n] characters [c]. *)
Lemma last_characters (a c : string) :
  substring (String.length (a ++ c) - String.length c) (String.length c) (a ++ c) = c.
Proof.
  rewrite length_append. replace (String.length a + String.length c - String.length c)%nat
    with (String.length a) by lia. apply substring_suffix.
Qed.

End Strings.

Section Created.

Import Handler.
Local Open Scope string_scope.

Lemma find_last (A : Type) (p : A -> bool) (l : list A) (x : A) :
  (forall y, In y l -> p y = false) -> p x = true -> find p (l ++ [x])%list = Some x.
Proof.
  intros N P. induction l as [|y l IH]; cbn; [now rewrite P|].
  rewrite (N y (or_introl eq_refl)). apply IH. intros z Hz. apply N. now right.
Qed.

Lemma existsb_false_all (A : Type) (p : A -> bool) (l : list A) :
  existsb p l = false -> forall y, In y l -> p y = false.
Proof.
  intros H y Hy. destruct (p y) eqn:E; [|reflexivity].
  assert (existsb p l = true) by (apply existsb_exists; eauto). congruence.
Qed.

(** What a successful [Create] leaves. *)
Lemma Create_ok (d : DB) (code url : string) (now : Z) (d' : DB) :
  Create d code url now = (d', None) ->
  fault d = None /\ existsb (has_code code) (short_links d) = false /\
  d' = mkDB (short_links d ++ [mkShortLink (next_id d) code url 0 true now now])
            (next_id d + 1) None.
Proof.
  unfold Create. destruct (fault d); [discriminate|].
  destruct (existsb _ _); [discriminate|]. intro H. inversion H. auto.
Qed.

Lemma Create_error (d : DB) (code url : string) (now : Z) (d' : DB) (e : Error) :
  Create d code url now = (d', Some e) ->
  d' = d /\ (fault d <> None \/ existsb (has_code code) (short_links d) = true).
Proof.
  unfold Create. destruct (fault d); [intro H; inversion H; split; [auto|left; discriminate]|].
  destruct (existsb _ _); [|discriminate]. intro H. inversion H. auto.
Qed.

Lemma First_active_created (d : DB) (code url : string) (now : Z) (d' : DB) :
  Create d code url now = (d', None) ->
  First_active d' code = (Some (mkShortLink (next_id d) code url 0 true now now), None).
Proof.
  intro H. destruct (Create_ok _ _ _ _ H) as [F [E D]]. subst d'.
  unfold First_active. cbn [fault short_links]. rewrite find_last; [reflexivity| |].
  - intros y Hy. now rewrite (existsb_false_all _ _ E y Hy).
  - cbn. unfold has_code. cbn. now rewrite String.eqb_refl.
Qed.

Lemma redirect_after_create (h : ShortLinkHandler) (code url : string) (now now' : Z)
      (link : ShortLink) :
  First_active (hdb h) code = (Some link, None) -> OriginalURL link = url ->
  response (RedirectToOriginal
              (with_redis h (fun r => Redis_Set r (cache_key code) url day now)) code now')
  = Redirect StatusFound url.
Proof.
  intros F U. unfold RedirectToOriginal, redirect_from_store.
  rewrite hdb_with_redis, F. unfold with_redis.
  destruct (redis h) as [r|] eqn:R; cbn [redis]; [|rewrite R; cbn; now rewrite U].
  unfold Redis_Get. rewrite reachable_Set.
  destruct (reachable r) eqn:Up; [|cbn; now rewrite U].
  rewrite find_Set, String.eqb_refl by exact Up.
  destruct (now' <? now + day)%Z; cbn; now rewrite ?U.
Qed.

(** The same when the connection to redis has changed since the
    create, as long as no older entry was left under the key. *)
Lemma redirect_after_create_reach (h : ShortLinkHandler) (code url : string) (now now' : Z)
      (link : ShortLink) (up : bool) :
  First_active (hdb h) code = (Some link, None) -> OriginalURL link = url ->
  cache_up h = true \/ uncached h code = true ->
  response (RedirectToOriginal
              (redis_reach (with_redis h (fun r => Redis_Set r (cache_key code) url day now)) up)
              code now')
  = Redirect StatusFound url.
Proof.
  intros F U K. destruct h as [[r|] g];
    unfold RedirectToOriginal, redirect_from_store, redis_reach, with_redis, cache_up,
           uncached, hdb in *;
    cbn [redis codeGenerator reachable entries] in *; [|rewrite F; cbn; now rewrite U].
  unfold Redis_Get. cbn [reachable entries].
  destruct up; [|rewrite F; cbn; now rewrite U].
  unfold Redis_Set. destruct (reachable r) eqn:Up; cbn [entries].
  - cbn [find]. unfold is_key at 1. cbn [fst]. rewrite String.eqb_refl.
    destruct (now' <? now + day)%Z; rewrite ?F; cbn; now rewrite ?U.
  - destruct K as [K|K]; [discriminate K|].
    destruct (find (is_key (cache_key code)) (entries r)); [discriminate K|].
    rewrite F. cbn. now rewrite U.
Qed.

(** Without that condition the older entry wins: the second link of
    [stale_reply] is stored with its URL, and once redis answers again
    the redirect of its code goes to the URL of the deleted link. *)
Example stale_entry_wins_after_create :
  response Scenario2.stale_reply
  = JSON StatusCreated (ShortURL "http://localhost:8080/aaaaaaa") /\
  map (fun r => (ShortCode r, OriginalURL r, IsActive r))
      (short_links (hdb (state Scenario2.stale_reply)))
  = [("aaaaaaa", "https://example.org/b", true)] /\
  response (RedirectToOriginal (state Scenario2.stale_reply) "aaaaaaa" 400)
  = Redirect StatusFound "https://example.org/b" /\
  response (RedirectToOriginal (redis_reach (state Scenario2.stale_reply) true) "aaaaaaa" 400)
  = Redirect StatusFound "https://example.org/a".
Proof. vm_compute. repeat split. Qed.

End Created.

Section Outcomes.

Import Handler.
Local Open Scope string_scope.

Lemma Create_iff_isCodeExist (d : DB) (code url : string) (now : Z) :
  snd (Create d code url now) = None <-> isCodeExist d code = false.
Proof.
  split.
  - intro H. destruct (Create d code url now) as [d' [e|]] eqn:C; [discriminate H|].
    destruct (Create_ok _ _ _ _ C) as [F [E _]].
    destruct (isCodeExist d code) eqn:X; [|reflexivity].
    apply (isCodeExist_iff _ _ F) in X. destruct X as [r [Hin Hc]].
    pose proof (existsb_false_all _ _ E r Hin) as N. unfold has_code in N.
    rewrite Hc, String.eqb_refl in N. discriminate N.
  - intro H. destruct (isCodeExist_false _ _ H) as [F N]. unfold Create. rewrite F.
    destruct (existsb (has_code code) (short_links d)) eqn:E; [|reflexivity].
    apply existsb_exists in E. destruct E as [r [Hin Hc]]. unfold has_code in Hc.
    apply String.eqb_eq in Hc. now destruct (N r Hin).
Qed.

Lemma GetCode_db (g g' : Generator) (code : string) :
  GetCode g = Done (code, g') ->
  db g' = db g /\
  ((buf (codeChan g) = code :: buf (codeChan g')) \/
   (buf (codeChan g) = [] /\ closed (codeChan g) = true /\ code = "" /\ g' = g)).
Proof.
  unfold GetCode, recv. destruct (buf (codeChan g)) as [|c rest] eqn:B.
  - destruct (closed (codeChan g)) eqn:Cl; [|discriminate]. intro H. inversion H; subst.
    split; [reflexivity|]. right. repeat split; auto. now destruct g.
  - intro H. inversion H; subst. split; [reflexivity|]. left. reflexivity.
Qed.

End Outcomes.

Section Deleting.

Import Handler.
Local Open Scope string_scope.

Lemma filter_twice (A : Type) (p : A -> bool) (l : list A) :
  filter p (filter p l) = filter p l.
Proof.
  induction l as [|x l IH]; [reflexivity|]. cbn. destruct (p x) eqn:E; cbn; rewrite ?E, IH; reflexivity.
Qed.

Lemma Redis_Del_twice (r : Redis) (k : string) : Redis_Del (Redis_Del r k) k = Redis_Del r k.
Proof.
  unfold Redis_Del. destruct (reachable r) eqn:U; cbn [reachable entries]; rewrite ?U; [|reflexivity].
  unfold without. now rewrite filter_twice.
Qed.

Lemma Redis_Get_Del (r : Redis) (k : string) (now : Z) :
  reachable r = true -> Redis_Get (Redis_Del r k) k now = None.
Proof.
  intro U. unfold Redis_Get. rewrite reachable_Del, U, find_Del, String.eqb_refl by exact U.
  reflexivity.
Qed.

Lemma First_active_none (d : DB) (code : string) :
  (forall r, In r (short_links d) -> ShortCode r <> code) ->
  fst (First_active d code) = None.
Proof.
  intro N. unfold First_active. destruct (fault d); [reflexivity|].
  destruct (find _ (short_links d)) as [r|] eqn:F; [|reflexivity].
  apply find_some in F. destruct F as [Hin Hp]. apply andb_true_iff in Hp.
  destruct Hp as [Hc _]. unfold has_code in Hc. apply String.eqb_eq in Hc.
  now destruct (N r Hin).
Qed.

End Deleting.

Section Toggling.

Import Scenario Scenario2 Handler.
Local Open Scope string_scope.

Lemma First_short_code_finds (d : DB) (link : ShortLink) :
  TableOK d -> fault d = None -> In link (short_links d) ->
  First_short_code d (ShortCode link) = (Some link, None).
Proof.
  intros T F Hin. unfold First_short_code. rewrite F.
  destruct (find _ (short_links d)) as [r|] eqn:E.
  - apply find_some in E. destruct E as [Hr Hc]. unfold has_code in Hc.
    apply String.eqb_eq in Hc. now rewrite (@unique_code d r link T Hr Hin Hc).
  - pose proof (find_none _ _ E link Hin) as X. unfold has_code in X.
    rewrite String.eqb_refl in X. discriminate X.
Qed.

Lemma ToggleLink_rows (d : DB) (link : ShortLink) (now : Z) :
  TableOK d -> fault d = None -> In link (short_links d) ->
  fst (Store.ToggleLink d (ShortCode link) now)
  = mkDB (map (flip_active (ShortCode link) now) (short_links d)) (next_id d) None.
Proof.
  intros T F Hin. unfold Store.ToggleLink.
  rewrite (@First_short_code_finds d link T F Hin). cbn [fst]. rewrite F. f_equal.
  apply map_ext_in. intros r Hr. unfold set_active, flip_active, has_code.
  destruct (Z.eqb_spec (ID r) (ID link)) as [E|N].
  - rewrite (@unique_id d r link T Hr Hin E), String.eqb_refl. reflexivity.
  - destruct (String.eqb_spec (ShortCode r) (ShortCode link)) as [E|_]; [|reflexivity].
    destruct N. now rewrite (@unique_code d r link T Hr Hin E).
Qed.

Lemma flip_active_twice (code : string) (now now' : Z) (r : ShortLink) :
  IsActive (flip_active code now' (flip_active code now r)) = IsActive r.
Proof.
  unfold flip_active. destruct (has_code code r) eqn:E.
  - unfold has_code in *. cbn. rewrite E. cbn. apply negb_involutive.
  - now rewrite E.
Qed.

Lemma First_active_flipped (d : DB) (link : ShortLink) (now : Z) :
  TableOK d -> In link (short_links d) ->
  First_active (mkDB (map (flip_active (ShortCode link) now) (short_links d)) (next_id d) None)
               (ShortCode link)
  = if IsActive link then (None, Some ErrRecordNotFound)
    else (Some (flip_active (ShortCode link) now link), None).
Proof.
  intros T Hin. unfold First_active. cbn [fault short_links].
  destruct (find _ _) as [r|] eqn:E.
  - apply find_some in E. destruct E as [Hr Hp]. apply in_map_iff in Hr.
    destruct Hr as [r0 [E0 H0]]. subst r. apply andb_true_iff in Hp.
    destruct Hp as [Hc Ha]. apply Bool.eqb_prop in Ha.
    assert (ShortCode r0 = ShortCode link) as Ec.
    { unfold flip_active, has_code in Hc. destruct (String.eqb_spec (ShortCode r0) (ShortCode link)) as [X|X]; [exact X|].
      apply String.eqb_eq in Hc. contradiction. }
    rewrite (@unique_code d r0 link T H0 Hin Ec) in *.
    unfold flip_active, has_code in Ha |- *. rewrite String.eqb_refl in *. cbn in Ha.
    apply negb_true_iff in Ha. now rewrite Ha.
  - pose proof (find_none _ _ E (flip_active (ShortCode link) now link)
                  (in_map _ _ _ Hin)) as X.
    cbn in X. unfold flip_active, has_code in X. rewrite String.eqb_refl in X. cbn in X.
    rewrite String.eqb_refl in X. cbn in X.
    destruct (IsActive link); [reflexivity | discriminate X].
Qed.

Lemma TableOK_one_created : TableOK (hdb one_created).
Proof.
  apply (@perform_all_TableOK create_one fresh_server one_created TableOK_empty).
  reflexivity.
Qed.

End Toggling.

Section Counting.

Import Scenario Scenario2 Handler.
Local Open Scope string_scope.

Lemma sum_clicks_nonneg (l : list ShortLink) :
  Forall (fun r => (0 <= ClickCount r)%Z) l -> (0 <= sum_clicks l)%Z.
Proof. unfold sum_clicks. induction 1; cbn; lia. Qed.

Lemma click_none (code : string) (now : Z) (l : list ShortLink) :
  (forall r, In r l -> ShortCode r <> code) ->
  map (fun r => if has_code code r then click now r else r) l = l.
Proof.
  intro N. induction l as [|x l IH]; [reflexivity|]. cbn.
  rewrite IH by (intros r Hr; apply N; now right).
  unfold has_code. destruct (String.eqb_spec (ShortCode x) code) as [E|_]; [|reflexivity].
  destruct (N x (or_introl eq_refl) E).
Qed.

Lemma sum_clicks_click (code : string) (now : Z) (l : list ShortLink) (link : ShortLink) :
  NoDup (map ShortCode l) -> In link l -> ShortCode link = code ->
  sum_clicks (map (fun r => if has_code code r then click now r else r) l)
  = (sum_clicks l + 1)%Z.
Proof.
  intros N Hin Hc. induction l as [|x l IH]; [destruct Hin|]. cbn [map] in *.
  inversion N as [|y l' Hn Hd]; subst y l'. destruct Hin as [E|Hin].
  - subst x. unfold has_code at 1. rewrite Hc, String.eqb_refl.
    rewrite click_none.
    + unfold sum_clicks. cbn. lia.
    + intros r Hr E. apply Hn. rewrite Hc, <- E. now apply in_map.
  - assert (has_code code x = false) as X.
    { unfold has_code. apply String.eqb_neq. intro E. apply Hn. rewrite E, <- Hc. now apply in_map. }
    rewrite X. unfold sum_clicks in *. cbn [fold_right]. rewrite (IH Hd Hin). lia.
Qed.

Lemma filter_length_le (A : Type) (p : A -> bool) (l : list A) :
  (List.length (filter p l) <= List.length l)%nat.
Proof. induction l as [|x l IH]; cbn; [lia|]. destruct (p x); cbn; lia. Qed.

Lemma existsb_overflow (d : DB) (code : string) (link : ShortLink) :
  TableOK d -> In link (short_links d) -> ShortCode link = code ->
  (ClickCount link < MaxInt64)%Z ->
  existsb (fun r => has_code code r && (MaxInt64 <=? ClickCount r)%Z) (short_links d) = false.
Proof.
  intros T Hin Hc Hk. destruct (existsb _ _) eqn:E; [|reflexivity].
  apply existsb_exists in E. destruct E as [r [Hr Hp]]. apply andb_true_iff in Hp.
  destruct Hp as [Hcr Ho]. unfold has_code in Hcr. apply String.eqb_eq in Hcr.
  rewrite (@unique_code d r link T Hr Hin ltac:(congruence)) in Ho.
  apply Z.leb_le in Ho. lia.
Qed.

End Counting.

Section Statistics.

Import Scenario Scenario2 Handler.
Local Open Scope string_scope.

Lemma sum_clicks_app (l1 l2 : list ShortLink) :
  sum_clicks (l1 ++ l2)%list = (sum_clicks l1 + sum_clicks l2)%Z.
Proof. unfold sum_clicks. induction l1 as [|x l IH]; cbn; [reflexivity | rewrite IH; lia]. Qed.

Lemma filter_true (A : Type) (l : list A) : filter (fun _ => true) l = l.
Proof. induction l as [|x l IH]; cbn; congruence. Qed.

(** Two rows of 2^62 clicks each: their sum, 2^63, is no int64, the
    scan fails and [GetStats] reports 0 clicks. *)
Example GetStats_sum_beyond_int64 :
  response (GetStats (NewShortLinkHandler None (NewGenerator
    (mkDB [mkShortLink 1 "aaaaaaa" "https://example.org/a" (2 ^ 62) true 100 100;
           mkShortLink 2 "aaaaaab" "https://example.org/b" (2 ^ 62) true 100 100]
          3 None))))
  = JSON StatusOK (Stats 2 0 2).
Proof. vm_compute. reflexivity. Qed.

(** One click less and the sum is the largest int64. *)
Example GetStats_sum_MaxInt64 :
  response (GetStats (NewShortLinkHandler None (NewGenerator
    (mkDB [mkShortLink 1 "aaaaaaa" "https://example.org/a" (2 ^ 62) true 100 100;
           mkShortLink 2 "aaaaaab" "https://example.org/b" (2 ^ 62 - 1) true 100 100]
          3 None))))
  = JSON StatusOK (Stats 2 MaxInt64 2).
Proof. vm_compute. reflexivity. Qed.

End Statistics.

(* ------------------------------------------------------------------ *)
(** ** The middlewares *)

Section Auth.

Import Middleware.
Local Open Scope string_scope.

Lemma prefix_append (p s : string) :
  prefix p s = true <-> exists rest, s = p ++ rest.
Proof.
  revert p. induction s as [|b s IH]; intro p; destruct p as [|a p]; cbn.
  - split; [intros _; now exists EmptyString | reflexivity].
  - split; [discriminate | intros [rest E]; discriminate E].
  - split; [intros _; now exists (String b s) | reflexivity].
  - destruct (ascii_dec a b) as [E|N].
    + subst b. rewrite IH. split; intros [rest E]; exists rest; [now subst | now inversion E].
    + split; [discriminate|]. intros [rest E]. inversion E. congruence.
Qed.

Lemma skip_loop_iff (path : string) (l : list string) :
  skip_loop path l = true <->
  In path l \/ (l <> [] /\ exists rest, path = "/static/" ++ rest).
Proof.
  induction l as [|x l IH]; cbn [skip_loop In].
  - split; [discriminate | intros [[]|[N _]]; now destruct N].
  - unfold HasPrefix. destruct (String.eqb_spec path x) as [E|N]; cbn [orb].
    + split; auto.
    + destruct (prefix "/static/" path) eqn:P.
      * split; [|reflexivity]. intros _. right. split; [discriminate|].
        now apply prefix_append.
      * rewrite IH. split.
        -- intros [H|[_ [rest E]]]; [auto|].
           assert (prefix "/static/" path = true) by (apply prefix_append; eauto). congruence.
        -- intros [[E|H]|[_ [rest E]]]; [congruence | auto |].
           assert (prefix "/static/" path = true) by (apply prefix_append; eauto). congruence.
Qed.

Lemma Split_not_nil (s : string) (sep : ascii) : Split s sep <> [].
Proof.
  induction s as [|c s IH]; cbn; [discriminate|].
  destruct (Ascii.eqb c sep); [discriminate|].
  destruct (Split s sep); [contradiction | discriminate].
Qed.

Lemma Split_one (s : string) (a : string) :
  Split s " "%char = [a] <-> s = a /\ spaceless a.
Proof.
  unfold spaceless. revert a. induction s as [|c s IH]; intro a; cbn [Split].
  - split; [intro H; inversion H; split; [reflexivity | constructor]|].
    intros [E _]. now subst.
  - destruct (Ascii.eqb_spec c " "%char) as [E|N].
    + split.
      * intro H. inversion H. destruct (Split_not_nil s " "%char). assumption.
      * intros [E1 S]. subst a c. cbn in S. inversion S. congruence.
    + destruct (Split s " "%char) as [|p ps] eqn:Sp; [destruct (Split_not_nil _ _ Sp)|].
      split.
      * intro H. inversion H; subst. destruct (proj1 (IH p) eq_refl) as [E1 S1]. subst s.
        split; [reflexivity|]. cbn. constructor; assumption.
      * intros [E1 S]. subst a. cbn in S. inversion S; subst.
        pose proof (proj2 (IH s) (conj eq_refl H2)) as X. inversion X. reflexivity.
Qed.

Lemma Split_two (s : string) (a b : string) :
  Split s " "%char = [a; b] <-> s = a ++ " " ++ b /\ spaceless a /\ spaceless b.
Proof.
  revert a. induction s as [|c s IH]; intro a; cbn [Split].
  - split; [discriminate|]. intros [E _]. destruct a; discriminate E.
  - destruct (Ascii.eqb_spec c " "%char) as [E|N].
    + subst c. split.
      * intro H. inversion H as [[Ea Sp]]. apply Split_one in Sp. destruct Sp as [Es Sb].
        subst. repeat split; auto. constructor.
      * intros [E [Sa Sb]]. destruct a as [|x a].
        -- cbn in E. inversion E; subst. f_equal. apply Split_one. auto.
        -- cbn in E. inversion E; subst. unfold spaceless in Sa. cbn in Sa. inversion Sa. congruence.
    + destruct (Split s " "%char) as [|p ps] eqn:Sp; [destruct (Split_not_nil _ _ Sp)|].
      split.
      * intro H. inversion H; subst. destruct (proj1 (IH p) eq_refl) as [E1 [Sa Sb]]. subst s.
        split; [reflexivity|]. split; [|exact Sb]. unfold spaceless. cbn. constructor; assumption.
      * intros [E [Sa Sb]]. destruct a as [|x a]; cbn in E; inversion E; subst; [congruence|].
        unfold spaceless in Sa. cbn in Sa. inversion Sa; subst.
        pose proof (proj2 (IH a) (conj eq_refl (conj H2 Sb))) as X. inversion X. reflexivity.
Qed.

Lemma Get_Set_key (c : Context) (key : string) (v : Value) :
  Get_key (Set_key c key v) key = Some v.
Proof. unfold Get_key, Set_key. cbn. now rewrite String.eqb_refl. Qed.

End Auth.

(* ------------------------------------------------------------------ *)
(** ** The rate limiter *)

Section Limiting.

Import Scenario2 RateLimit.

Lemma RL_nth_set_nth (l : list PC) (t t' : nat) (p : PC) :
  nth t' (set_nth l t p) Idle = if Nat.eqb t' t then p else nth t' l Idle.
Proof.
  revert l t'. induction t as [|t IH]; intros l t'.
  - destruct l, t' as [|[|t']]; reflexivity.
  - destruct l as [|x l], t' as [|t']; cbn [set_nth nth Nat.eqb]; try reflexivity.
    + rewrite IH. destruct (Nat.eqb t' t); [reflexivity | now destruct t'].
    + apply IH.
Qed.

Lemma RL_pc_of_goto (w : World) (t t' : nat) (p : PC) :
  pc_of (goto w t p) t' = if Nat.eqb t' t then p else pc_of w t'.
Proof. apply RL_nth_set_nth. Qed.

Lemma RL_pc_of_start (cfg : Limit) (answers : Limiter) (t : nat) :
  pc_of (RateLimit cfg answers) t = Idle.
Proof. unfold pc_of, RateLimit. cbn. now destruct t. Qed.

Ltac rl_split :=
  repeat match goal with
    | H : context [Nat.eqb ?a ?b] |- _ => destruct (Nat.eqb_spec a b); try subst a
    | |- context [Nat.eqb ?a ?b] => destruct (Nat.eqb_spec a b); try subst a
    end.

Lemma RL_Inv_start (cfg : Limit) (answers : Limiter) : Inv cfg (RateLimit cfg answers).
Proof.
  constructor; intros; rewrite ?RL_pc_of_start in *; try discriminate; auto.
Qed.

(** The holder stays one when the goroutine that moved did not hold
    the mutex before and does not hold it now, or held it and still
    does. *)
Lemma holder_kept (w : World) (t : nat) (p : PC) :
  holds p = holds (pc_of w t) ->
  (exists t0, holds (pc_of w t0) = true) ->
  exists t0, holds (pc_of (goto w t p) t0) = true.
Proof.
  intros E [t0 H0]. exists t0. rewrite RL_pc_of_goto.
  destruct (Nat.eqb_spec t0 t); [subst; congruence | exact H0].
Qed.

Lemma RL_Inv_step (cfg : Limit) (w : World) (a : Action) (w' : World) :
  Inv cfg w -> step w a = Some w' -> Inv cfg w'.
Proof.
  intros [L Hd O C F Off] H. destruct a as [t path|t]; cbn [step] in H.
  - destruct (pc_of w t) eqn:P; try discriminate H. inversion H; subst w'; clear H.
    constructor; cbn [mu goto limitConfig]; auto.
    + intros t0. rewrite RL_pc_of_goto. rl_split; [discriminate | apply L].
    + intro M. apply holder_kept; [now rewrite P | auto].
    + intros t1 t2. rewrite !RL_pc_of_goto. rl_split; try discriminate; apply O.
    + intros t0. rewrite RL_pc_of_goto. rl_split; [discriminate | apply F].
    + intros E t0. rewrite RL_pc_of_goto. rl_split; [reflexivity | now apply Off].
  - destruct (pc_of w t) eqn:P; try discriminate H.
    + (* Arrive *)
      rewrite C in H.
      assert (exists p, w' = goto w t p /\ holds p = false /\ p <> Fatal /\
                        (Enabled cfg = false -> limited p = false)) as [p [E [Hp [Fp Lp]]]].
      { destruct (Enabled cfg) eqn:En; cbn [negb] in H.
        - destruct (existsb _ _); inversion H; eexists; repeat split; try discriminate.
        - inversion H. eexists; repeat split; try discriminate. }
      subst w'. clear H.
      constructor; cbn [mu goto limitConfig]; auto.
      * intros t0. rewrite RL_pc_of_goto. rl_split; [congruence | apply L].
      * intro M. apply holder_kept; [now rewrite P | auto].
      * intros t1 t2. rewrite !RL_pc_of_goto. rl_split; try congruence; apply O.
      * intros t0. rewrite RL_pc_of_goto. rl_split; [exact Fp | apply F].
      * intros E t0. rewrite RL_pc_of_goto. rl_split; [now apply Lp | now apply Off].
    + (* Lock *)
      unfold lock in H. destruct (mu w) eqn:M; [discriminate H|].
      inversion H; subst w'; clear H.
      assert (forall t0, holds (pc_of w t0) = false) as Free.
      { intro t0. destruct (holds (pc_of w t0)) eqn:E; [|reflexivity].
        specialize (L t0 E). congruence. }
      constructor; cbn [mu goto set_mu limitConfig]; auto.
      * intros _. exists t. now rewrite RL_pc_of_goto, Nat.eqb_refl.
      * intros t1 t2. rewrite !RL_pc_of_goto. change (pc_of (set_mu w true)) with (pc_of w).
        rl_split; auto; rewrite Free; discriminate.
      * intros t0. rewrite RL_pc_of_goto. rl_split; [discriminate | apply F].
      * intros E t0. specialize (Off E t). rewrite P in Off. discriminate Off.
    + (* Ask *)
      destruct (Allow (limiter w)) as [ok l].
      assert (exists p, w' = goto (set_limiter w l) t p /\ holds p = true /\ p <> Fatal)
        as [p [E [Hp Fp]]]
          by (destruct ok; inversion H; eexists; repeat split; discriminate).
      subst w'. clear H.
      constructor; cbn [mu goto set_limiter limitConfig]; auto.
      * intros t0 _. apply (L t). now rewrite P.
      * intros _. exists t. now rewrite RL_pc_of_goto, Nat.eqb_refl.
      * intros t1 t2. rewrite !RL_pc_of_goto. change (pc_of (set_limiter w l)) with (pc_of w).
        rl_split; auto; intros H1 H2.
        -- symmetry. apply (O t2 t); [exact H2 | now rewrite P].
        -- apply (O t1 t); [exact H1 | now rewrite P].
      * intros t0. rewrite RL_pc_of_goto. rl_split; [exact Fp | apply F].
      * intros E t0. specialize (Off E t). rewrite P in Off. discriminate Off.
    + (* Handlers *)
      destruct locked; inversion H; subst w'; clear H.
      * constructor; cbn [mu goto limitConfig]; auto.
        -- intros t0 _. apply (L t). now rewrite P.
        -- intros _. exists t. now rewrite RL_pc_of_goto, Nat.eqb_refl.
        -- intros t1 t2. rewrite !RL_pc_of_goto. rl_split; auto; intros H1 H2.
           ++ symmetry. apply (O t2 t); [exact H2 | now rewrite P].
           ++ apply (O t1 t); [exact H1 | now rewrite P].
        -- intros t0. rewrite RL_pc_of_goto. rl_split; [discriminate | apply F].
        -- intros E t0. specialize (Off E t). rewrite P in Off. discriminate Off.
      * constructor; cbn [mu goto limitConfig]; auto.
        -- intros t0. rewrite RL_pc_of_goto. rl_split; [discriminate | apply L].
        -- intro M. apply holder_kept; [now rewrite P | auto].
        -- intros t1 t2. rewrite !RL_pc_of_goto. rl_split; try discriminate; apply O.
        -- intros t0. rewrite RL_pc_of_goto. rl_split; [discriminate | apply F].
        -- intros E t0. rewrite RL_pc_of_goto. rl_split; [reflexivity | now apply Off].
    + (* Unlock *)
      assert (mu w = true) as M by (apply (L t); now rewrite P).
      unfold unlock in H. rewrite M in H. inversion H; subst w'; clear H.
      constructor; cbn [mu goto set_mu limitConfig]; auto.
      * intros t0. rewrite RL_pc_of_goto. change (pc_of (set_mu w false)) with (pc_of w).
        rl_split; [discriminate|]. intro H0. destruct n. apply (O t0 t); [exact H0 | now rewrite P].
      * discriminate.
      * intros t1 t2. rewrite !RL_pc_of_goto. change (pc_of (set_mu w false)) with (pc_of w).
        rl_split; try discriminate; apply O.
      * intros t0. rewrite RL_pc_of_goto. rl_split; [discriminate | apply F].
      * intros E t0. rewrite RL_pc_of_goto. rl_split; [reflexivity | now apply Off].
Qed.

Lemma RL_Reach_Inv (cfg : Limit) (w : World) : Reach cfg w -> Inv cfg w.
Proof.
  induction 1 as [answers | w a w' _ IH H];
    [apply RL_Inv_start | exact (@RL_Inv_step cfg w a w' IH H)].
Qed.

Lemma RL_run_Reach (cfg : Limit) (acts : list Action) : forall (w w' : World),
  Reach cfg w -> run w acts = Some w' -> Reach cfg w'.
Proof.
  induction acts as [|a acts IH]; intros w w' R H; cbn [run] in H.
  - now inversion H; subst.
  - destruct (step w a) as [w1|] eqn:E; [|discriminate H].
    exact (IH w1 w' (@Reach_step cfg w a w1 R E) H).
Qed.

Lemma second_request_Reach : Reach limit_all second_request.
Proof.
  apply (@RL_run_Reach limit_all two_requests (RateLimit limit_all [true; true])
           second_request (Reach_start limit_all [true; true])).
  vm_compute. reflexivity.
Qed.

End Limiting.

(* ------------------------------------------------------------------ *)
(** ** The monitor's tick *)

Section Monitoring.

Import Scenario Scenario2.

(** [fillChannel] from its first statement to the head of its loop,
    the mutex free and no pass under way: four statements. *)
Lemma pass_begins (w : World) (h : History) (t : tid) (k : Caller) :
  crashed w = false -> pc_of w t = Fill_lock k ->
  mu (gen w) = false -> isFilling (gen w) = false ->
  exists w',
    run w h (repeat (Run t false) 4) = Some (w', h ++ [(db (gen w), EvEnter t)]) /\
    crashed w' = false /\ pc_of w' t = Fill_for k /\
    gen w' = set_isFilling (gen w) true /\ entropy w' = entropy w.
Proof.
  intros Hcr Hpc Hmu Hfl.
  set (w1 := goto (set_gen w (set_mu (gen w) true)) t (Fill_check k)).
  assert (step w (Run t false) = Some (w1, [])) as S1
      by (unfold_step; rewrite Hcr, Hpc; unfold lock; now rewrite Hmu).
  set (w2 := goto w1 t (Fill_set k)).
  assert (step w1 (Run t false) = Some (w2, [])) as S2
      by (unfold w1; at_pc Hcr; cbn [isFilling set_mu]; now rewrite Hfl).
  set (w3 := goto (set_gen w2 (set_isFilling (gen w2) true)) t (Fill_unlock k)).
  assert (step w2 (Run t false) = Some (w3, [EvEnter t])) as S3
      by (unfold w2, w1; at_pc Hcr; reflexivity).
  set (w4 := goto (set_gen w3 (set_mu (gen w3) false)) t (Fill_for k)).
  assert (step w3 (Run t false) = Some (w4, [])) as S4
      by (unfold w3, w2, w1; at_pc Hcr; reflexivity).
  exists w4. split.
  - cbn [repeat run]. rewrite S1. cbn [stamp map]. rewrite app_nil_r.
    rewrite S2. cbn [stamp map]. rewrite app_nil_r.
    rewrite S3. cbn [stamp map]. rewrite S4. cbn [stamp map]. now rewrite app_nil_r.
  - unfold w4, w3, w2, w1. cbn [crashed goto set_gen gen entropy].
    rewrite pc_of_goto, Nat.eqb_refl. repeat split; auto.
    cbn. rewrite <- Hmu. now destruct (gen w).
Qed.

(** The monitor's tick with the buffer below the threshold: two
    statements lead into [fillChannel]. *)
Lemma tick_calls_fillChannel (w : World) (h : History) (t : tid) :
  crashed w = false -> pc_of w t = Mon_select true ->
  recv_ready (stopChan (gen w)) = false ->
  run w h (repeat (Run t false) 2) =
  Some (goto (goto w t Mon_tick) t
             (if len (codeChan (gen w)) <? MinFillThreshold
              then Fill_lock FromMonitor else Mon_select false), h).
Proof.
  intros Hcr Hpc Hst. cbn [repeat run].
  assert (step w (Run t false) = Some (goto w t Mon_tick, [])) as S1
      by (unfold_step; now rewrite Hcr, Hpc, Hst).
  rewrite S1. cbn [stamp map]. rewrite app_nil_r.
  assert (step (goto w t Mon_tick) (Run t false) =
          Some (goto (goto w t Mon_tick) t
                     (if len (codeChan (gen w)) <? MinFillThreshold
                      then Fill_lock FromMonitor else Mon_select false), [])) as S2
      by (at_pc Hcr; now destruct (len (codeChan (gen w)) <? MinFillThreshold)).
  rewrite S2. cbn [stamp map]. now rewrite app_nil_r.
Qed.

(** The pass finds the buffer full: the loop ends and the deferred
    function gives the flag back, four statements. *)
Lemma full_pass_ends (w : World) (h : History) (t : tid) (k : Caller) :
  crashed w = false -> pc_of w t = Fill_for k ->
  ChannelBufferSize <= len (codeChan (gen w)) -> mu (gen w) = false ->
  exists w',
    run w h (repeat (Run t false) 4) = Some (w', h ++ [(db (gen w), EvLeave t)]) /\
    crashed w' = false /\ pc_of w' t = ret k /\
    gen w' = set_isFilling (gen w) false /\ entropy w' = entropy w.
Proof.
  intros Hcr Hpc Hfull Hmu.
  destruct (@pass_exits w t false k Hcr) as [Ex _]. specialize (Ex Hpc Hfull).
  set (w1 := goto w t (Defer_lock k false)) in *.
  set (w2 := goto (set_gen w1 (set_mu (gen w1) true)) t (Defer_clear k false)).
  assert (step w1 (Run t false) = Some (w2, [])) as S2
      by (unfold w1; at_pc Hcr; unfold lock; cbn [gen goto]; now rewrite Hmu).
  set (w3 := goto (set_gen w2 (set_isFilling (gen w2) false)) t (Defer_unlock k false)).
  assert (step w2 (Run t false) = Some (w3, [EvLeave t])) as S3
      by (unfold w2, w1; at_pc Hcr; reflexivity).
  set (w4 := goto (set_gen w3 (set_mu (gen w3) false)) t (ret k)).
  assert (step w3 (Run t false) = Some (w4, [])) as S4
      by (unfold w3, w2, w1; at_pc Hcr; reflexivity).
  exists w4. split.
  - cbn [repeat run]. rewrite Ex. cbn [stamp map]. rewrite app_nil_r.
    rewrite S2. cbn [stamp map]. rewrite app_nil_r.
    rewrite S3. cbn [stamp map]. rewrite S4. cbn [stamp map]. now rewrite app_nil_r.
  - unfold w4, w3, w2, w1. cbn [crashed goto set_gen gen entropy].
    rewrite pc_of_goto, Nat.eqb_refl. repeat split; auto.
    cbn. rewrite <- Hmu. now destruct (gen w).
Qed.

Lemma ticked_Reach : Reach (fst ticked) (snd ticked).
Proof.
  apply after_Reach with (d := empty_db) (rd := eights ChannelBufferSize)
                         (acts := [Start 0 1; Tick 1]).
  vm_compute. reflexivity.
Qed.

End Monitoring.

(* ------------------------------------------------------------------ *)
(** * The claims *)

Import Scenario.

(** C1: in every execution, a code is sent to codeChan only straight
    after the sending goroutine's probe of that very code came back
    negative: the query had succeeded and no row of short_links, in
    whatever state, carried the code in the store as it was at the
    probe.  Every code in the buffer got there through such a send. *)
Theorem pushed_code_was_verified (w : World) (h : History) :
  Reach w h ->
  (forall h1 d t code h2,
      h = h1 ++ (d, EvSend t code) :: h2 ->
      exists d0,
        last_event t h1 = Some (d0, EvProbe t code false) /\
        isCodeExist d0 code = false /\
        fault d0 = None /\
        (forall r, In r (short_links d0) -> ShortCode r <> code)) /\
  (forall code,
      In code (buf (codeChan (gen w))) ->
      exists h1 d t h2, h = h1 ++ (d, EvSend t code) :: h2).
Proof.
  intro HR. split.
  - intros h1 d t code h2 E.
    destruct (Reach_event HR _ _ _ _ E) as [w1 [a [w2 [HR1 [Hs _]]]]].
    destruct (step_send _ _ Hs) as [k Hpc].
    destruct (hinv_send (Reach_HInv HR1) _ Hpc) as [d0 [Hl Hx]].
    exists d0. destruct (isCodeExist_false _ _ Hx). auto.
  - intros code Hin. apply in_sends.
    rewrite (hinv_fifo (Reach_HInv HR)). apply in_or_app. now right.
Qed.

Lemma pushed_code_was_verified_witness :
  exists d0,
    last_event 0 (firstn 3 (snd pushed_twice)) = Some (d0, EvProbe 0 "aaaaaaa" false) /\
    isCodeExist d0 "aaaaaaa" = false /\
    fault d0 = None /\
    (forall r, In r (short_links d0) -> ShortCode r <> "aaaaaaa"%string).
Proof.
  apply (proj1 (pushed_code_was_verified pushed_twice_Reach)
               (firstn 3 (snd pushed_twice)) empty_db 0 "aaaaaaa"%string
               (skipn 4 (snd pushed_twice))).
  reflexivity.
Defined.

(** C2: when the count query of the probe returns an error,
    isCodeExist returns true, for every candidate and every store; a
    goroutine at the probe then moves on to the next attempt and does
    not keep the candidate. *)
Theorem isCodeExist_fails_closed :
  (forall (d : DB) (code : string) (e : Error),
      snd (Count_short_code d code) = Some e -> isCodeExist d code = true) /\
  (forall (w : World) (t : tid) (b : bool) (k : Caller) (i : nat) (code : string) (e : Error),
      crashed w = false ->
      pc_of w t = Gen_probe k i code ->
      snd (Count_short_code (db (gen w)) code) = Some e ->
      step w (Run t b) = Some (goto w t (Gen_for k (S i)), [EvProbe t code true])).
Proof.
  split.
  - intros d code e H. eapply isCodeExist_fault, Count_error_fault; eauto.
  - intros w t b k i code e Hc Hpc H.
    unfold_step. rewrite Hc, Hpc.
    now rewrite (isCodeExist_fault _ code (Count_error_fault _ _ H)).
Qed.

Lemma isCodeExist_fails_closed_witness :
  snd (Count_short_code db_down "aaaaaaa") = Some "dial tcp: connection refused"%string /\
  isCodeExist db_down "aaaaaaa" = true.
Proof.
  split; [reflexivity|].
  apply (proj1 isCodeExist_fails_closed db_down "aaaaaaa"%string
               "dial tcp: connection refused"%string).
  reflexivity.
Defined.

(** C3: in every reachable world at most one goroutine is inside the
    refill pass, and the isFilling flag is set exactly while one is: the
    flag never stays behind.  The passes entered outnumber the passes
    left by at most one.  A call that arrives while the flag is set
    returns after locking, testing and unlocking, with the generator
    unchanged.  The loop of the pass is left for the deferred function
    on a full buffer, on the stop signal and on a panic alike; no step
    takes a goroutine out of the pass except the deferred clearing of
    the flag; the deferred function runs through once it has the mutex,
    and a goroutine holding the mutex is never parked. *)
Theorem refill_single_flight (w : World) (h : History) :
  Reach w h ->
  (forall t1 t2,
      in_pass (pc_of w t1) = true -> in_pass (pc_of w t2) = true -> t1 = t2) /\
  (isFilling (gen w) = true <-> exists t, in_pass (pc_of w t) = true) /\
  enters h = leaves h + (if isFilling (gen w) then 1 else 0) /\
  (forall t k b,
      crashed w = false -> pc_of w t = Fill_lock k ->
      mu (gen w) = false -> isFilling (gen w) = true ->
      exists w1 w2 w3,
        step w (Run t b) = Some (w1, []) /\
        step w1 (Run t b) = Some (w2, []) /\
        step w2 (Run t b) = Some (w3, [EvBusy t]) /\
        pc_of w3 t = ret k /\ gen w3 = gen w /\ entropy w3 = entropy w /\
        crashed w3 = false) /\
  (forall t k b,
      crashed w = false ->
      (pc_of w t = Fill_for k -> ChannelBufferSize <= len (codeChan (gen w)) ->
       step w (Run t b) = Some (goto w t (Defer_lock k false), [])) /\
      (pc_of w t = Fill_select k -> closed (stopChan (gen w)) = true ->
       step w (Run t b) = Some (goto w t (Defer_lock k false), [])) /\
      (body_caller (pc_of w t) = Some k ->
       step w (Fault t) = Some (goto w t (Defer_lock k true), [EvPanic t]))) /\
  (forall a w' evs t,
      step w a = Some (w', evs) ->
      in_pass (pc_of w t) = true -> in_pass (pc_of w' t) = false ->
      isFilling (gen w') = false /\ evs = [EvLeave t]) /\
  (forall t k p b,
      crashed w = false -> pc_of w t = Defer_lock k p -> mu (gen w) = false ->
      exists w1 w2 w3,
        step w (Run t b) = Some (w1, []) /\
        step w1 (Run t b) = Some (w2, [EvLeave t]) /\
        step w2 (Run t b) = Some (w3, []) /\
        isFilling (gen w3) = false /\ mu (gen w3) = false /\
        pc_of w3 t = (if p then Finished else ret k) /\ crashed w3 = p) /\
  (forall t b,
      crashed w = false -> holds_mu (pc_of w t) = true ->
      exists w' evs, step w (Run t b) = Some (w', evs)).
Proof.
  intro HR. pose proof (Reach_Inv HR) as I. pose proof (Reach_HInv HR) as HI.
  split; [apply (inv_pass1 I)|].
  split; [split; [apply (inv_owner I) | intros [t Ht]; apply (inv_flag I t Ht)]|].
  split; [apply (hinv_count HI)|].
  split; [intros; now apply busy_returns|].
  split; [intros; now apply pass_exits|].
  split; [|split; [intros; now apply deferred_clears | intros; now apply holder_runs]].
  intros a w' evs t Hs Hin Hout.
  step_cases Hs; pcs; callers; split_tid; simpl in *;
    repeat match goal with
      | E : pc_of _ _ = _, H : context [pc_of _ _] |- _ => rewrite E in H
      | E : body_caller ?p = Some _, H : in_pass ?p = true |- _ => clear H
      end;
    simpl in *; try congruence; auto.
  all: match goal with
       | E : body_caller ?p = Some _ |- _ => destruct p; discriminate
       | E : pc_of _ ?t = _, M : mu _ = false |- _ =>
           exfalso; pose proof (inv_mu I t) as X; rewrite E in X;
           specialize (X eq_refl); congruence
       end.
Qed.

(** After two pushes goroutine 0 is alone in the pass with the flag
    set, and the fillChannel of a second Start comes back empty-handed. *)
Lemma refill_single_flight_witness :
  (isFilling (gen (fst second_trigger)) = true <->
   exists t, in_pass (pc_of (fst second_trigger) t) = true) /\
  enters (snd second_trigger) = leaves (snd second_trigger) + 1 /\
  exists w1 w2 w3,
    step (fst second_trigger) (Run 4 false) = Some (w1, []) /\
    step w1 (Run 4 false) = Some (w2, []) /\
    step w2 (Run 4 false) = Some (w3, [EvBusy 4]) /\
    pc_of w3 4 = ret FromGo /\
    gen w3 = gen (fst second_trigger) /\
    entropy w3 = entropy (fst second_trigger) /\
    crashed w3 = false.
Proof.
  pose proof (refill_single_flight second_trigger_Reach) as H.
  split; [apply H|]. split; [apply H|].
  apply (proj1 (proj2 (proj2 (proj2 H))) 4 FromGo false); reflexivity.
Defined.

(** C4: generateUniqueCode hands at most 10 candidates to the probe.
    It returns the first candidate the probe reports absent; when the
    probe reports all 10 present it returns the empty string and a nil
    error; it stops early, with the error, only when the entropy source
    fails.  The goroutine that executes it alone is through within 21
    statements, with this result.  In fillChannel an empty code is not
    sent and the loop goes round again. *)
Theorem generateUniqueCode_bounded :
  (forall (d : DB) (rd : Reader),
    exists r rd' probed,
      generateUniqueCode d rd = (r, rd', probed) /\
      List.length probed <= 10 /\
      match r with
      | Panic => False
      | Ret (code, None) =>
          (exists pre, probed = pre ++ [code] /\
                       Forall (fun c => isCodeExist d c = true) pre /\
                       isCodeExist d code = false /\ String.length code = 7) \/
          (code = EmptyString /\ List.length probed = 10 /\
           Forall (fun c => isCodeExist d c = true) probed)
      | Ret (code, Some _) =>
          code = EmptyString /\ List.length probed < 10 /\
          Forall (fun c => isCodeExist d c = true) probed
      end) /\
  (forall (w : World) (h : History) (t : tid) (k : Caller),
      crashed w = false -> pc_of w t = Gen_for k 0 ->
      exists m w' h',
        m <= 21 /\
        run w h (repeat (Run t false) m) = Some (w', h') /\
        gen w' = gen w /\ crashed w' = false /\
        (let '(r, rd', probed) := generateUniqueCode (db (gen w)) (entropy w) in
         pc_of w' t = after_generate k r /\ entropy w' = rd' /\
         h' = h ++ probe_events t (db (gen w)) probed)) /\
  (forall (w : World) (t : tid) (b : bool) (k : Caller),
      crashed w = false ->
      pc_of w t = Fill_got k EmptyString ->
      step w (Run t b) = Some (goto w t (Fill_for k), [])).
Proof.
  split; [|split].
  - intros d rd. unfold generateUniqueCode.
    destruct (generateUniqueCode_loop_spec d MaxAttempts rd [])
      as [r [rd' [new [E [Hn [H7 Hr]]]]]].
    exists r, rd', new. simpl in E. repeat split; auto.
    destruct r as [[code [err|]]|]; auto.
    destruct Hr as [[pre [Hp [Hf Hx]]] | Hr]; [left | right; exact Hr].
    exists pre. repeat split; auto.
    subst new. apply Forall_app in H7. destruct H7 as [_ H7].
    now inversion H7.
  - intros w h t k Hcr Hpc.
    destruct (@solo_generateUniqueCode MaxAttempts w h t k 0 Hcr Hpc eq_refl)
      as [m [w' [h' [Hm H]]]].
    exists m, w', h'. split; [unfold MaxAttempts in Hm; lia | exact H].
  - intros w t b k Hc Hpc. unfold_step. now rewrite Hc, Hpc.
Qed.

(** With the store down, the attempt goroutine 0 has begun ends after
    ten probes that all count as found, with the empty code. *)
Lemma generateUniqueCode_bounded_witness :
  exists m w' h',
    m <= 21 /\
    run (fst attempt_begun) (snd attempt_begun) (repeat (Run 0 false) m) = Some (w', h') /\
    pc_of w' 0 = Fill_got FromGo EmptyString /\
    h' = snd attempt_begun ++ probe_events 0 db_down (repeat "aaaaaaa"%string 10).
Proof.
  destruct (proj1 (proj2 generateUniqueCode_bounded)
                  (fst attempt_begun) (snd attempt_begun) 0 FromGo eq_refl eq_refl)
    as [m [w' [h' [Hm [Hrun [_ [_ H]]]]]]].
  exists m, w', h'. split; [exact Hm|]. split; [exact Hrun|].
  vm_compute in H. destruct H as [Hpc [_ Hh]]. split; [exact Hpc | exact Hh].
Defined.

(** C5 (as stated) fails: with an entropy source that repeats itself and
    an empty store the buffer holds "aaaaaaa" twice, and two callers of
    GetCode both get "aaaaaaa". *)
Lemma duplicate_codes_served :
  (Reach (fst pushed_twice) (snd pushed_twice) /\
   buf (codeChan (gen (fst pushed_twice))) = ["aaaaaaa"; "aaaaaaa"]%string /\
   ~ NoDup (buf (codeChan (gen (fst pushed_twice))))) /\
  (Reach (fst taken_twice) (snd taken_twice) /\
   takes (snd taken_twice) = ["aaaaaaa"; "aaaaaaa"]%string /\
   ~ NoDup (takes (snd taken_twice))).
Proof.
  split; (split; [|split; [reflexivity|]]).
  - apply pushed_twice_Reach.
  - intro H. inversion H as [|x l Hn _]; subst. apply Hn. now left.
  - apply taken_twice_Reach.
  - intro H. inversion H as [|x l Hn _]; subst. apply Hn. now left.
Qed.

(** C5 (amended): the buffer is pop-once: in every execution the codes
    returned by GetCode so far, followed by the codes still in the
    buffer, are exactly the codes pushed, in the order of the pushes.
    So the codes in the buffer are mutually distinct, and no two GetCode
    calls return the same code, whenever no code was pushed twice. *)
Theorem buffer_pop_once (w : World) (h : History) :
  Reach w h ->
  sends h = takes h ++ buf (codeChan (gen w)) /\
  (NoDup (sends h) -> NoDup (buf (codeChan (gen w))) /\ NoDup (takes h)).
Proof.
  intro HR. pose proof (hinv_fifo (Reach_HInv HR)) as E.
  split; [exact E|]. rewrite E. intro N. split.
  - eapply NoDup_app_remove_l; eauto.
  - eapply NoDup_app_remove_r; eauto.
Qed.

Lemma buffer_pop_once_witness :
  sends (snd taken_twice) = takes (snd taken_twice) ++ buf (codeChan (gen (fst taken_twice))).
Proof.
  apply (buffer_pop_once taken_twice_Reach).
Defined.




(** C7: generateRandomString(CodeLength) has exactly two outcomes and
    never panics.  It reads bytes of the entropy source; a byte stands
    for the number of its low six bits and is passed over when that is
    62 or 63.  When seven numbers are read before a read fails, it
    returns the string of exactly 7 characters Charset has at these
    numbers, in order, each from the 62-character alphabet a-z, A-Z,
    0-9, with a nil error and the source after the last byte used.
    When a read fails, or the source ends, before the seventh number,
    it returns the empty string with that error. *)
Theorem generateRandomString_outcome (rd : Reader) :
  String.length Charset = 62 /\
  NoDup alphabet /\
  (forall c, In c alphabet <-> alnum c = true) /\
  match indices 7 rd with
  | (inl nums, rd') =>
      exists s, generateRandomString CodeLength rd = (Ret (s, None), rd') /\
                String.length s = 7 /\
                Forall (fun c => In c alphabet) (list_ascii_of_string s) /\
                list_ascii_of_string s = map char_at nums /\
                exists used,
                  rd = used ++ rd' /\ all_drawn used = true /\
                  numbers used = nums /\ List.length nums = 7
  | (inr e, rd') =>
      generateRandomString CodeLength rd = (Ret (EmptyString, Some e), rd') /\
      exists used,
        all_drawn used = true /\ List.length (numbers used) < 7 /\
        (rd = used ++ Failed e :: rd' \/
         (rd = used /\ rd' = [] /\ e = ErrExhausted))
  end.
Proof.
  split; [reflexivity|]. split; [apply alphabet_NoDup|].
  split; [apply alphabet_alnum|].
  pose proof (generateRandomString_spec rd) as H.
  pose proof (indices_reads 7 rd) as U.
  destruct (indices 7 rd) as [[nums|e] rd'].
  - destruct H as [E [L F]]. exists (string_of_list_ascii (map char_at nums)).
    rewrite list_ascii_of_string_of_list_ascii, length_string_of_list_ascii, length_map.
    split; [exact E|]. split; [exact L|].
    split; [now apply chars_in_alphabet|]. split; [reflexivity | exact U].
  - split; [exact H | exact U].
Qed.

(** C8: once Stop has closed stopChan it stays closed and no candidate
    attempt begins any more: in a history no attempt follows a stop, and
    at most one code is pushed after it (by the attempt that was under
    way); a refill loop at its select takes the stop case and goes to
    the deferred function; the monitor's select is ready and its stop
    case ends the monitor, which then stays ended; every statement
    executed after the stop brings its goroutine strictly closer to
    leaving the generator; and the send of the pass never parks, so the
    loop does reach its select. *)
Theorem stop_ends_refill (w : World) (h : History) :
  Reach w h ->
  (forall h1 d t h2,
      h = h1 ++ (d, EvStop t) :: h2 ->
      forall x, In x h2 -> is_attempt (snd x) = false) /\
  (stopped h = true -> List.length (sends (after_stop h)) <= 1) /\
  (stopped h = true -> closed (stopChan (gen w)) = true) /\
  (closed (stopChan (gen w)) = true ->
   (forall a w' evs,
       step w a = Some (w', evs) ->
       closed (stopChan (gen w')) = true /\ forall t, ~ In (EvAttempt t) evs) /\
   (forall t b w' evs,
       step w (Run t b) = Some (w', evs) -> rank (pc_of w' t) < rank (pc_of w t)) /\
   (forall t k b,
       crashed w = false -> pc_of w t = Fill_select k ->
       step w (Run t b) = Some (goto w t (Defer_lock k false), [])) /\
   (forall t tick,
       crashed w = false -> pc_of w t = Mon_select tick ->
       step w (Run t false) = Some (goto w t Finished, [EvMonitorExit t]))) /\
  (forall t k code b,
      crashed w = false -> pc_of w t = Fill_send k code ->
      exists w', step w (Run t b) = Some (w', [EvSend t code])) /\
  (forall a w' evs t,
      step w a = Some (w', evs) -> pc_of w t = Finished -> pc_of w' t = Finished).
Proof.
  intro HR. pose proof (Reach_Inv HR) as I. pose proof (Reach_HInv HR) as HI.
  split; [|split; [intro S0; apply (Reach_StopInv HR S0)|
                   split; [apply (hinv_stop HI)|split; [|split]]]].
  - intros h1 d t h2 E [d' e] Hin. apply in_split in Hin.
    destruct Hin as [h2a [h2b ->]].
    change (h1 ++ (d, EvStop t) :: h2a ++ (d', e) :: h2b)
      with (h1 ++ ((d, EvStop t) :: h2a) ++ (d', e) :: h2b) in E.
    rewrite app_assoc in E.
    destruct (Reach_event HR _ _ _ _ E) as [w1 [a [w2 [HR1 [Hs _]]]]].
    assert (closed (stopChan (gen w1)) = true) as Hc.
    { apply (hinv_stop (Reach_HInv HR1)). rewrite stopped_app. simpl.
      apply orb_true_r. }
    destruct e; try reflexivity.
    rewrite (step_attempt _ _ t0 Hs) in Hc; [discriminate | now left].
  - intro Hc. split; [|split; [|split]].
    + intros a w' evs Hs. split; [eapply step_stop_stays; eauto|].
      intros t Hin. rewrite (step_attempt _ _ t Hs Hin) in Hc. discriminate.
    + intros t b w' evs Hs. eapply step_rank; eauto.
    + intros t k b Hcr Hpc. unfold_step.
      now rewrite Hcr, Hpc, (closed_recv_ready _ Hc).
    + intros t tick Hcr Hpc. unfold_step.
      rewrite Hcr, Hpc, (closed_recv_ready _ Hc). now destruct tick.
  - intros t k code b Hcr Hpc. now apply step_send_ready with (k := k).
  - intros a w' evs t. apply step_finished.
Qed.

(** Stop arrives inside the first attempt: goroutine 0 is 30 statements
    from leaving, and the monitor's select ends the monitor. *)
Lemma stop_ends_refill_witness :
  stopped (snd stopped_in_attempt) = true /\
  closed (stopChan (gen (fst stopped_in_attempt))) = true /\
  rank (pc_of (fst stopped_in_attempt) 0) = 30 /\
  step (fst stopped_in_attempt) (Run 1 false)
  = Some (goto (fst stopped_in_attempt) 1 Finished, [EvMonitorExit 1]).
Proof.
  pose proof (stop_ends_refill stopped_in_attempt_Reach) as [_ [_ [Hs [Hc _]]]].
  split; [reflexivity|]. split; [apply Hs; reflexivity|].
  split; [reflexivity|].
  apply (proj2 (proj2 (proj2 (Hc eq_refl))) 1 false); reflexivity.
Defined.

(** C9: codeChan is never closed, and Stop leaves it as it is; a
    GetCode call returns the oldest buffered code whether or not the
    generator has been stopped, and on an empty buffer it stays parked,
    stopped or not; a code returned by GetCode is always one that was
    pushed. *)
Theorem take_ignores_stop (w : World) (h : History) :
  Reach w h ->
  closed (codeChan (gen w)) = false /\
  (forall t b w' evs,
      pc_of w t = Stop_close -> step w (Run t b) = Some (w', evs) ->
      codeChan (gen w') = codeChan (gen w)) /\
  (forall t b code rest,
      crashed w = false -> pc_of w t = GetCode_recv ->
      buf (codeChan (gen w)) = code :: rest ->
      exists w', step w (Run t b) = Some (w', [EvTake t code]) /\
                 buf (codeChan (gen w')) = rest /\
                 stopChan (gen w') = stopChan (gen w)) /\
  (forall t b,
      pc_of w t = GetCode_recv -> buf (codeChan (gen w)) = [] ->
      step w (Run t b) = None) /\
  (forall h1 d t code h2,
      h = h1 ++ (d, EvTake t code) :: h2 -> In code (sends h1)).
Proof.
  intro HR. pose proof (Reach_Inv HR) as I.
  split; [apply (inv_open I)|]. split; [|split; [|split]].
  - intros t b w' evs. apply step_stop_codeChan.
  - intros t b code rest Hcr Hpc Hb. unfold_step; unfold GetCode, recv.
    rewrite Hcr, Hpc, Hb. eexists. split; [reflexivity|].
    rewrite ?pc_of_goto. simpl. auto.
  - intros t b Hpc Hb. unfold_step; unfold GetCode, recv.
    rewrite Hpc, Hb, (inv_open I). now destruct (crashed w).
  - intros h1 d t code h2 E.
    destruct (Reach_event HR _ _ _ _ E) as [w1 [a [w2 [HR1 [Hs _]]]]].
    rewrite (hinv_fifo (Reach_HInv HR1)).
    destruct (step_take _ _ Hs) as [[rest Hb] | Hc].
    + rewrite Hb. apply in_or_app. right. now left.
    + rewrite (inv_open (Reach_Inv HR1)) in Hc. discriminate.
Qed.

(** After Stop, with the buffer empty, a caller of GetCode is parked. *)
Lemma take_ignores_stop_witness :
  closed (stopChan (gen (fst taker_after_stop))) = true /\
  pc_of (fst taker_after_stop) 3 = GetCode_recv /\
  step (fst taker_after_stop) (Run 3 false) = None.
Proof.
  split; [reflexivity|]. split; [reflexivity|].
  apply (proj1 (proj2 (proj2 (proj2 (take_ignores_stop taker_after_stop_Reach)))) 3 false);
    reflexivity.
Defined.

(** C10: a second Stop panics: Stop on a generator returned by Stop
    panics, and in every execution whose history holds a stop, a
    goroutine that executes Stop's close crashes the process, after
    which nothing runs. *)
Theorem Stop_twice_panics :
  (forall g g', Stop g = Ret g' -> Stop g' = Panic) /\
  (forall w h t b,
      Reach w h -> stopped h = true -> crashed w = false ->
      pc_of w t = Stop_close ->
      step w (Run t b) = Some (crash (goto w t Finished), [EvPanic t])) /\
  (forall w a, crashed w = true -> step w a = None).
Proof.
  split; [|split].
  - intros g g' H. unfold Stop, close in *.
    destruct (closed (stopChan g)); inversion H; subst. reflexivity.
  - intros w h t b HR Hst Hcr Hpc.
    pose proof (hinv_stop (Reach_HInv HR) Hst) as Hc.
    unfold_step; unfold Stop, close. now rewrite Hcr, Hpc, Hc.
  - intros w a Hcr. unfold step. now rewrite Hcr.
Qed.

(** Goroutine 2 has stopped the generator and calls Stop again. *)
Lemma Stop_twice_panics_witness :
  Stop (gen (fst second_stop)) = Panic /\
  step (fst second_stop) (Run 2 false)
  = Some (crash (goto (fst second_stop) 2 Finished), [EvPanic 2]).
Proof.
  split.
  - apply (proj1 Stop_twice_panics
                 (set_stopChan (gen (fst second_stop)) (make_chan unit 0))).
    reflexivity.
  - apply (proj1 (proj2 Stop_twice_panics) (fst second_stop) (snd second_stop) 2 false
                 second_stop_Reach); reflexivity.
Defined.

(* ------------------------------------------------------------------ *)
(** * Further properties of the code *)

Import Scenario2.

(** X1: the buffer never holds more than ChannelBufferSize codes: in
    every reachable world len(codeChan) is at most 1000, the capacity
    the channel was made with. *)
Theorem buffer_within_capacity (w : World) (h : History) :
  Reach w h ->
  len (codeChan (gen w)) <= ChannelBufferSize /\
  cap (codeChan (gen w)) = ChannelBufferSize /\
  List.length (sends h) <= List.length (takes h) + ChannelBufferSize.
Proof.
  intro HR. pose proof (ginv_len (Reach_GenInv HR)) as Hl.
  split; [exact Hl|]. split; [apply (inv_cap (Reach_Inv HR))|].
  rewrite (hinv_fifo (Reach_HInv HR)), length_app. unfold len in Hl. lia.
Qed.

Lemma buffer_within_capacity_witness :
  len (codeChan (gen (fst pushed_twice))) <= ChannelBufferSize /\
  cap (codeChan (gen (fst pushed_twice))) = ChannelBufferSize /\
  List.length (sends (snd pushed_twice))
  <= List.length (takes (snd pushed_twice)) + ChannelBufferSize.
Proof.
  apply (buffer_within_capacity pushed_twice_Reach).
Defined.

(** X2: every code in the buffer, and every code GetCode has returned,
    is a string of seven characters of the alphabet; GetCode never
    returns the empty string. *)
Theorem codes_well_formed (w : World) (h : History) :
  Reach w h ->
  Forall wf_code (buf (codeChan (gen w))) /\
  Forall wf_code (takes h) /\
  (forall h1 d t code h2,
      h = h1 ++ (d, EvTake t code) :: h2 ->
      String.length code = 7 /\ code <> EmptyString /\
      Forall (fun a => alnum a = true) (list_ascii_of_string code)).
Proof.
  intro HR.
  pose proof (hinv2_sends (Reach_HInv2 HR)) as Hs.
  rewrite (hinv_fifo (Reach_HInv HR)) in Hs. apply Forall_app in Hs.
  destruct Hs as [Ht Hb]. split; [exact Hb|]. split; [exact Ht|].
  intros h1 d t code h2 E. subst h.
  unfold takes in Ht. rewrite flat_map_app in Ht. apply Forall_app in Ht.
  destruct Ht as [_ Ht]. simpl in Ht. inversion Ht as [|x l [L F] _]; subst.
  split; [exact L|]. split.
  - intro E. subst code. discriminate L.
  - eapply Forall_impl; [|exact F]. intros a Ha. now apply alphabet_alnum.
Qed.

Lemma codes_well_formed_witness :
  Forall wf_code (takes (snd taken_twice)).
Proof.
  apply (codes_well_formed taken_twice_Reach).
Defined.

(** X3: the background work goes on until Stop is called: a monitor
    ends only after a stop; before any stop the monitor's select waits
    for a tick and takes it, and the refill loop's select always falls
    to default and starts an attempt.  Nothing is ever sent on
    stopChan. *)
Theorem background_runs_until_stop (w : World) (h : History) :
  Reach w h ->
  buf (stopChan (gen w)) = [] /\
  (closed (stopChan (gen w)) = true <-> stopped h = true) /\
  (forall h1 d t h2, h = h1 ++ (d, EvMonitorExit t) :: h2 -> stopped h1 = true) /\
  (stopped h = false ->
   (forall t tick b,
       crashed w = false -> pc_of w t = Mon_select tick ->
       step w (Run t b) = if tick then Some (goto w t Mon_tick, []) else None) /\
   (forall t k b,
       crashed w = false -> pc_of w t = Fill_select k ->
       step w (Run t b) = Some (goto w t (Gen_for k 0), [EvAttempt t]))).
Proof.
  intro HR. split; [apply (ginv_stop_empty (Reach_GenInv HR))|].
  split; [split; [apply (hinv2_stop (Reach_HInv2 HR)) | apply (hinv_stop (Reach_HInv HR))]|].
  split.
  - intros h1 d t h2 E.
    destruct (Reach_event HR _ _ _ _ E) as [w1 [a [w2 [HR1 [Hs _]]]]].
    destruct (stopped h1) eqn:S1; [reflexivity|].
    pose proof (step_monitor_exit _ _ Hs) as X.
    rewrite (not_stopped_not_ready HR1 S1) in X. discriminate X.
  - intro S0. pose proof (not_stopped_not_ready HR S0) as Hr. split.
    + intros t tick b Hcr Hpc. unfold_step. rewrite Hcr, Hpc, Hr. now destruct tick.
    + intros t k b Hcr Hpc. unfold_step. now rewrite Hcr, Hpc, Hr.
Qed.

Lemma background_runs_until_stop_witness :
  stopped (firstn 3 (snd monitor_ended)) = true.
Proof.
  apply (proj1 (proj2 (proj2 (background_runs_until_stop monitor_ended_Reach)))
               (firstn 3 (snd monitor_ended)) empty_db 1 []).
  reflexivity.
Defined.

(** X4: on a generator that was never started nothing is ever pushed:
    whatever else is called, the buffer stays empty, no random number is
    read, no code is handed out, and a caller of GetCode stays parked,
    also after Stop. *)
Theorem unstarted_generator_serves_nothing
        (d : DB) (rd : Reader) (acts : list Action) (w : World) (h : History) :
  run (boot d rd) [] acts = Some (w, h) ->
  existsb is_start acts = false ->
  buf (codeChan (gen w)) = [] /\ entropy w = rd /\
  sends h = [] /\ takes h = [] /\
  (forall t b, pc_of w t = GetCode_recv -> step w (Run t b) = None).
Proof.
  intros Hrun Hs.
  destruct (@Unstarted_run acts (boot d rd) [] w h (Unstarted_boot d rd) Hs Hrun)
    as [[Ho Hb Hc] [He [S T]]].
  repeat split; auto.
  intros t b Hpc. unfold_step. destruct (crashed w); [reflexivity|].
  rewrite Hpc. unfold GetCode, recv. now rewrite Hb, Hc.
Qed.

Lemma unstarted_generator_serves_nothing_witness :
  step (fst (after empty_db (zeros 7) never_started)) (Run 0 false) = None.
Proof.
  apply (fun H => proj2 (proj2 (proj2 (proj2
           (@unstarted_generator_serves_nothing empty_db (zeros 7) never_started
              (fst (after empty_db (zeros 7) never_started))
              (snd (after empty_db (zeros 7) never_started)) H eq_refl))))).
  - reflexivity.
  - reflexivity.
Defined.

(** X5: one iteration of the refill loop, left alone before any stop,
    does what its call of generateUniqueCode says: a code returned
    without error and not empty is appended to the buffer, an error or
    an empty code appends nothing; either way the loop is back at its
    head, and the random numbers read are those generateUniqueCode
    reads. *)
Theorem refill_iteration (w : World) (h : History) (t : tid) (k : Caller) :
  Reach w h -> stopped h = false -> crashed w = false ->
  pc_of w t = Fill_for k ->
  len (codeChan (gen w)) < ChannelBufferSize ->
  exists m w' h',
    run w h (repeat (Run t false) m) = Some (w', h') /\
    crashed w' = false /\ pc_of w' t = Fill_for k /\
    db (gen w') = db (gen w) /\
    (let '(r, rd', probed) := generateUniqueCode (db (gen w)) (entropy w) in
     entropy w' = rd' /\
     buf (codeChan (gen w')) = buf (codeChan (gen w)) ++ pushed r /\
     sends h' = sends h ++ pushed r /\
     match r with
     | Ret (code, None) => code <> EmptyString -> pushed r = [code]
     | _ => pushed r = []
     end).
Proof.
  intros HR Hs Hcr Hpc Hlen.
  pose proof (Reach_Inv HR) as I.
  destruct (@solo_iteration w h t k Hcr Hpc Hlen (inv_cap I) (inv_open I)
              (not_stopped_not_ready HR Hs))
    as [m [w' [h' [_ [R [Hc' [Hp' X]]]]]]].
  exists m, w', h'. split; [exact R|]. split; [exact Hc'|]. split; [exact Hp'|].
  destruct (generateUniqueCode (db (gen w)) (entropy w)) as [[r rd'] probed].
  destruct X as [He [Hg Hh]]. split; [now rewrite Hg|]. split; [exact He|].
  split; [now rewrite Hg|]. split.
  - rewrite Hh, !sends_app, sends_probe_events, sends_pushes. reflexivity.
  - destruct r as [[code [e|]]|]; auto. intro Hne. cbn.
    apply String.eqb_neq in Hne. now rewrite Hne.
Qed.

Lemma refill_iteration_witness :
  exists m w' h',
    run (fst pass_begun) (snd pass_begun) (repeat (Run 0 false) m) = Some (w', h') /\
    buf (codeChan (gen w')) = ["aaaaaaa"%string].
Proof.
  destruct (@refill_iteration (fst pass_begun) (snd pass_begun) 0 FromGo
              pass_begun_Reach eq_refl eq_refl eq_refl)
    as [m [w' [h' [R [_ [_ [_ X]]]]]]].
  - vm_compute. lia.
  - exists m, w', h'. split; [exact R|]. exact (proj1 (proj2 X)).
Defined.

(** X6: a refill pass left alone before any stop, with the mutex free,
    when generateRandomString makes the n missing codes from the
    entropy source without an error and none of these codes is in the
    store: the pass fills the buffer to ChannelBufferSize with exactly
    these codes, in order, leaves the source where the n calls leave
    it, then clears isFilling, releases the mutex and returns. *)
Theorem refill_fills_buffer (w : World) (h : History) (t : tid) (k : Caller) (n : nat) :
  Reach w h -> stopped h = false -> crashed w = false ->
  pc_of w t = Fill_for k -> mu (gen w) = false ->
  len (codeChan (gen w)) + n = ChannelBufferSize ->
  List.length (candidates n (entropy w)) = n ->
  forallb (fun c => negb (isCodeExist (db (gen w)) c)) (candidates n (entropy w)) = true ->
  exists m w' h',
    run w h (repeat (Run t false) m) = Some (w', h') /\
    buf (codeChan (gen w')) = buf (codeChan (gen w)) ++ candidates n (entropy w) /\
    len (codeChan (gen w')) = ChannelBufferSize /\
    entropy w' = spent n (entropy w) /\
    isFilling (gen w') = false /\ mu (gen w') = false /\
    pc_of w' t = ret k /\ crashed w' = false /\
    sends h' = sends h ++ candidates n (entropy w) /\
    leaves h' = S (leaves h).
Proof.
  intros HR Hs Hcr Hpc Hmu Hlen F C.
  pose proof (Reach_Inv HR) as I.
  destruct (@solo_fill n w h t k Hcr Hpc Hlen (inv_cap I) (inv_open I)
              (not_stopped_not_ready HR Hs) F C)
    as [m [w1 [h1 [R1 [Hc1 [Hp1 [He1 [Hg1 [Hs1 [_ Hl1]]]]]]]]]].
  pose proof F as Ln.
  assert (len (codeChan (gen w1)) = ChannelBufferSize) as Lfull.
  { rewrite Hg1. unfold len in *. cbn. rewrite length_app, Ln. exact Hlen. }
  destruct (@pass_exits w1 t false k Hc1) as [Ex _].
  specialize (Ex Hp1 ltac:(lia)).
  set (w2 := goto w1 t (Defer_lock k false)) in *.
  destruct (@deferred_clears w2 t false k false) as [w3 [w4 [w5 [S3 [S4 [S5 [Hf [Hm5 [Hp5 Hc5]]]]]]]]].
  - exact Hc1.
  - unfold w2. now rewrite pc_of_goto, Nat.eqb_refl.
  - unfold w2. cbn [gen goto]. now rewrite Hg1.
  - assert (gen w5 = set_mu (set_isFilling (gen w1) false) false /\ entropy w5 = entropy w1)
      as [Hg5 He5].
    { revert S3 S4 S5. unfold w2. at_pc Hc1. unfold lock. cbn [gen goto].
      rewrite Hg1. cbn [mu set_codeChan]. rewrite Hmu.
      intro S3. inversion S3; subst w3. clear S3.
      at_pc Hc1. intro S4. inversion S4; subst w4. clear S4.
      at_pc Hc1. cbn. intro S5. inversion S5; subst w5. auto. }
    exists (m + 4), w5, (h1 ++ [(db (gen w3), EvLeave t)])%list.
    split.
    + apply (@run_repeat_add (Run t false) m 4 w h w1 h1); [exact R1|].
      cbn [repeat run]. rewrite Ex. cbn [stamp map]. rewrite app_nil_r.
      rewrite S3. cbn [stamp map]. rewrite app_nil_r.
      rewrite S4. cbn [stamp map]. rewrite S5. cbn [stamp map]. now rewrite app_nil_r.
    + rewrite Hg5, He5. cbn [codeChan set_mu set_isFilling isFilling mu].
      split; [now rewrite Hg1|]. split; [exact Lfull|]. split; [exact He1|].
      split; [reflexivity|]. split; [reflexivity|]. split; [exact Hp5|].
      split; [exact Hc5|].
      rewrite sends_app, leaves_app, Hs1, Hl1. cbn. rewrite app_nil_r. split; [reflexivity|lia].
Qed.

Lemma refill_fills_buffer_witness :
  exists m w' h',
    run (fst fill_begun) (snd fill_begun) (repeat (Run 0 false) m) = Some (w', h') /\
    len (codeChan (gen w')) = ChannelBufferSize /\ isFilling (gen w') = false.
Proof.
  destruct (@refill_fills_buffer (fst fill_begun) (snd fill_begun) 0 FromGo 1000
              fill_begun_Reach)
    as [m [w' [h' [R [_ [L [_ [Fl _]]]]]]]];
    try (vm_compute; reflexivity).
  exists m, w', h'. auto.
Defined.

(** X7: a tick of the monitor before any stop.  With
    MinFillThreshold codes or more in the buffer the monitor goes back
    to its select and nothing changes.  With fewer, the mutex free, no
    pass under way, and when generateRandomString makes the n missing
    codes from the entropy source without an error and none of them is
    in the store, the monitor running alone fills the buffer to
    ChannelBufferSize with these codes, gives the flag back and waits
    for the next tick. *)
Theorem monitor_refills_low_buffer (w : World) (h : History) (t : tid) (n : nat) :
  Reach w h -> stopped h = false -> crashed w = false ->
  pc_of w t = Mon_select true ->
  (MinFillThreshold <= len (codeChan (gen w)) ->
   exists w',
     run w h (repeat (Run t false) 2) = Some (w', h) /\
     pc_of w' t = Mon_select false /\ gen w' = gen w /\ entropy w' = entropy w) /\
  (len (codeChan (gen w)) < MinFillThreshold ->
   mu (gen w) = false -> isFilling (gen w) = false ->
   len (codeChan (gen w)) + n = ChannelBufferSize ->
   List.length (candidates n (entropy w)) = n ->
   forallb (fun c => negb (isCodeExist (db (gen w)) c)) (candidates n (entropy w)) = true ->
   exists m w' h',
     run w h (repeat (Run t false) m) = Some (w', h') /\
     buf (codeChan (gen w')) = buf (codeChan (gen w)) ++ candidates n (entropy w) /\
     len (codeChan (gen w')) = ChannelBufferSize /\
     isFilling (gen w') = false /\ mu (gen w') = false /\
     pc_of w' t = Mon_select false /\ crashed w' = false /\
     sends h' = sends h ++ candidates n (entropy w) /\
     enters h' = S (enters h) /\ leaves h' = S (leaves h)).
Proof.
  intros HR Hs Hcr Hpc.
  pose proof (Reach_Inv HR) as I.
  pose proof (not_stopped_not_ready HR Hs) as Hst.
  pose proof (@tick_calls_fillChannel w h t Hcr Hpc Hst) as T.
  split.
  - intro Hl. apply Nat.ltb_ge in Hl. rewrite Hl in T.
    eexists. split; [exact T|]. rewrite pc_of_goto, Nat.eqb_refl. auto.
  - intros Hl Hmu Hfl Hn F C. pose proof Hl as Hl'. apply Nat.ltb_lt in Hl'. rewrite Hl' in T.
    set (w1 := goto (goto w t Mon_tick) t (Fill_lock FromMonitor)) in *.
    destruct (@pass_begins w1 h t FromMonitor) as [w2 [R2 [Hc2 [Hp2 [Hg2 He2]]]]];
      [exact Hcr | unfold w1; now rewrite pc_of_goto, Nat.eqb_refl | exact Hmu | exact Hfl |].
    change (gen w1) with (gen w) in *. change (entropy w1) with (entropy w) in *.
    destruct (@solo_fill n w2 (h ++ [(db (gen w), EvEnter t)]) t FromMonitor Hc2 Hp2)
      as [m [w3 [h3 [R3 [Hc3 [Hp3 [He3 [Hg3 [Hs3 [En3 Le3]]]]]]]]]];
      rewrite ?Hg2, ?He2; cbn [codeChan stopChan db set_isFilling];
      [exact Hn | apply (inv_cap I) | apply (inv_open I) | exact Hst | exact F | exact C |].
    rewrite Hg2, He2 in *. cbn [codeChan stopChan db set_isFilling] in *.
    pose proof F as Ln.
    destruct (@full_pass_ends w3 h3 t FromMonitor Hc3 Hp3) as [w4 [R4 [Hc4 [Hp4 [Hg4 He4]]]]].
    + rewrite Hg3. unfold len in *. cbn. rewrite length_app, Ln. lia.
    + rewrite Hg3. cbn. exact Hmu.
    + exists (2 + (4 + (m + 4))), w4, (h3 ++ [(db (gen w3), EvLeave t)])%list.
      split.
      { apply (@run_repeat_add (Run t false) 2 (4 + (m + 4)) w h w1 h); [exact T|].
        eapply (@run_repeat_add (Run t false) 4 (m + 4) w1 h w2); [exact R2|].
        eapply (@run_repeat_add (Run t false) m 4 w2); [exact R3 | exact R4]. }
      rewrite Hg4, Hg3. cbn [codeChan isFilling mu set_isFilling set_codeChan buf].
      split; [reflexivity|]. split; [unfold len in *; cbn; rewrite length_app, Ln; lia|].
      split; [reflexivity|]. split; [exact Hmu|]. split; [exact Hp4|]. split; [exact Hc4|].
      rewrite sends_app, enters_app, leaves_app, Hs3, En3, Le3.
      rewrite sends_app, enters_app, leaves_app. cbn. rewrite !app_nil_r.
      repeat split; lia.
Qed.

Lemma monitor_refills_low_buffer_witness :
  exists m w' h',
    run (fst ticked) (snd ticked) (repeat (Run 1 false) m) = Some (w', h') /\
    len (codeChan (gen w')) = ChannelBufferSize /\ pc_of w' 1 = Mon_select false.
Proof.
  destruct (proj2 (@monitor_refills_low_buffer (fst ticked) (snd ticked) 1 1000
                     ticked_Reach eq_refl eq_refl eq_refl))
    as [m [w' [h' [R [_ [L [_ [_ [P _]]]]]]]]];
    try (vm_compute; reflexivity).
  - vm_compute. lia.
  - exists m, w', h'. auto.
Defined.

(* ------------------------------------------------------------------ *)
(** ** The handlers *)

Local Open Scope string_scope.

(** X8: whatever requests are served, clicks counted and codes pushed,
    one after another, the table keeps its keys: no two rows share a
    short code or an id, every id is positive and below the counter,
    and the counter never goes back, so the id of a deleted row is not
    given out again. *)
Theorem short_links_stay_unique
        (h : Handler.ShortLinkHandler) (ops : list Handler.Op) (h' : Handler.ShortLinkHandler) :
  Handler.TableOK (Handler.hdb h) -> Handler.perform_all h ops = Some h' ->
  Handler.TableOK (Handler.hdb h') /\
  (forall r1 r2,
      In r1 (short_links (Handler.hdb h')) -> In r2 (short_links (Handler.hdb h')) ->
      ShortCode r1 = ShortCode r2 \/ ID r1 = ID r2 -> r1 = r2) /\
  (next_id (Handler.hdb h) <= next_id (Handler.hdb h'))%Z.
Proof.
  intros T H. pose proof (@perform_all_TableOK ops h h' T H) as T'.
  split; [exact T'|]. split; [|exact (@next_id_perform_all ops h h' H)].
  intros r1 r2 H1 H2 [E|E].
  - exact (@unique_code _ r1 r2 T' H1 H2 E).
  - exact (@unique_id _ r1 r2 T' H1 H2 E).
Qed.

Lemma short_links_stay_unique_witness :
  Handler.TableOK (Handler.hdb one_created).
Proof.
  apply (@short_links_stay_unique fresh_server create_one one_created TableOK_empty).
  reflexivity.
Defined.

(** X9: with no redis or one that answers, and requests served one
    after another, a redirect serves exactly the active links: a 302
    for a code goes to the URL of an active row with that code; while
    the store answers every active link gets its 302 and one
    incrementClickCount is started for it; a code without an active
    row gets 404, nothing is started and nothing changes. *)
Theorem redirect_serves_active_links
        (h0 : Handler.ShortLinkHandler) (ops : list Handler.Op) (h : Handler.ShortLinkHandler) :
  Handler.TableOK (Handler.hdb h0) -> Handler.Coherent h0 -> Handler.cache_up h0 = true ->
  Handler.perform_all h0 ops = Some h ->
  forall code now,
    (forall url,
        Handler.response (Handler.RedirectToOriginal h code now)
        = Handler.Redirect Handler.StatusFound url ->
        Handler.active_link (Handler.hdb h) code url) /\
    (forall url,
        fault (Handler.hdb h) = None -> Handler.active_link (Handler.hdb h) code url ->
        Handler.response (Handler.RedirectToOriginal h code now)
        = Handler.Redirect Handler.StatusFound url /\
        Handler.spawned (Handler.RedirectToOriginal h code now) = [code]) /\
    ((forall url, ~ Handler.active_link (Handler.hdb h) code url) ->
     Handler.RedirectToOriginal h code now
     = Handler.mkReply (Handler.JSON Handler.StatusNotFound Handler.ErrorBody) h []).
Proof.
  intros T0 C0 U0 H code now.
  destruct (@perform_all_ok ops h0 h T0 C0 U0 H) as [T [C U]].
  split; [|split].
  - intros url R. exact (@redirect_sound h code now url C R).
  - intros url F A. rewrite (@redirect_complete h code now url T C F A). auto.
  - intro N. destruct (redirect_cases h code now) as [[url [R _]]|R]; [|exact R].
    exfalso. exact (N url (@redirect_sound h code now url C R)).
Qed.

Lemma redirect_serves_active_links_witness :
  Handler.response (Handler.RedirectToOriginal one_created "aaaaaaa" 200)
  = Handler.Redirect Handler.StatusFound "https://example.org/a".
Proof.
  apply (proj1 (proj2 (@redirect_serves_active_links fresh_server create_one one_created
                         TableOK_empty Coherent_fresh eq_refl eq_refl
                         "aaaaaaa"%string 200%Z)) "https://example.org/a"%string eq_refl).
  eexists. split; [left; reflexivity|]. cbn. auto.
Defined.

(** X10: the flow of the integration test.  When CreateShortLink answers
    201, the short URL is http://<host>/<code> for the code GetCode
    returned, a code no row carried; the last seven characters of the
    short URL are that code when it has seven; the table now holds an
    active row with the code and the URL; and a redirect of the code
    then answers 302 with the URL of the request, as long as the
    connection to redis is as it was at the create.  When there is no
    redis, or redis answered at the create, or held nothing under the
    key of the code, the redirect answers so whether or not redis
    answers by then. *)
Theorem created_link_redirects
        (h : Handler.ShortLinkHandler) (url host : string) (now : Z)
        (rep : Handler.Reply) (short_url : string) :
  Handler.CreateShortLink h (inl url) host now = Done rep ->
  Handler.response rep = Handler.JSON Handler.StatusCreated (Handler.ShortURL short_url) ->
  exists code g,
    GetCode (Handler.codeGenerator h) = Done (code, g) /\
    isCodeExist (Handler.hdb h) code = false /\
    short_url = "http://" ++ host ++ "/" ++ code /\
    (String.length code = 7 ->
     substring (String.length short_url - 7) 7 short_url = code) /\
    Handler.active_link (Handler.hdb (Handler.state rep)) code url /\
    Handler.spawned rep = [] /\
    (forall now',
      Handler.response (Handler.RedirectToOriginal (Handler.state rep) code now')
      = Handler.Redirect Handler.StatusFound url) /\
    (Handler.cache_up h = true \/ Handler.uncached h code = true ->
     forall up now',
       Handler.response
         (Handler.RedirectToOriginal (Handler.redis_reach (Handler.state rep) up) code now')
       = Handler.Redirect Handler.StatusFound url).
Proof.
  unfold Handler.CreateShortLink. intros H R.
  destruct (GetCode (Handler.codeGenerator h)) as [|[code g]|] eqn:G; try discriminate H.
  exists code, g. split; [reflexivity|].
  set (h1 := Handler.mkShortLinkHandler (Handler.redis h) g) in *.
  assert (Handler.hdb h1 = Handler.hdb h) as Hd.
  { unfold GetCode in G. destruct (recv _ _) as [|[c ch]|]; inversion G; subst. reflexivity. }
  destruct (Create (Handler.hdb h1) code url now) as [d [e|]] eqn:C;
    inversion H; subst rep; clear H; cbn [Handler.response Handler.state Handler.spawned] in *;
    [discriminate R|].
  inversion R; subst short_url; clear R.
  destruct (Create_ok _ _ _ _ C) as [F [E D]]. rewrite Hd in *.
  split.
  { destruct (isCodeExist (Handler.hdb h) code) eqn:X; [|reflexivity].
    apply (isCodeExist_iff _ _ F) in X. destruct X as [r [Hin Hc]].
    pose proof (existsb_false_all _ _ E r Hin) as N. unfold has_code in N.
    rewrite Hc, String.eqb_refl in N. discriminate N. }
  split; [reflexivity|]. split.
  { intro L. rewrite <- L.
    pose proof (last_characters ("http://" ++ host ++ "/") code) as X.
    rewrite !append_assoc in X. exact X. }
  split.
  { rewrite hdb_with_redis, hdb_set_hdb, D. eexists. split.
    - cbn [short_links]. apply in_or_app. right. left. reflexivity.
    - cbn. auto. }
  split; [reflexivity|].
  assert (Handler.First_active (Handler.hdb (Handler.set_hdb h1 d)) code
          = (Some (mkShortLink (next_id (Handler.hdb h1)) code url 0 true now now), None)) as FA.
  { rewrite hdb_set_hdb. rewrite <- Hd in C at 1. exact (First_active_created _ _ _ _ C). }
  split.
  - intro now'. eapply redirect_after_create; [exact FA | reflexivity].
  - intros K up now'. eapply redirect_after_create_reach; [exact FA | reflexivity | exact K].
Qed.

Lemma created_link_redirects_witness :
  Handler.response (Handler.RedirectToOriginal (Handler.state test_reply) "aaaaaaa" 200)
  = Handler.Redirect Handler.StatusFound "https://example.org/a" /\
  Handler.response
    (Handler.RedirectToOriginal (Handler.redis_reach (Handler.state fresh_reply) false)
                                "aaaaaaa" 200)
  = Handler.Redirect Handler.StatusFound "https://example.org/a".
Proof.
  split.
  - destruct (@created_link_redirects test_ready "https://example.org/a" "localhost:8080" 100
                test_reply "http://localhost:8080/aaaaaaa" eq_refl eq_refl)
      as [code [g [G [_ [_ [_ [_ [_ [R _]]]]]]]]].
    inversion G; subst code. exact (R 200%Z).
  - destruct (@created_link_redirects fresh_ready "https://example.org/a" "localhost:8080" 100
                fresh_reply "http://localhost:8080/aaaaaaa" eq_refl eq_refl)
      as [code [g [G [_ [_ [_ [_ [_ [_ R]]]]]]]]].
    inversion G; subst code. exact (R (or_introl eq_refl) false 200%Z).
Defined.

(** X11: CreateShortLink waits while the buffer is empty and never
    panics.  Once GetCode has returned a code that code is gone from
    the buffer, and the insert fails, with a 500 and nothing stored or
    cached, exactly when isCodeExist reports the code on the store as
    it is then; otherwise the answer is 201 and one row with the code,
    the URL, no clicks and the active flag is appended under the next
    id. *)
Theorem create_fails_iff_code_exists
        (h : Handler.ShortLinkHandler) (url host : string) (now : Z) :
  match Handler.CreateShortLink h (inl url) host now with
  | Blocked =>
      buf (codeChan (Handler.codeGenerator h)) = [] /\
      closed (codeChan (Handler.codeGenerator h)) = false
  | ChanPanic => False
  | Done rep =>
      exists code g,
        GetCode (Handler.codeGenerator h) = Done (code, g) /\
        codeChan (Handler.codeGenerator (Handler.state rep)) = codeChan g /\
        if isCodeExist (Handler.hdb h) code
        then Handler.response rep
             = Handler.JSON Handler.StatusInternalServerError Handler.ErrorBody /\
             Handler.state rep = Handler.mkShortLinkHandler (Handler.redis h) g
        else Handler.response rep
             = Handler.JSON Handler.StatusCreated
                 (Handler.ShortURL ("http://" ++ host ++ "/" ++ code)) /\
             short_links (Handler.hdb (Handler.state rep))
             = (short_links (Handler.hdb h)
                  ++ [mkShortLink (next_id (Handler.hdb h)) code url 0 true now now])%list
  end.
Proof.
  unfold Handler.CreateShortLink.
  destruct (GetCode (Handler.codeGenerator h)) as [|[code g]|] eqn:G.
  - unfold GetCode, recv in G. destruct (buf _); [|discriminate G].
    destruct (closed _); [discriminate G | auto].
  - destruct (GetCode_db _ G) as [Hd _].
    change (Handler.hdb (Handler.mkShortLinkHandler (Handler.redis h) g)) with (db g).
    rewrite Hd. fold (Handler.hdb h).
    pose proof (Create_iff_isCodeExist (Handler.hdb h) code url now) as X.
    destruct (Create (Handler.hdb h) code url now) as [d [e|]] eqn:C; cbn [snd] in X.
    + exists code, g. split; [reflexivity|]. split; [reflexivity|].
      destruct (isCodeExist (Handler.hdb h) code); [auto|].
      destruct X as [_ X]. discriminate (X eq_refl).
    + exists code, g. split; [reflexivity|].
      rewrite (proj1 X eq_refl). cbn [Handler.response Handler.state].
      destruct (Create_ok _ _ _ _ C) as [_ [_ D]].
      split; [|split; [reflexivity|]].
      * unfold Handler.with_redis, Handler.set_hdb. cbn. now destruct (Handler.redis h).
      * rewrite hdb_with_redis, hdb_set_hdb, D. reflexivity.
  - unfold GetCode in G. destruct (recv _ _) as [|[c ch]|] eqn:R; try discriminate G.
    unfold recv in R. destruct (buf _); [destruct (closed _)|]; discriminate R.
Qed.

(** X12: while the store answers, DeleteLink answers 200 whether or not
    a row carries the code; it removes the rows with the code and no
    other, so that isCodeExist no longer reports the code; deleting
    again changes nothing; and with no redis or one that answers, a
    redirect of the code then gets 404. *)
Theorem DeleteLink_frees_code (h : Handler.ShortLinkHandler) (code : string) :
  fault (Handler.hdb h) = None ->
  Handler.response (Handler.DeleteLink h code)
  = Handler.JSON Handler.StatusOK Handler.MessageBody /\
  (forall r, In r (short_links (Handler.hdb (Handler.state (Handler.DeleteLink h code))))
             <-> In r (short_links (Handler.hdb h)) /\ ShortCode r <> code) /\
  isCodeExist (Handler.hdb (Handler.state (Handler.DeleteLink h code))) code = false /\
  Handler.DeleteLink (Handler.state (Handler.DeleteLink h code)) code
  = Handler.mkReply (Handler.JSON Handler.StatusOK Handler.MessageBody)
                    (Handler.state (Handler.DeleteLink h code)) [] /\
  (Handler.cache_up h = true ->
   forall now,
     Handler.RedirectToOriginal (Handler.state (Handler.DeleteLink h code)) code now
     = Handler.mkReply (Handler.JSON Handler.StatusNotFound Handler.ErrorBody)
                       (Handler.state (Handler.DeleteLink h code)) []).
Proof.
  intro F.
  assert (forall h0, fault (Handler.hdb h0) = None ->
            Handler.DeleteLink h0 code =
            Handler.mkReply (Handler.JSON Handler.StatusOK Handler.MessageBody)
              (Handler.set_hdb
                 (Handler.with_redis h0 (fun r => Handler.Redis_Del r (Handler.cache_key code)))
                 (mkDB (filter (fun r => negb (has_code code r)) (short_links (Handler.hdb h0)))
                       (next_id (Handler.hdb h0)) None)) []) as Eq.
  { intros h0 F0. unfold Handler.DeleteLink, Store.DeleteLink.
    rewrite hdb_with_redis, F0. reflexivity. }
  rewrite (Eq h F). cbn [Handler.response Handler.state]. rewrite hdb_set_hdb.
  cbn [short_links].
  assert (forall r, In r (filter (fun r => negb (has_code code r)) (short_links (Handler.hdb h)))
                    <-> In r (short_links (Handler.hdb h)) /\ ShortCode r <> code) as Rows.
  { intro r. rewrite filter_In. unfold has_code. rewrite negb_true_iff, String.eqb_neq. tauto. }
  split; [reflexivity|]. split; [exact Rows|]. split.
  { pose proof (isCodeExist_DeleteLink (Handler.hdb h) code F) as X.
    unfold Store.DeleteLink in X. rewrite F in X. exact X. }
  split.
  { rewrite Eq by reflexivity. f_equal. rewrite hdb_set_hdb. cbn [short_links next_id].
    rewrite filter_twice. unfold Handler.set_hdb, Handler.with_redis.
    destruct (Handler.redis h) as [r|] eqn:R; cbn; rewrite ?R; [|reflexivity].
    now rewrite Redis_Del_twice. }
  intros U now. unfold Handler.RedirectToOriginal, Handler.redirect_from_store.
  rewrite hdb_set_hdb.
  assert (fst (Handler.First_active
            (mkDB (filter (fun r => negb (has_code code r)) (short_links (Handler.hdb h)))
                  (next_id (Handler.hdb h)) None) code) = None) as N.
  { apply First_active_none. cbn [short_links]. intros r Hin. now apply Rows in Hin. }
  destruct (Handler.First_active _ code) as [[l|] e]; [discriminate N|].
  unfold Handler.cache_up, Handler.set_hdb, Handler.with_redis in *.
  destruct (Handler.redis h) as [r|] eqn:R; cbn [Handler.redis]; rewrite ?R.
  - rewrite Redis_Get_Del by exact U. now destruct e.
  - now destruct e.
Qed.

Lemma DeleteLink_frees_code_witness :
  isCodeExist (Handler.hdb (Handler.state (Handler.DeleteLink one_created "aaaaaaa")))
              "aaaaaaa" = false.
Proof.
  apply (@DeleteLink_frees_code one_created "aaaaaaa" eq_refl).
Defined.

(** X13: while the store answers, ToggleLink on the code of a row
    answers 200 with the negated flag, flips the flag of that row and
    sets its update time, and leaves every other row alone; toggling
    twice gives every row its flag back; and with no redis or one that
    answers the change shows at the next redirect: 404 once disabled,
    302 to the row's URL once enabled. *)
Theorem ToggleLink_flips_one_link
        (h : Handler.ShortLinkHandler) (link : ShortLink) (now : Z) :
  Handler.TableOK (Handler.hdb h) -> fault (Handler.hdb h) = None ->
  In link (short_links (Handler.hdb h)) ->
  Handler.response (Handler.ToggleLink h (ShortCode link) now)
  = Handler.JSON Handler.StatusOK (Handler.Toggled (negb (IsActive link))) /\
  short_links (Handler.hdb (Handler.state (Handler.ToggleLink h (ShortCode link) now)))
  = map (Handler.flip_active (ShortCode link) now) (short_links (Handler.hdb h)) /\
  (forall now',
      map IsActive
          (short_links (Handler.hdb (Handler.state
             (Handler.ToggleLink (Handler.state (Handler.ToggleLink h (ShortCode link) now))
                                 (ShortCode link) now'))))
      = map IsActive (short_links (Handler.hdb h))) /\
  (Handler.cache_up h = true ->
   forall t,
     Handler.response
       (Handler.RedirectToOriginal (Handler.state (Handler.ToggleLink h (ShortCode link) now))
                                   (ShortCode link) t)
     = if IsActive link
       then Handler.JSON Handler.StatusNotFound Handler.ErrorBody
       else Handler.Redirect Handler.StatusFound (OriginalURL link)).
Proof.
  intros T F Hin.
  assert (forall h0 l0 t0,
            Handler.TableOK (Handler.hdb h0) -> fault (Handler.hdb h0) = None ->
            In l0 (short_links (Handler.hdb h0)) ->
            Handler.ToggleLink h0 (ShortCode l0) t0 =
            Handler.mkReply
              (Handler.JSON Handler.StatusOK (Handler.Toggled (negb (IsActive l0))))
              (Handler.with_redis
                 (Handler.set_hdb h0
                    (mkDB (map (Handler.flip_active (ShortCode l0) t0)
                               (short_links (Handler.hdb h0)))
                          (next_id (Handler.hdb h0)) None))
                 (fun r => Handler.Redis_Del r (Handler.cache_key (ShortCode l0)))) []) as Eq.
  { intros h0 l0 t0 T0 F0 H0. unfold Handler.ToggleLink.
    rewrite (@First_short_code_finds _ l0 T0 F0 H0), (@ToggleLink_rows _ l0 t0 T0 F0 H0). reflexivity. }
  rewrite (Eq h link now T F Hin). cbn [Handler.response Handler.state].
  rewrite hdb_with_redis, hdb_set_hdb. cbn [short_links].
  split; [reflexivity|]. split; [reflexivity|]. split.
  - intro now'.
    set (h1 := Handler.with_redis _ _).
    assert (Handler.hdb h1 = mkDB (map (Handler.flip_active (ShortCode link) now)
                                       (short_links (Handler.hdb h)))
                                  (next_id (Handler.hdb h)) None) as D1
        by (unfold h1; now rewrite hdb_with_redis, hdb_set_hdb).
    set (l1 := Handler.flip_active (ShortCode link) now link).
    assert (ShortCode l1 = ShortCode link) as C1
        by (unfold l1, Handler.flip_active; now destruct (has_code _ _)).
    rewrite <- C1.
    rewrite (Eq h1 l1 now').
    + cbn [Handler.state]. rewrite hdb_with_redis, hdb_set_hdb. cbn [short_links].
      rewrite D1. cbn [short_links]. rewrite C1, !map_map. apply map_ext.
      intro r. apply flip_active_twice.
    + rewrite D1. pose proof (@TableOK_ToggleLink (Handler.hdb h) (ShortCode link) now T) as X.
      now rewrite (@ToggleLink_rows _ link now T F Hin) in X.
    + now rewrite D1.
    + rewrite D1. cbn [short_links]. now apply in_map.
  - intros U t. unfold Handler.RedirectToOriginal, Handler.redirect_from_store.
    rewrite hdb_with_redis, hdb_set_hdb, (@First_active_flipped _ link now T Hin).
    assert (OriginalURL (Handler.flip_active (ShortCode link) now link) = OriginalURL link) as Ou
        by (unfold Handler.flip_active; now destruct (has_code _ _)).
    unfold Handler.cache_up, Handler.with_redis, Handler.set_hdb in *. cbn [Handler.redis].
    destruct (Handler.redis h) as [r|] eqn:R; cbn [Handler.redis].
    + rewrite Redis_Get_Del by exact U. destruct (IsActive link); cbn; now rewrite ?Ou.
    + destruct (IsActive link); cbn; now rewrite ?Ou.
Qed.

Lemma ToggleLink_flips_one_link_witness :
  Handler.response (Handler.RedirectToOriginal
                      (Handler.state (Handler.ToggleLink one_created "aaaaaaa" 300))
                      "aaaaaaa" 400)
  = Handler.JSON Handler.StatusNotFound Handler.ErrorBody.
Proof.
  apply (fun T H => proj2 (proj2 (proj2
           (@ToggleLink_flips_one_link one_created
              (mkShortLink 1 "aaaaaaa" "https://example.org/a" 0 true 100 100) 300 T eq_refl H)))
           eq_refl 400%Z).
  - exact TableOK_one_created.
  - left. reflexivity.
Defined.

(** X14: incrementClickCount, for the code of a row whose count is
    below the largest int64 and while the store answers, raises the
    count of that row by one, sets its update time and leaves every
    other row as it was; GetStats then reports the same numbers of
    links and of active links, and one click more as long as the sum
    of all counts was below the largest int64; from there on the sum is
    no int64 any more and GetStats reports 0 clicks. *)
Theorem click_is_counted_once
        (h : Handler.ShortLinkHandler) (link : ShortLink) (now : Z) :
  Handler.TableOK (Handler.hdb h) -> fault (Handler.hdb h) = None ->
  In link (short_links (Handler.hdb h)) ->
  (ClickCount link < Handler.MaxInt64)%Z ->
  short_links (Handler.hdb (Handler.incrementClickCount h (ShortCode link) now))
  = map (fun r => if has_code (ShortCode link) r then Handler.click now r else r)
        (short_links (Handler.hdb h)) /\
  In (Handler.click now link)
     (short_links (Handler.hdb (Handler.incrementClickCount h (ShortCode link) now))) /\
  (forall r, In r (short_links (Handler.hdb h)) -> r <> link ->
             In r (short_links (Handler.hdb (Handler.incrementClickCount h (ShortCode link) now)))) /\
  exists total clicks active,
    Handler.response (Handler.GetStats h)
    = Handler.JSON Handler.StatusOK (Handler.Stats total clicks active) /\
    Handler.response (Handler.GetStats (Handler.incrementClickCount h (ShortCode link) now))
    = Handler.JSON Handler.StatusOK
        (Handler.Stats total
           (if (Handler.sum_clicks (short_links (Handler.hdb h)) <? Handler.MaxInt64)%Z
            then clicks + 1 else 0)
           active).
Proof.
  intros T F Hin Hk. unfold Handler.incrementClickCount, Handler.Update_click_count.
  rewrite F, (@existsb_overflow _ (ShortCode link) link T Hin eq_refl Hk). cbn [fst].
  rewrite hdb_set_hdb. cbn [short_links].
  split; [reflexivity|]. split; [|split].
  - apply in_map_iff. exists link. split; [|exact Hin].
    unfold has_code. now rewrite String.eqb_refl.
  - intros r Hr N. apply in_map_iff. exists r. split; [|exact Hr].
    unfold has_code. destruct (String.eqb_spec (ShortCode r) (ShortCode link)) as [E|_]; [|reflexivity].
    destruct N. exact (@unique_code _ r link T Hr Hin E).
  - unfold Handler.GetStats. cbn [Handler.response]. rewrite hdb_set_hdb.
    do 3 eexists. split; [reflexivity|].
    unfold Handler.Count_links, Handler.Sum_click_count. cbn [fault short_links]. rewrite F.
    rewrite (@sum_clicks_click (ShortCode link) now _ link (Handler.codes_unique T) Hin eq_refl).
    rewrite !filter_map_length.
    + pose proof (sum_clicks_nonneg (Handler.clicks_counted T)) as P.
      f_equal. f_equal. unfold Handler.Scan_int64, Handler.MinInt64, Handler.MaxInt64 in *.
      repeat match goal with
             | |- context [(?a <=? ?b)%Z] => destruct (Z.leb_spec a b)
             | |- context [(?a <? ?b)%Z] => destruct (Z.ltb_spec a b)
             end; cbn [andb]; lia.
    + intro x. destruct (has_code _ x); reflexivity.
    + intro x. reflexivity.
Qed.

Lemma click_is_counted_once_witness :
  In (Handler.click 500 (mkShortLink 1 "aaaaaaa" "https://example.org/a" 0 true 100 100))
     (short_links (Handler.hdb (Handler.incrementClickCount one_created "aaaaaaa" 500))) /\
  Handler.response (Handler.GetStats (Handler.incrementClickCount one_created "aaaaaaa" 500))
  = Handler.JSON Handler.StatusOK (Handler.Stats 1 1 1).
Proof.
  destruct (fun H K =>
              @click_is_counted_once one_created
                (mkShortLink 1 "aaaaaaa" "https://example.org/a" 0 true 100 100) 500
                TableOK_one_created eq_refl H K)
    as [_ [I [_ [total [clicks [active [E0 E1]]]]]]].
  - left. reflexivity.
  - reflexivity.
  - split; [exact I|]. refine (eq_trans E1 _).
    vm_compute in E0. inversion E0; subst. reflexivity.
Defined.

(** X15: GetStats always answers 200 and changes nothing.  It reports
    zeros when the store fails; otherwise the number of rows, the
    number of active rows, which is at most the number of rows, and the
    sum of the click counts when that sum is an int64, 0 clicks when it
    is not; over a table whose counts are not negative the clicks
    reported are not negative.  After a CreateShortLink that answered
    201 it reports one link and one active link more and the same
    clicks. *)
Theorem GetStats_never_fails (h : Handler.ShortLinkHandler) :
  exists total clicks active,
    Handler.GetStats h
    = Handler.mkReply (Handler.JSON Handler.StatusOK (Handler.Stats total clicks active)) h [] /\
    (0 <= active <= total)%Z /\
    (fault (Handler.hdb h) <> None -> total = 0%Z /\ clicks = 0%Z /\ active = 0%Z) /\
    (fault (Handler.hdb h) = None ->
     total = Z.of_nat (List.length (short_links (Handler.hdb h))) /\
     active = Z.of_nat (List.length (filter IsActive (short_links (Handler.hdb h)))) /\
     ((Handler.MinInt64 <= Handler.sum_clicks (short_links (Handler.hdb h)) <= Handler.MaxInt64)%Z ->
      clicks = Handler.sum_clicks (short_links (Handler.hdb h))) /\
     (~ (Handler.MinInt64 <= Handler.sum_clicks (short_links (Handler.hdb h)) <= Handler.MaxInt64)%Z ->
      clicks = 0%Z)) /\
    (Handler.MinInt64 <= clicks <= Handler.MaxInt64)%Z /\
    (Handler.TableOK (Handler.hdb h) -> (0 <= clicks)%Z) /\
    (forall url host now rep short_url,
        Handler.CreateShortLink h (inl url) host now = Done rep ->
        Handler.response rep = Handler.JSON Handler.StatusCreated (Handler.ShortURL short_url) ->
        Handler.response (Handler.GetStats (Handler.state rep))
        = Handler.JSON Handler.StatusOK (Handler.Stats (total + 1) clicks (active + 1))).
Proof.
  unfold Handler.GetStats. do 3 eexists. split; [reflexivity|].
  unfold Handler.Count_links, Handler.Sum_click_count.
  destruct (fault (Handler.hdb h)) as [e|] eqn:F.
  - split; [lia|]. split; [auto|]. split; [discriminate|].
    split; [unfold Handler.MinInt64, Handler.MaxInt64; lia|]. split; [lia|].
    intros url host now rep su C R. exfalso.
    unfold Handler.CreateShortLink in C.
    destruct (GetCode (Handler.codeGenerator h)) as [|[code g]|] eqn:G; try discriminate C.
    destruct (GetCode_db _ G) as [Hd _].
    change (Handler.hdb (Handler.mkShortLinkHandler (Handler.redis h) g)) with (db g) in C.
    rewrite Hd in C. fold (Handler.hdb h) in C. unfold Create in C. rewrite F in C.
    inversion C; subst rep. discriminate R.
  - cbn beta iota. rewrite filter_true. split.
    { pose proof (@filter_length_le _ (fun r : ShortLink => IsActive r)
                    (short_links (Handler.hdb h))). lia. }
    split; [intro X; now destruct X|].
    assert (S : forall v,
               (Handler.MinInt64 <= Handler.Scan_int64 v <= Handler.MaxInt64)%Z /\
               ((Handler.MinInt64 <= v <= Handler.MaxInt64)%Z -> Handler.Scan_int64 v = v) /\
               (~ (Handler.MinInt64 <= v <= Handler.MaxInt64)%Z -> Handler.Scan_int64 v = 0%Z)).
    { intro v. unfold Handler.Scan_int64, Handler.MinInt64, Handler.MaxInt64.
      destruct (Z.leb_spec (-9223372036854775808) v);
        destruct (Z.leb_spec v 9223372036854775807); cbn [andb]; lia. }
    destruct (S (Handler.sum_clicks (short_links (Handler.hdb h)))) as [S1 [S2 S3]].
    split; [intros _; repeat split; auto|]. split; [exact S1|].
    split.
    { intro T. pose proof (sum_clicks_nonneg (Handler.clicks_counted T)) as P.
      destruct (Z_le_gt_dec (Handler.sum_clicks (short_links (Handler.hdb h))) Handler.MaxInt64)
        as [L|L].
      - rewrite S2; [exact P | unfold Handler.MinInt64; lia].
      - rewrite S3; lia. }
    intros url host now rep su C R.
    unfold Handler.CreateShortLink in C.
    destruct (GetCode (Handler.codeGenerator h)) as [|[code g]|] eqn:G; try discriminate C.
    destruct (GetCode_db _ G) as [Hd _].
    change (Handler.hdb (Handler.mkShortLinkHandler (Handler.redis h) g)) with (db g) in C.
    rewrite Hd in C. fold (Handler.hdb h) in C.
    destruct (Create (Handler.hdb h) code url now) as [d [e|]] eqn:Cr;
      inversion C; subst rep; clear C; [discriminate R|].
    destruct (Create_ok _ _ _ _ Cr) as [_ [_ D]].
    cbn [Handler.state Handler.response]. rewrite hdb_with_redis, hdb_set_hdb. subst d.
    cbn [fault short_links]. rewrite filter_true, !filter_app, !length_app, sum_clicks_app.
    cbn [List.length filter IsActive Handler.sum_clicks fold_right ClickCount].
    rewrite !Nat2Z.inj_add. change (0 + 0)%Z with 0%Z. rewrite Z.add_0_r. reflexivity.
Qed.

Lemma GetStats_never_fails_witness :
  exists total clicks active,
    Handler.response (Handler.GetStats one_created)
    = Handler.JSON Handler.StatusOK (Handler.Stats total clicks active) /\
    (0 <= clicks)%Z.
Proof.
  destruct (GetStats_never_fails one_created) as [total [clicks [active [E [_ [_ [_ [_ [P _]]]]]]]]].
  exists total, clicks, active. split; [now rewrite E | exact (P TableOK_one_created)].
Defined.

(** X16: the errors of redis are dropped.  When ToggleLink disables a
    link, or DeleteLink deletes it, while redis does not answer, the
    cached entry of the code stays; once redis answers again a
    redirect of the code still gets its 302 to the cached URL, although
    the table has no active row for it, until the entry expires, and
    404 from then on. *)
Theorem outage_leaves_stale_entry
        (h : Handler.ShortLinkHandler) (r : Handler.Redis) (link : ShortLink)
        (k url : string) (expires now : Z) :
  Handler.TableOK (Handler.hdb h) -> fault (Handler.hdb h) = None ->
  In link (short_links (Handler.hdb h)) -> IsActive link = true ->
  Handler.redis h = Some r -> Handler.reachable r = false ->
  find (Handler.is_key (Handler.cache_key (ShortCode link))) (Handler.entries r)
  = Some (k, (url, expires)) ->
  forall rep,
    rep = Handler.ToggleLink h (ShortCode link) now \/
    rep = Handler.DeleteLink h (ShortCode link) ->
    (forall u, ~ Handler.active_link (Handler.hdb (Handler.state rep)) (ShortCode link) u) /\
    forall t,
      Handler.response
        (Handler.RedirectToOriginal (Handler.redis_reach (Handler.state rep) true)
                                    (ShortCode link) t)
      = if (t <? expires)%Z
        then Handler.Redirect Handler.StatusFound url
        else Handler.JSON Handler.StatusNotFound Handler.ErrorBody.
Proof.
  intros T F Hin Ha R Down Cached rep Hrep.
  assert (Handler.Redis_Del r (Handler.cache_key (ShortCode link)) = r) as Kept
      by (unfold Handler.Redis_Del; now rewrite Down).
  assert (exists d,
            Handler.state rep = Handler.mkShortLinkHandler (Some r)
                                  (set_db (Handler.codeGenerator h) d) /\
            fst (Handler.First_active d (ShortCode link)) = None /\
            (forall u, ~ Handler.active_link d (ShortCode link) u)) as [d [St [Miss Gone]]].
  { destruct Hrep as [E|E]; subst rep.
    - exists (mkDB (map (Handler.flip_active (ShortCode link) now)
                        (short_links (Handler.hdb h)))
                   (next_id (Handler.hdb h)) None).
      split; [|split].
      + unfold Handler.ToggleLink.
        rewrite (@First_short_code_finds _ link T F Hin), (@ToggleLink_rows _ link now T F Hin).
        cbn [Handler.state]. unfold Handler.with_redis, Handler.set_hdb. cbn [Handler.redis].
        rewrite R, Kept. reflexivity.
      + rewrite (@First_active_flipped _ link now T Hin), Ha. reflexivity.
      + intros u [r0 [H0 [Hc [Hact _]]]]. cbn [short_links] in H0.
        apply in_map_iff in H0. destruct H0 as [r1 [E1 H1]]. subst r0.
        assert (ShortCode r1 = ShortCode link) as Ec.
        { unfold Handler.flip_active in Hc. now destruct (has_code _ r1). }
        rewrite (@unique_code _ r1 link T H1 Hin Ec) in Hact.
        unfold Handler.flip_active, has_code in Hact. rewrite String.eqb_refl in Hact.
        cbn in Hact. rewrite Ha in Hact. discriminate Hact.
    - exists (mkDB (filter (fun r0 => negb (has_code (ShortCode link) r0))
                           (short_links (Handler.hdb h)))
                   (next_id (Handler.hdb h)) None).
      assert (forall r0, In r0 (filter (fun r0 => negb (has_code (ShortCode link) r0))
                                       (short_links (Handler.hdb h))) ->
                         ShortCode r0 <> ShortCode link) as Rows.
      { intros r0 H0. apply filter_In in H0. destruct H0 as [_ N].
        unfold has_code in N. apply negb_true_iff in N. now apply String.eqb_neq in N. }
      split; [|split].
      + unfold Handler.DeleteLink, Store.DeleteLink. rewrite hdb_with_redis, F.
        cbn [Handler.state]. unfold Handler.with_redis, Handler.set_hdb.
        rewrite R, Kept. reflexivity.
      + apply First_active_none. exact Rows.
      + intros u [r0 [H0 [Hc _]]]. exact (Rows r0 H0 Hc). }
  split; [rewrite St; exact Gone|].
  intro t. rewrite St.
  unfold Handler.redis_reach, Handler.with_redis, Handler.RedirectToOriginal,
    Handler.redirect_from_store. cbn [Handler.redis Handler.codeGenerator].
  unfold Handler.Redis_Get. cbn [Handler.reachable Handler.entries]. rewrite Cached.
  destruct (t <? expires)%Z; [reflexivity|].
  unfold Handler.hdb. cbn [Handler.codeGenerator db set_db].
  destruct (Handler.First_active d (ShortCode link)) as [[l|] e]; [discriminate Miss|].
  now destruct e.
Qed.

Lemma outage_leaves_stale_entry_witness :
  Handler.response
    (Handler.RedirectToOriginal
       (Handler.redis_reach
          (Handler.state (Handler.ToggleLink (Handler.redis_reach one_created false)
                                             "aaaaaaa" 300)) true)
       "aaaaaaa" 400)
  = Handler.Redirect Handler.StatusFound "https://example.org/a".
Proof.
  apply (fun H =>
           proj2 (@outage_leaves_stale_entry
                    (Handler.redis_reach one_created false)
                    (Handler.mkRedis [("shortlink:aaaaaaa", ("https://example.org/a", 86500%Z))]
                                     false)
                    (mkShortLink 1 "aaaaaaa" "https://example.org/a" 0 true 100 100)
                    "shortlink:aaaaaaa" "https://example.org/a" 86500 300
                    TableOK_one_created eq_refl H eq_refl eq_refl eq_refl eq_refl
                    _ (or_introl eq_refl)) 400%Z).
  left. reflexivity.
Defined.

(* ------------------------------------------------------------------ *)
(** ** The middlewares *)

(** X17: shouldSkipAuth is true exactly for the six listed paths and
    for the paths that begin with /static/.  Under /api/ only the
    three listed paths are skipped, the pattern /api/v1/:code taken
    literally: no route registered under /api is exempt. *)
Theorem shouldSkipAuth_exact (path : string) :
  (Middleware.shouldSkipAuth path = true <->
   In path Middleware.skipPaths \/ exists rest, path = "/static/" ++ rest) /\
  (forall rest,
      path = "/api/" ++ rest ->
      (Middleware.shouldSkipAuth path = true <->
       rest = "v1/auth/login" \/ rest = "v1/auth/register" \/ rest = "v1/:code")).
Proof.
  assert (Middleware.shouldSkipAuth path = true <->
          In path Middleware.skipPaths \/ exists rest, path = "/static/" ++ rest) as A.
  { unfold Middleware.shouldSkipAuth. rewrite skip_loop_iff. split.
    - intros [H|[_ H]]; auto.
    - intros [H|H]; auto. right. split; [discriminate | exact H]. }
  split; [exact A|]. intros rest E. rewrite A. subst path. cbn [Middleware.skipPaths In].
  split.
  - intros [[H|[H|[H|[H|[H|[H|[]]]]]]]|[r H]]; try discriminate H;
      inversion H; auto.
  - intros [H|[H|H]]; subst rest; left; cbn; auto 10.
Qed.

Lemma shouldSkipAuth_exact_witness :
  Middleware.shouldSkipAuth "/api/links/aaaaaaa" = true <->
  "links/aaaaaaa" = "v1/auth/login" \/ "links/aaaaaaa" = "v1/auth/register"
  \/ "links/aaaaaaa" = "v1/:code".
Proof.
  apply (proj2 (shouldSkipAuth_exact "/api/links/aaaaaaa") "links/aaaaaaa" eq_refl).
Defined.

(** X18: a request without a role set beforehand passes
    AuthMiddleware and AdminMiddleware exactly when its path is not
    exempt, its Authorization header is the word Bearer, one space and
    a token without spaces, ValidateToken accepts the token, and the
    role in its claims is admin; the context then carries user_id,
    username and role.  Otherwise the answer is 401, or 403 when the
    first middleware let the request through. *)
Theorem admin_routes_need_admin_token
        (ValidateToken : string -> Middleware.Claims + Error) (c : Middleware.Context) :
  Middleware.Get_key c "role" = None ->
  (forall c',
      Middleware.admin_chain ValidateToken c = Middleware.Next c' <->
      Middleware.shouldSkipAuth (Middleware.Path c) = false /\
      exists token claims,
        Middleware.Authorization c = "Bearer " ++ token /\
        Middleware.spaceless token /\
        ValidateToken token = inl claims /\
        Middleware.Role claims = "admin" /\
        c' = Middleware.Set_key
               (Middleware.Set_key
                  (Middleware.Set_key c "user_id" (Middleware.VUint (Middleware.UserID claims)))
                  "username" (Middleware.VString (Middleware.Username claims)))
               "role" (Middleware.VString (Middleware.Role claims))) /\
  (forall status,
      Middleware.admin_chain ValidateToken c = Middleware.Abort status ->
      status = Middleware.StatusUnauthorized \/ status = Middleware.StatusForbidden) /\
  (Middleware.admin_chain ValidateToken c = Middleware.Abort Middleware.StatusForbidden <->
   exists c', Middleware.api_chain ValidateToken c = Middleware.Next c' /\
              Middleware.Get_key c' "role" <> Some (Middleware.VString "admin")).
Proof.
  intro Fresh.
  assert (forall token claims,
            Middleware.shouldSkipAuth (Middleware.Path c) = false ->
            Middleware.Authorization c = "Bearer " ++ token -> Middleware.spaceless token ->
            ValidateToken token = inl claims ->
            Middleware.AuthMiddleware ValidateToken c =
            Middleware.Next
              (Middleware.Set_key
                 (Middleware.Set_key
                    (Middleware.Set_key c "user_id" (Middleware.VUint (Middleware.UserID claims)))
                    "username" (Middleware.VString (Middleware.Username claims)))
                 "role" (Middleware.VString (Middleware.Role claims)))) as Pass.
  { intros token claims Sk H Sp V. unfold Middleware.AuthMiddleware. rewrite Sk, H.
    cbn [String.eqb append Ascii.eqb Bool.eqb].
    assert (Middleware.Split ("Bearer " ++ token) " " = ["Bearer"; token]) as E.
    { apply Split_two. split; [reflexivity|]. split; [|exact Sp].
      unfold Middleware.spaceless. cbn. repeat constructor; discriminate. }
    cbn [append] in E. rewrite E. cbn [String.eqb Ascii.eqb Bool.eqb negb]. now rewrite V. }
  assert (forall c1,
            Middleware.AuthMiddleware ValidateToken c = Middleware.Next c1 ->
            (Middleware.shouldSkipAuth (Middleware.Path c) = true /\ c1 = c) \/
            (Middleware.shouldSkipAuth (Middleware.Path c) = false /\
             exists token claims,
               Middleware.Authorization c = "Bearer " ++ token /\ Middleware.spaceless token /\
               ValidateToken token = inl claims /\
               c1 = Middleware.Set_key
                      (Middleware.Set_key
                         (Middleware.Set_key c "user_id"
                            (Middleware.VUint (Middleware.UserID claims)))
                         "username" (Middleware.VString (Middleware.Username claims)))
                      "role" (Middleware.VString (Middleware.Role claims)))) as Inv.
  { intros c1. unfold Middleware.AuthMiddleware.
    destruct (Middleware.shouldSkipAuth (Middleware.Path c)); [intro H; inversion H; auto|].
    destruct (String.eqb (Middleware.Authorization c) ""); [discriminate|].
    destruct (Middleware.Split (Middleware.Authorization c) " ") as [|p0 [|tok [|x rest]]] eqn:Sp;
      try discriminate.
    destruct (String.eqb_spec p0 "Bearer") as [E|N]; cbn [negb]; [|discriminate].
    subst p0. apply Split_two in Sp. destruct Sp as [E [_ St]].
    destruct (ValidateToken tok) as [claims|err] eqn:V; [|discriminate].
    intro H. inversion H; subst c1. right. split; [reflexivity|].
    exists tok, claims. auto. }
  assert (forall status, Middleware.AuthMiddleware ValidateToken c = Middleware.Abort status ->
                         status = Middleware.StatusUnauthorized) as Ab.
  { intro status. unfold Middleware.AuthMiddleware.
    destruct (Middleware.shouldSkipAuth (Middleware.Path c)); [discriminate|].
    destruct (String.eqb (Middleware.Authorization c) ""); [intro H; now inversion H|].
    destruct (Middleware.Split (Middleware.Authorization c) " ") as [|p0 [|tok [|x rest]]];
      try (intro H; now inversion H).
    destruct (negb (String.eqb p0 "Bearer")); [intro H; now inversion H|].
    destruct (ValidateToken tok); [discriminate | intro H; now inversion H]. }
  assert (forall c1, Middleware.AdminMiddleware c1 = Middleware.Next c1 <->
                     Middleware.Get_key c1 "role" = Some (Middleware.VString "admin")) as Adm.
  { intro c1. unfold Middleware.AdminMiddleware.
    destruct (Middleware.Get_key c1 "role") as [[n|role]|]; try (split; discriminate).
    destruct (String.eqb_spec role "admin") as [E|N]; [subst; tauto|].
    split; [discriminate|]. intro H. inversion H. contradiction. }
  assert (forall c1 c2, Middleware.AdminMiddleware c1 = Middleware.Next c2 -> c2 = c1) as AdmEq.
  { intros c1 c2. unfold Middleware.AdminMiddleware.
    destruct (Middleware.Get_key c1 "role") as [[n|role]|]; try discriminate.
    destruct (String.eqb role "admin"); [intro H; now inversion H | discriminate]. }
  assert (forall c1 status, Middleware.AdminMiddleware c1 = Middleware.Abort status ->
                            status = Middleware.StatusForbidden /\
                            Middleware.Get_key c1 "role" <> Some (Middleware.VString "admin")) as AdmAb.
  { intros c1 status H. destruct (Middleware.AdminMiddleware c1) eqn:E; [discriminate H|].
    inversion H; subst. split.
    - unfold Middleware.AdminMiddleware in E.
      destruct (Middleware.Get_key c1 "role") as [[n|role]|]; try (now inversion E).
      destruct (String.eqb role "admin"); [discriminate E | now inversion E].
    - intro G. apply Adm in G. congruence. }
  split; [|split].
  - intro c'. unfold Middleware.admin_chain. split.
    + destruct (Middleware.AuthMiddleware ValidateToken c) as [c1|s] eqn:A; [|discriminate].
      intro H. pose proof (AdmEq _ _ H). subst c'. apply Adm in H.
      destruct (Inv c1 eq_refl) as [[Sk E]|[Sk [token [claims [Ha [Sp [V E]]]]]]].
      * subst c1. congruence.
      * split; [exact Sk|]. exists token, claims. subst c1.
        rewrite Get_Set_key in H. inversion H. auto.
    + intros [Sk [token [claims [Ha [Sp [V [R E]]]]]]].
      rewrite (Pass token claims Sk Ha Sp V). subst c'. apply Adm.
      now rewrite Get_Set_key, R.
  - intro status. unfold Middleware.admin_chain.
    destruct (Middleware.AuthMiddleware ValidateToken c) as [c1|s] eqn:A.
    + intro H. right. exact (proj1 (AdmAb _ _ H)).
    + intro H. inversion H; subst. left. exact (Ab _ eq_refl).
  - unfold Middleware.admin_chain, Middleware.api_chain.
    destruct (Middleware.AuthMiddleware ValidateToken c) as [c1|s] eqn:A.
    + split.
      * intro H. exists c1. split; [reflexivity | exact (proj2 (AdmAb _ _ H))].
      * intros [c' [E G]]. inversion E; subst c'.
        destruct (Middleware.AdminMiddleware c1) as [c2|s] eqn:M.
        -- pose proof (AdmEq _ _ M). subst c2. apply Adm in M. contradiction.
        -- f_equal. exact (proj1 (AdmAb _ _ M)).
    + split; [|intros [c' [E _]]; discriminate E].
      intro H. inversion H; subst. pose proof (Ab _ eq_refl) as X. discriminate X.
Qed.

Lemma admin_routes_need_admin_token_witness :
  Middleware.admin_chain admin_token admin_request
  = Middleware.Next
      (Middleware.Set_key
         (Middleware.Set_key
            (Middleware.Set_key admin_request "user_id" (Middleware.VUint 1))
            "username" (Middleware.VString "root"))
         "role" (Middleware.VString "admin")).
Proof.
  apply (proj1 (@admin_routes_need_admin_token admin_token admin_request eq_refl)).
  split; [reflexivity|].
  exists "t0k3n", (Middleware.mkClaims 1 "root" "admin").
  split; [reflexivity|]. split; [|auto].
  unfold Middleware.spaceless. cbn. repeat constructor; discriminate.
Defined.

(** X19: the handler RateLimit returns keeps its mutex from before
    limiter.Allow() until the rest of the chain has returned: at most
    one request admitted by the limiter is inside the rest of the chain
    at any time, and a request that comes to the mutex meanwhile waits.
    No request unlocks an unlocked mutex, and with limiting disabled no
    request touches the mutex at all. *)
Theorem handlers_run_one_at_a_time (cfg : RateLimit.Limit) (w : RateLimit.World) :
  RateLimit.Reach cfg w ->
  (forall t1 t2,
      RateLimit.pc_of w t1 = RateLimit.Handlers true ->
      RateLimit.pc_of w t2 = RateLimit.Handlers true -> t1 = t2) /\
  (forall t t',
      RateLimit.pc_of w t = RateLimit.Handlers true ->
      RateLimit.pc_of w t' = RateLimit.Lock ->
      RateLimit.step w (RateLimit.Run t') = None) /\
  (forall t, RateLimit.pc_of w t <> RateLimit.Fatal) /\
  (RateLimit.Enabled cfg = false ->
   RateLimit.mu w = false /\
   forall t, RateLimit.pc_of w t <> RateLimit.Lock /\
             RateLimit.pc_of w t <> RateLimit.Handlers true).
Proof.
  intro R. destruct (RL_Reach_Inv R) as [L Hd O C F Off].
  split; [|split; [|split]].
  - intros t1 t2 H1 H2. apply O; [now rewrite H1 | now rewrite H2].
  - intros t t' H1 H2. cbn [RateLimit.step]. rewrite H2.
    rewrite (L t) by now rewrite H1. reflexivity.
  - exact F.
  - intro E. split.
    + destruct (RateLimit.mu w) eqn:M; [|reflexivity].
      destruct (Hd eq_refl) as [t H]. pose proof (Off E t) as X.
      destruct (RateLimit.pc_of w t) as [| | | |[]| | |]; discriminate.
    + intro t. pose proof (Off E t) as X.
      split; intro P; rewrite P in X; discriminate X.
Qed.

Lemma handlers_run_one_at_a_time_witness :
  RateLimit.step Scenario2.second_request (RateLimit.Run 1) = None.
Proof.
  apply (proj1 (proj2 (@handlers_run_one_at_a_time Scenario2.limit_all Scenario2.second_request
                         second_request_Reach)) 0 1); reflexivity.
Defined.
